(** * go-SponsorBlockTV: segment merge, segment cache, skip scheduler
    and lounge session, embedded from the Go sources.

  The first part holds the definitions, one module per source file:
  - [Merge]     : internal/pkg/api/api_helpers.go, [APIHelper.processSegments]
  - [SegCache]  : internal/pkg/api/cache.go, [Cache.Get] / [Cache.Set]
  - [Lounge]    : package ytlounge, [YtLoungeApi] (SubscribeMonitored,
                  watchdog, ProcessEvent, handleEvent)
  - [Listener]  : cmd/iSponsorBlockTV/main.go, [DeviceListener]
  - [MergeViews], [SegCacheRuns], [LoungeSession], [ListenerLoop] : further
                  functions of the same files (the commands of [YtLoungeApi],
                  [DeviceListener.Loop]) and the notions their facts use
  - [ApiHelper] : internal/pkg/api/api_helpers.go, the first helper
                  ([ApiHelper.processSegments], [MarkViewedSegments])
  - [APIHelper] : internal/pkg/api/api_helpers.go, [APIHelper.GetSegments]
  - [Setup]     : package setup, [Model.Update] and [saveConfig]
  - [Types]     : internal/pkg/types/types.go, the skip categories
  - [DeviceRegistry] : package device, [DeviceManager]
  - [LruCache]  : package cache, the cache with a list of recent use
  The second part holds the facts, in [MergeFacts], [SegCacheFacts],
  [LoungeFacts] and [ListenerFacts], and then, under "Further facts", in
  one module of facts for each of the modules above.

  Conventions.  A [float64] number of seconds is written as an integer
  ([Z]) on the scale of milliseconds: [x] stands for the [float64]
  nearest to [x/1000], and the constant [1] of the source is [second].
  Every comparison of the source is kept as it is written.  The only
  arithmetic of the source on these numbers is the [float64]
  subtraction, which rounds: it is the parameter [fsub] of the
  definitions that subtract, and the facts that need more of it than
  its being a function assume [rounded_sub], which the rounded
  subtraction satisfies.  The examples run with the exact subtraction
  [Z.sub], on whole and half seconds, which [float64] subtracts without
  rounding.  A [time.Time] is the number of ticks since Go's zero
  [Time], so that [IsZero t] is [t = 0].  A
  goroutine is recorded when it is started; a context is a number, and
  cancelling it adds the number to a set.  Where a function waits for a
  goroutine it has started ([skip] and its [sync.WaitGroup]), its runs
  are the sequences of steps of the two goroutines.  A panic is a result
  of its own. *)

From stdpp Require Import gmap strings list fin_maps sorting.

Local Open Scope Z_scope.

(** One second, in the unit of the time model. *)
Definition second : Z := 1000.

(** What the facts use of the [float64] subtraction [x - y]: the
    difference is not positive when [x ≤ y], and it does not decrease
    when [x] grows.  Both hold of the exact difference rounded to the
    nearest [float64], since rounding is monotone and keeps [0]. *)
Definition rounded_sub (fsub : Z → Z → Z) : Prop :=
  (∀ x y, x ≤ y → fsub x y ≤ 0) ∧
  (∀ x x' y, x ≤ x' → fsub x y ≤ fsub x' y).

(** ** Helpers on lists shared by the modules *)

Section sort_slice.
Context {A : Type} (less : A → A → bool).

(** [sort.Slice] on a slice of at most 12 elements is Go's insertion sort:
    [for i := 1; i < n; i++ { for j := i; j > 0 && less(j, j-1); j-- { swap(j, j-1) } }].
    [sift x rp] moves the element [x] leftwards into the already visited
    prefix, which [rp] holds last element first. *)
Fixpoint sift (x : A) (rp : list A) : list A :=
  match rp with
  | y :: rp' => if less x y then y :: sift x rp' else x :: rp
  | [] => [x]
  end.

Definition sort_Slice (l : list A) : list A :=
  rev (foldl (λ rp x, sift x rp) [] l).
End sort_slice.

Module Merge.

(** The element type of [typedSegments]: [Segment[0]], [Segment[1]],
    [UUID], [Locked].  The records modelled are those whose JSON
    ["segment"] array carries its two numbers. *)
Record typedSegment := TypedSegment {
  Seg0 : Z;
  Seg1 : Z;
  UUID : string;
  Locked : Z
}.

(** [api.Segment]. *)
Record Segment := mkSegment {
  Start : Z;
  End_ : Z;
  UUIDs : list string
}.

Definition setSeg0 (a : typedSegment) (v : Z) : typedSegment :=
  TypedSegment v (Seg1 a) (UUID a) (Locked a).
Definition setSeg1 (a : typedSegment) (v : Z) : typedSegment :=
  TypedSegment (Seg0 a) v (UUID a) (Locked a).

Definition less_end (a b : typedSegment) : bool := Seg1 a <? Seg1 b.
Definition less_start (a b : typedSegment) : bool := Seg0 a <? Seg0 b.

(** Body of the loop "Extend ends of overlapping segments". *)
Definition extend_end_at (ts : list typedSegment) (i j : nat) : list typedSegment :=
  match ts !! i, ts !! j with
  | Some a, Some b =>
      if (Seg0 b <=? Seg1 a) && (Seg1 a <=? Seg1 b)
      then <[i := setSeg1 a (Seg1 b)]> ts
      else ts
  | _, _ => ts
  end.

Definition extend_ends (ts : list typedSegment) : list typedSegment :=
  let idx := seq 0 (length ts) in
  foldl (λ ts i, foldl (λ ts j, extend_end_at ts i j) ts idx) ts idx.

(** Body of the loop "Extend starts of overlapping segments". *)
Definition extend_start_at (ts : list typedSegment) (i j : nat) : list typedSegment :=
  match ts !! i, ts !! j with
  | Some a, Some b =>
      if (Seg0 b <=? Seg0 a) && (Seg0 a <=? Seg1 b)
      then <[i := setSeg0 a (Seg0 b)]> ts
      else ts
  | _, _ => ts
  end.

(** Both loops run from [len-1] down to [0]. *)
Definition extend_starts (ts : list typedSegment) : list typedSegment :=
  let idx := rev (seq 0 (length ts)) in
  foldl (λ ts i, foldl (λ ts j, extend_start_at ts i j) ts idx) ts idx.

Section float_sub.
(** The [float64] subtraction of the test [segment.Start-last.End < 1]. *)
Context (fsub : Z → Z → Z).

(** Body of the loop "Combine close segments"; the accumulator is the
    slice [segments] together with [ignoreTTL]. *)
Definition combine_step (acc : list Segment * bool) (s : typedSegment)
    : list Segment * bool :=
  let ignoreTTL := acc.2 && (Locked s =? 1) in
  let segment := mkSegment (Seg0 s) (Seg1 s) [UUID s] in
  match last acc.1 with
  | Some l =>
      if fsub (Start segment) (End_ l) <? second
      then (removelast acc.1 ++
              [mkSegment (Start l) (End_ segment) (UUIDs segment ++ UUIDs l)],
            ignoreTTL)
      else (acc.1 ++ [segment], ignoreTTL)
  | None => (acc.1 ++ [segment], ignoreTTL)
  end.

Definition combine (ts : list typedSegment) : list Segment * bool :=
  foldl combine_step ([], true) ts.

(** [processSegments] once [data["segments"]] has been decoded. *)
Definition processSegments (rawSegments : list typedSegment) : list Segment * bool :=
  let typedSegments := sort_Slice less_end rawSegments in
  let typedSegments := extend_ends typedSegments in
  let typedSegments := sort_Slice less_start typedSegments in
  let typedSegments := extend_starts typedSegments in
  combine typedSegments.

(** [processSegments] with any two functions in the place of the two
    calls of [sort.Slice]: on a slice of more than 12 elements
    [sort.Slice] is not the insertion sort, and it may leave records with
    equal keys in another order. *)
Definition processSegments_with
    (sort_by_end sort_by_start : list typedSegment → list typedSegment)
    (rawSegments : list typedSegment) : list Segment * bool :=
  combine (extend_starts (sort_by_start (extend_ends (sort_by_end rawSegments)))).

(** What [processSegments] and the end of [GetSegments] return for the
    decoded response: [None] when no entry of the response matches the
    video or the entry has no ["segments"] array. *)
Definition GetSegments_result (segmentsData : option (list typedSegment))
    : list Segment * bool :=
  match segmentsData with
  | None => ([], true)
  | Some raws => processSegments raws
  end.

(** *** Views of the two extension loops used in the proofs *)

(** What the inner loop over [j] does to the start [x] of the segment at
    [i], reading the others in the order [tbl]. *)
Definition chase_start (tbl : list typedSegment) (x : Z) : Z :=
  foldl (λ x b, if (Seg0 b <=? x) && (x <=? Seg1 b) then Seg0 b else x) x tbl.

(** The start loop, by recursion on the part of the slice that is still to
    be visited, held last element first in [rp]; [post] is the part
    already visited. *)
Fixpoint starts_pass (rp post : list typedSegment) : list typedSegment :=
  match rp with
  | [] => post
  | a :: rp' =>
      starts_pass rp' (setSeg0 a (chase_start (rev post ++ rp) (Seg0 a)) :: post)
  end.

(** The relations between a segment before and after each loop. *)
Definition end_raised (a b : typedSegment) : Prop :=
  Seg0 b = Seg0 a ∧ Seg1 a ≤ Seg1 b ∧ UUID b = UUID a ∧ Locked b = Locked a.
Definition start_lowered (a b : typedSegment) : Prop :=
  Seg0 b ≤ Seg0 a ∧ Seg1 b = Seg1 a ∧ UUID b = UUID a ∧ Locked b = Locked a.

(** The combine loop on the slice [segments] held last element first. *)
Definition combine_push (rs : list Segment) (s : typedSegment) : list Segment :=
  match rs with
  | l :: rs' =>
      if fsub (Seg0 s) (End_ l) <? second
      then mkSegment (Start l) (Seg1 s) (UUID s :: UUIDs l) :: rs'
      else mkSegment (Seg0 s) (Seg1 s) [UUID s] :: rs
  | [] => [mkSegment (Seg0 s) (Seg1 s) [UUID s]]
  end.

(** *** Properties of a resolved segment list *)

Definition is_locked (r : typedSegment) : bool := Locked r =? 1.

Definition sorted_by_start (out : list Segment) : Prop :=
  ∀ i j a b, (i < j)%nat → out !! i = Some a → out !! j = Some b →
    Start a ≤ Start b.

Definition non_overlapping (out : list Segment) : Prop :=
  ∀ i j a b, (i < j)%nat → out !! i = Some a → out !! j = Some b →
    End_ a < Start b.

(** The gap between two adjacent segments, as the test of the combine
    loop measures it: [b.Start - a.End < 1] is false. *)
Definition gap_at_least_1s (out : list Segment) : Prop :=
  ∀ i a b, out !! i = Some a → out !! S i = Some b →
    second ≤ fsub (Start b) (End_ a).

(** [a] lies before [b], a second apart or more. *)
Definition separated (a b : Segment) : Prop :=
  second ≤ fsub (Start b) (End_ a) ∧ Start a ≤ Start b.

End float_sub.

(** Two resolved segments with the same bounds and the same ids, the ids
    in any order: the ids of a segment are a set. *)
Definition same_segment (g g' : Segment) : Prop :=
  Start g' = Start g ∧ End_ g' = End_ g ∧ UUIDs g' ≡ₚ UUIDs g.

(** *** Feeding a resolved list back to the merge

    A resolved segment carries several ids, a raw record one: the segment
    goes back as one record per id, in the order of [UUIDs], each with the
    start and end of the segment, and locked exactly when the list was
    returned as permanent. *)
Definition refeed_segment (permanent : bool) (g : Segment) : list typedSegment :=
  (λ u, TypedSegment (Start g) (End_ g) u (if permanent then 1 else 0)) <$> UUIDs g.

Definition refeed (res : list Segment * bool) : list typedSegment :=
  res.1 ≫= refeed_segment res.2.

Definition reverse_ids (g : Segment) : Segment :=
  mkSegment (Start g) (End_ g) (rev (UUIDs g)).

(** The example of the specification, times in milliseconds. *)
Definition spec_example : list typedSegment :=
  [TypedSegment 0 10000 "a" 0; TypedSegment 8000 20000 "b" 1;
   TypedSegment 25000 30000 "c" 1].

(** A raw record is well formed when it does not end before it starts. *)
Definition well_formed (a : typedSegment) : Prop := Seg0 a ≤ Seg1 a.

End Merge.

(** ** internal/pkg/api/cache.go *)

Module SegCache.

(** Values of [time.Time] and the three methods the cache calls. *)
Definition After (t u : Z) : bool := u <? t.
Definition Before (t u : Z) : bool := t <? u.
Definition IsZero (t : Z) : bool := t =? 0.

Section cache.
Context {V : Type}.

Record cacheEntry := CacheEntry {
  value : V;
  expiration : Z
}.

Record Cache := mkCache {
  entries : gmap string cacheEntry;
  ttl : Z;
  maxSize : Z
}.

Definition NewCache (maxSize : Z) (ttl : Z) : Cache := mkCache ∅ ttl maxSize.

(** The order in which [for k, entry := range c.entries] visits a map is
    not specified by Go: it is any enumeration of the entries. *)
Record Range := mkRange {
  range : gmap string cacheEntry → list (string * cacheEntry);
  range_perm : ∀ m, range m ≡ₚ map_to_list m
}.

Definition Get (c : Cache) (now : Z) (key : string) : option V * Cache :=
  match entries c !! key with
  | None => (None, c)
  | Some entry =>
      if After now (expiration entry)
      then (None, mkCache (delete key (entries c)) (ttl c) (maxSize c))
      else (Some (value entry), c)
  end.

(** "Remove expired entries": the loop over the entries [es] that the
    range statement enumerates, deleting from [m]. *)
Definition purge (now : Z) (m : gmap string cacheEntry)
    (es : list (string * cacheEntry)) : gmap string cacheEntry :=
  foldl (λ m ke, if After now (expiration ke.2) then delete ke.1 m else m) m es.

Definition remove_expired (R : Range) (now : Z) (m : gmap string cacheEntry)
    : gmap string cacheEntry :=
  purge now m (range R m).

(** The loop that looks for [oldestKey]; the accumulator is
    [(oldestKey, oldestTime)], both zero values at first. *)
Definition oldest (es : list (string * cacheEntry)) : string * Z :=
  foldl (λ acc ke,
           if IsZero acc.2 || Before (expiration ke.2) acc.2
           then (ke.1, expiration ke.2) else acc)
    (EmptyString, 0) es.

(** "Remove oldest entry if cache is full". *)
Definition remove_oldest (R : Range) (maxSize : Z) (m : gmap string cacheEntry)
    : gmap string cacheEntry :=
  if Z.of_nat (size m) >=? maxSize then delete (oldest (range R m)).1 m else m.

(** [Set]; the calls of [time.Now()] within one call of [Set] are taken
    at the same instant [now]. *)
Definition Set_ (R : Range) (c : Cache) (now : Z) (key : string) (v : V) : Cache :=
  let m := remove_expired R now (entries c) in
  let m := remove_oldest R (maxSize c) m in
  mkCache (<[key := CacheEntry v (now + ttl c)]> m) (ttl c) (maxSize c).

Definition Delete (c : Cache) (key : string) : Cache :=
  mkCache (delete key (entries c)) (ttl c) (maxSize c).

Definition Clear (c : Cache) : Cache := mkCache ∅ (ttl c) (maxSize c).

(** The entries that [Set] at [now] does not purge as expired. *)
Definition unexpired (now : Z) (c : Cache) (k : string) (e : cacheEntry) : Prop :=
  entries c !! k = Some e ∧ now ≤ expiration e.

End cache.

Arguments cacheEntry : clear implicits.
Arguments Cache : clear implicits.
Arguments Range : clear implicits.

(** One enumeration, used to run the cache on examples. *)
Definition map_to_list_range {V : Type} : Range V :=
  mkRange (V:=V) map_to_list (λ m, reflexivity (map_to_list m)).

(** A cache of two entries that live five minutes; [a] is stored at
    1000, [b] at 2000, [a] is read at 3000 and [c] is stored at 4000.
    [R] is the order in which the maps are visited. *)
Definition lru_scenario_before_c_with (R : Range string) : Cache string :=
  let c := NewCache 2 300000 in
  let c := Set_ R c 1000 "a" "va" in
  Set_ R c 2000 "b" "vb".

Definition lru_scenario_with (R : Range string) : option string * Cache string :=
  let r := Get (lru_scenario_before_c_with R) 3000 "a" in
  (r.1, Set_ R r.2 4000 "c" "vc").

Definition lru_scenario_before_c : Cache string :=
  lru_scenario_before_c_with map_to_list_range.

Definition lru_scenario : option string * Cache string :=
  lru_scenario_with map_to_list_range.

End SegCache.

(** ** package ytlounge: the lounge session *)

Module Lounge.

(** A dynamic value, [interface{}], as [encoding/json] produces it; numbers
    are in thousandths. *)
#[warnings="-register-all"]
Inductive value :=
| VNil
| VBool (b : bool)
| VNum (n : Z)
| VStr (s : string)
| VMap (m : gmap string value)
| VArr (l : list value).

(** The run-time panics the event handlers can raise. *)
Inductive panic := IndexOutOfRange | TypeAssertion | NilFuncCall.

Inductive outcome (A : Type) :=
| Returned (a : A)
| Panicked (p : panic).
Arguments Returned {A} a.
Arguments Panicked {A} p.

(** [args[0]] *)
Definition arg0 (args : list value) : outcome value :=
  match args with
  | a :: _ => Returned a
  | [] => Panicked IndexOutOfRange
  end.

(** [v.(map[string]interface{})] and [v.(string)] in their two-result form *)
Definition as_map (v : value) : option (gmap string value) :=
  match v with VMap m => Some m | _ => None end.
Definition as_string (v : value) : option string :=
  match v with VStr s => Some s | _ => None end.

(** [data[k]]: a missing key reads as [nil]. *)
Definition index (data : gmap string value) (k : string) : value :=
  default VNil (data !! k).

(** [v == "s"] for an interface value [v] *)
Definition is_str (v : value) (s : string) : bool :=
  match v with VStr s' => String.eqb s' s | _ => false end.

(** The statements [go f(...)] of the package. *)
Inductive goroutine :=
| GoSubscribe (ctx : nat)
| GoWatchdog (ctx : nat)
| GoMute (mute override : bool)
| GoSkipAd
| GoGetSegments (videoID : string)
| GoPlayVideo (videoID : string)
| GoSetAutoPlayMode (enabled : bool)
| GoGetNowPlaying.

(** The fields of [YtLoungeApi] that the session logic reads or writes.  A
    [context.CancelFunc] is the number of the context it cancels, [None]
    is [nil]. *)
Record YtLoungeApi := mkApi {
  volumeState : gmap string value;
  playbackSpeed : Z;
  subscribeTask : option nat;
  watchdogTask : option nat;
  callback : option (string → list value → outcome unit);
  shortsDisconnected : bool;
  autoPlay : bool;
  muteAds : bool;
  skipAds : bool
}.

Definition NewYtLoungeApi : YtLoungeApi :=
  mkApi ∅ 1000 None None None false false false false.

(** The object after [SetMuteAds], [SetSkipAds] and [SetAutoPlay]. *)
Definition configured (mute skip autoPlay : bool) : YtLoungeApi :=
  mkApi ∅ 1000 None None None false autoPlay mute skip.

Definition set_volumeState (v : gmap string value) (y : YtLoungeApi) :=
  mkApi v (playbackSpeed y) (subscribeTask y) (watchdogTask y) (callback y)
    (shortsDisconnected y) (autoPlay y) (muteAds y) (skipAds y).
Definition set_playbackSpeed (v : Z) (y : YtLoungeApi) :=
  mkApi (volumeState y) v (subscribeTask y) (watchdogTask y) (callback y)
    (shortsDisconnected y) (autoPlay y) (muteAds y) (skipAds y).
Definition set_subscribeTask (v : option nat) (y : YtLoungeApi) :=
  mkApi (volumeState y) (playbackSpeed y) v (watchdogTask y) (callback y)
    (shortsDisconnected y) (autoPlay y) (muteAds y) (skipAds y).
Definition set_watchdogTask (v : option nat) (y : YtLoungeApi) :=
  mkApi (volumeState y) (playbackSpeed y) (subscribeTask y) v (callback y)
    (shortsDisconnected y) (autoPlay y) (muteAds y) (skipAds y).
Definition set_callback (v : option (string → list value → outcome unit))
    (y : YtLoungeApi) :=
  mkApi (volumeState y) (playbackSpeed y) (subscribeTask y) (watchdogTask y) v
    (shortsDisconnected y) (autoPlay y) (muteAds y) (skipAds y).
Definition set_shortsDisconnected (v : bool) (y : YtLoungeApi) :=
  mkApi (volumeState y) (playbackSpeed y) (subscribeTask y) (watchdogTask y)
    (callback y) v (autoPlay y) (muteAds y) (skipAds y).

Definition SetMuteAds (mute : bool) (y : YtLoungeApi) :=
  mkApi (volumeState y) (playbackSpeed y) (subscribeTask y) (watchdogTask y)
    (callback y) (shortsDisconnected y) (autoPlay y) mute (skipAds y).
Definition SetSkipAds (skip : bool) (y : YtLoungeApi) :=
  mkApi (volumeState y) (playbackSpeed y) (subscribeTask y) (watchdogTask y)
    (callback y) (shortsDisconnected y) (autoPlay y) (muteAds y) skip.
Definition SetAutoPlay (autoPlay : bool) (y : YtLoungeApi) :=
  mkApi (volumeState y) (playbackSpeed y) (subscribeTask y) (watchdogTask y)
    (callback y) (shortsDisconnected y) autoPlay (muteAds y) (skipAds y).

(** The session object together with what lives outside it: the contexts
    cancelled so far, the number of the next context, and the goroutines
    started so far, oldest first. *)
Record World := mkWorld {
  api : YtLoungeApi;
  cancelled : gset nat;
  next_ctx : nat;
  spawned : list goroutine
}.

Definition initial_world (y : YtLoungeApi) : World := mkWorld y ∅ 0 [].

Definition with_api (f : YtLoungeApi → YtLoungeApi) (w : World) : World :=
  mkWorld (f (api w)) (cancelled w) (next_ctx w) (spawned w).

(** Calling a [CancelFunc]. *)
Definition cancel (ctx : nat) (w : World) : World :=
  mkWorld (api w) ({[ctx]} ∪ cancelled w) (next_ctx w) (spawned w).

(** Calling a [CancelFunc] field guarded by [if f != nil]. *)
Definition cancel_if_set (f : option nat) (w : World) : World :=
  match f with Some ctx => cancel ctx w | None => w end.

(** [context.WithCancel]: the new context, and the world after it. *)
Definition WithCancel (w : World) : nat * World :=
  (next_ctx w, mkWorld (api w) (cancelled w) (S (next_ctx w)) (spawned w)).

(** [go g] *)
Definition go (g : goroutine) (w : World) : World :=
  mkWorld (api w) (cancelled w) (next_ctx w) (spawned w ++ [g]).

Definition SubscribeMonitored (w : World)
    (cb : string → list value → outcome unit) : World :=
  let w := with_api (set_callback (Some cb)) w in
  let w := cancel_if_set (watchdogTask (api w)) w in
  let w := cancel_if_set (subscribeTask (api w)) w in
  let '(subCtx, w) := WithCancel w in
  let w := with_api (set_subscribeTask (Some subCtx)) w in
  let w := go (GoSubscribe subCtx) w in
  let '(watchCtx, w) := WithCancel w in
  let w := with_api (set_watchdogTask (Some watchCtx)) w in
  go (GoWatchdog watchCtx) w.

(** One firing of the 35 second ticker in the goroutine [watchdog(ctx)].
    Once [ctx] is cancelled the goroutine has returned and its ticker is
    stopped. *)
Definition watchdog_tick (ctx : nat) (w : World) : World :=
  if decide (ctx ∈ cancelled w) then w
  else match subscribeTask (api w) with
       | Some sub => with_api (set_subscribeTask None) (cancel sub w)
       | None => w
       end.

(** How the [switch] of [ProcessEvent] is left: by falling out of it, or
    by [return]. *)
Inductive flow :=
| Next (w : World)
| Return (w : World).

Section ProcessEvent.
(** [constants.YouTubeClientBlacklist], [json.Unmarshal] at the two types
    it is called at, and [strconv.ParseFloat]. *)
Context (YouTubeClientBlacklist : list string).
Context (unmarshal_devices : string → option (list (gmap string value))).
Context (unmarshal_info : string → option (gmap string value)).
Context (ParseFloat : string → option Z).

(** The branch shared by "onAdStateChange" and "adPlaying". *)
Definition skip_or_mute (data : gmap string value) (w : World) : World :=
  if skipAds (api w) && is_str (index data "isSkipEnabled") "true"
  then go (GoMute false true) (go GoSkipAd w)
  else if muteAds (api w) then go (GoMute true true) w
  else w.

(** Does the body of the loop over [devicesData] reach "Force disconnect"
    for this device? *)
Definition blacklisted_screen (device : gmap string value) : bool :=
  if is_str (index device "type") "LOUNGE_SCREEN" then
    match as_string (index device "deviceInfo") with
    | Some deviceInfo =>
        match unmarshal_info deviceInfo with
        | Some info =>
            match as_string (index info "clientName") with
            | Some clientName =>
                existsb (λ blacklisted, String.eqb clientName blacklisted)
                  YouTubeClientBlacklist
            | None => false
            end
        | None => false
        end
    | None => false
    end
  else false.

(** Does the event reach "Force disconnect"? *)
Definition force_disconnect (data : value) : bool :=
  match as_map data with
  | Some data =>
      match as_string (index data "devices") with
      | Some devices =>
          match unmarshal_devices devices with
          | Some devicesData => existsb blacklisted_screen devicesData
          | None => false
          end
      | None => false
      end
  | None => false
  end.

Definition ProcessEvent_switch (w : World) (eventType : string)
    (args : list value) : outcome flow :=
  if String.eqb eventType "onStateChange" then
    match arg0 args with
    | Panicked p => Panicked p
    | Returned a =>
        match as_map a with
        | Some data =>
            if muteAds (api w) && is_str (index data "state") "1"
            then Returned (Next (go (GoMute false true) w))
            else Returned (Next w)
        | None => Returned (Next w)
        end
    end
  else if String.eqb eventType "nowPlaying" then
    match arg0 args with
    | Panicked p => Panicked p
    | Returned a =>
        match as_map a with
        | Some data =>
            if muteAds (api w) && is_str (index data "state") "1"
            then Returned (Next (go (GoMute false true) w))
            else Returned (Next w)
        | None => Returned (Next w)
        end
    end
  else if String.eqb eventType "onAdStateChange" then
    match arg0 args with
    | Panicked p => Panicked p
    | Returned a =>
        match as_map a with
        | Some data =>
            if is_str (index data "adState") "0"
            then Returned (Next (go (GoMute false true) w))
            else Returned (Next (skip_or_mute data w))
        | None => Returned (Next w)
        end
    end
  else if String.eqb eventType "onVolumeChanged" then
    match args with
    | a :: _ =>
        match a with
        | VMap m => Returned (Next (with_api (set_volumeState m) w))
        | _ => Panicked TypeAssertion
        end
    | [] => Returned (Next w)
    end
  else if String.eqb eventType "autoplayUpNext" then
    match args with
    | a :: _ =>
        match as_map a with
        | Some data =>
            match as_string (index data "videoId") with
            | Some videoID =>
                if negb (String.eqb videoID "")
                then Returned (Next (go (GoGetSegments videoID) w))
                else Returned (Next w)
            | None => Returned (Next w)
            end
        | None => Returned (Next w)
        end
    | [] => Returned (Next w)
    end
  else if String.eqb eventType "adPlaying" then
    match arg0 args with
    | Panicked p => Panicked p
    | Returned a =>
        match as_map a with
        | Some data =>
            let w :=
              match as_string (index data "contentVideoId") with
              | Some videoID =>
                  if negb (String.eqb videoID "")
                  then go (GoGetSegments videoID) w else w
              | None => w
              end in
            Returned (Next (skip_or_mute data w))
        | None => Returned (Next w)
        end
    end
  else if String.eqb eventType "loungeStatus" then
    match arg0 args with
    | Panicked p => Panicked p
    | Returned a =>
        if force_disconnect a then
          match subscribeTask (api w) with
          | Some sub => Returned (Return (cancel sub w))
          | None => Panicked NilFuncCall
          end
        else Returned (Next w)
    end
  else if String.eqb eventType "onSubtitlesTrackChanged" then
    if shortsDisconnected (api w) then
      match arg0 args with
      | Panicked p => Panicked p
      | Returned a =>
          match as_map a with
          | Some data =>
              match as_string (index data "videoId") with
              | Some videoID =>
                  Returned (Next (go (GoPlayVideo videoID)
                                    (with_api (set_shortsDisconnected false) w)))
              | None => Returned (Next w)
              end
          | None => Returned (Next w)
          end
      end
    else Returned (Next w)
  else if String.eqb eventType "loungeScreenDisconnected" then
    match args with
    | a :: _ =>
        match as_map a with
        | Some data =>
            if is_str (index data "reason") "disconnectedByUserScreenInitiated"
            then Returned (Next (with_api (set_shortsDisconnected true) w))
            else Returned (Next w)
        | None => Returned (Next w)
        end
    | [] => Returned (Next w)
    end
  else if String.eqb eventType "onAutoplayModeChanged" then
    Returned (Next (go (GoSetAutoPlayMode (autoPlay (api w))) w))
  else if String.eqb eventType "onPlaybackSpeedChanged" then
    match arg0 args with
    | Panicked p => Panicked p
    | Returned a =>
        match as_map a with
        | Some data =>
            let w :=
              match as_string (index data "playbackSpeed") with
              | Some speed =>
                  match ParseFloat speed with
                  | Some parsedSpeed => with_api (set_playbackSpeed parsedSpeed) w
                  | None => w
                  end
              | None => w
              end in
            Returned (Next (go GoGetNowPlaying w))
        | None => Returned (Next w)
        end
    end
  else Returned (Next w).

Definition ProcessEvent (w : World) (eventType : string) (args : list value)
    : outcome World :=
  (* Restart watchdog *)
  let w := cancel_if_set (watchdogTask (api w)) w in
  match ProcessEvent_switch w eventType args with
  | Panicked p => Panicked p
  | Returned (Return w) => Returned w
  | Returned (Next w) =>
      match callback (api w) with
      | Some cb =>
          match cb eventType args with
          | Returned _ => Returned w
          | Panicked p => Panicked p
          end
      | None => Returned w
      end
  end.

(** The [switch] of the unexported [handleEvent] of the same type: every
    case checks [len(args) > 0] and asserts types in the two-result form,
    so it has no panic of its own. *)
Definition handleEvent_switch (w : World) (event : string)
    (args : list value) : World :=
  match args with
  | [] =>
      if String.eqb event "onSubtitlesTrackChanged"
         || String.eqb event "loungeScreenDisconnected"
      then with_api (set_shortsDisconnected true) w
      else w
  | a :: _ =>
      if String.eqb event "nowPlaying" then
        match as_map a with
        | Some data =>
            let w :=
              match as_string (index data "videoId") with
              | Some videoID =>
                  if negb (String.eqb videoID "")
                  then go (GoGetSegments videoID) w else w
              | None => w
              end in
            if muteAds (api w) && is_str (index data "state") "1"
            then go (GoMute false true) w else w
        | None => w
        end
      else if String.eqb event "onStateChange" then
        match as_map a with
        | Some data =>
            match as_string (index data "state") with
            | Some state =>
                if String.eqb state "3" && shortsDisconnected (api w)
                then go GoGetNowPlaying (with_api (set_shortsDisconnected false) w)
                else if String.eqb state "1" && muteAds (api w)
                then go (GoMute true true) w
                else w
            | None => w
            end
        | None => w
        end
      else if String.eqb event "onAdStateChange" then
        match as_map a with
        | Some data =>
            match as_string (index data "adState") with
            | Some adState =>
                if String.eqb adState "0" then go (GoMute false true) w
                else if skipAds (api w) then
                  match as_string (index data "isSkipEnabled") with
                  | Some isSkipEnabled =>
                      if String.eqb isSkipEnabled "true"
                      then go (GoMute false true) (go GoSkipAd w) else w
                  | None => w
                  end
                else if muteAds (api w) then go (GoMute true true) w
                else w
            | None => w
            end
        | None => w
        end
      else if String.eqb event "onVolumeChanged" then
        match as_map a with
        | Some data => with_api (set_volumeState data) w
        | None => w
        end
      else if String.eqb event "onSubtitlesTrackChanged"
              || String.eqb event "loungeScreenDisconnected" then
        with_api (set_shortsDisconnected true) w
      else if String.eqb event "onAutoplayModeChanged" then
        match as_map a with
        | Some data =>
            match as_string (index data "autoplayMode") with
            | Some enabled => with_api (SetAutoPlay (String.eqb enabled "true")) w
            | None => w
            end
        | None => w
        end
      else if String.eqb event "onPlaybackSpeedChanged" then
        match as_map a with
        | Some data =>
            match as_string (index data "playbackRate") with
            | Some speed =>
                match ParseFloat speed with
                | Some parsedSpeed => with_api (set_playbackSpeed parsedSpeed) w
                | None => w
                end
            | None => w
            end
        | None => w
        end
      else w
  end.

Definition handleEvent (w : World) (event : string) (args : list value)
    : outcome World :=
  let w := handleEvent_switch w event args in
  match callback (api w) with
  | Some cb =>
      match cb event args with
      | Returned _ => Returned w
      | Panicked p => Panicked p
      end
  | None => Returned w
  end.

End ProcessEvent.

(** A watchdog goroutine is live when its context is not cancelled. *)
Definition live_watchdogs (w : World) : list nat :=
  omap (λ g, match g with
             | GoWatchdog ctx => if decide (ctx ∈ cancelled w) then None else Some ctx
             | _ => None
             end) (spawned w).

(** The subscriptions started so far. *)
Definition subscriptions (w : World) : list nat :=
  omap (λ g, match g with GoSubscribe ctx => Some ctx | _ => None end) (spawned w).

Definition other_goroutine (g : goroutine) : Prop :=
  match g with
  | GoSubscribe _ | GoWatchdog _ => False
  | _ => True
  end.

(** What an event can change: it starts goroutines other than
    subscriptions and watchdogs, and it may cancel contexts. *)
Definition event_step (w w' : World) : Prop :=
  watchdogTask (api w') = watchdogTask (api w) ∧
  subscribeTask (api w') = subscribeTask (api w) ∧
  cancelled w ⊆ cancelled w' ∧
  ∃ gs, spawned w' = spawned w ++ gs ∧ Forall other_goroutine gs.

(** [types.YouTubeClientBlacklist] *)
Definition YouTubeClientBlacklist : list string := ["TVHTML5_FOR_KIDS"].

(** A lounge status naming one screen of the blacklisted client: the two
    JSON texts are abbreviated to [devices] and [info], and the decoders
    below decode exactly these. *)
Definition kids_status : list value :=
  [VMap {["devices" := VStr "devices"]}].
Definition decode_devices (s : string) : option (list (gmap string value)) :=
  if String.eqb s "devices"
  then Some [ {["type" := VStr "LOUNGE_SCREEN"; "deviceInfo" := VStr "info"]} ]
  else None.
Definition decode_info (s : string) : option (gmap string value) :=
  if String.eqb s "info"
  then Some {["clientName" := VStr "TVHTML5_FOR_KIDS"]}
  else None.
Definition no_float (s : string) : option Z := None.

(** A callback that returns. *)
Definition quiet (eventType : string) (args : list value) : outcome unit :=
  Returned ().

End Lounge.

(** ** cmd/iSponsorBlockTV/main.go: the device listener *)

Module Listener.
Import Merge.
Export Lounge(value, VNil, VBool, VNum, VStr, VMap, VArr,
              panic, IndexOutOfRange, TypeAssertion, NilFuncCall,
              outcome, Returned, Panicked, arg0, as_map, as_string, index).

Inductive PlaybackStateType :=
| StateUnknown
| StatePlaying
| StatePaused
| StateBuffering.

Record PlaybackState := mkPlaybackState {
  VideoID : string;
  CurrentTime : Z;
  State : PlaybackStateType
}.

Record Device := mkDevice {
  Name : string;
  Offset : Z;
  ScreenID : string
}.

(** [Task]: its context; [cancel] cancels that context. *)
Record Task := mkTask { ctx : nat }.

Record DeviceListener := mkDeviceListener {
  device : Device;
  debug : bool;
  task : option Task;
  cancelled : bool
}.

(** *** timeToSegment and skip *)

Definition isWithinStartRange (position : Z) (segment : Segment) : bool :=
  (position <? second) && (End_ segment >? second)
  && (Start segment <=? position) && (position <? End_ segment).

Definition isBeyondCurrentPosition (position : Z) (segment : Segment) : bool :=
  Start segment >? position.

(** The loop of [timeToSegment]: [nextSegment] and [startNextSegment], or
    [None] when [nextSegment] stays [nil]. *)
Fixpoint next_segment (segments : list Segment) (position : Z)
    : option (Segment * Z) :=
  match segments with
  | [] => None
  | segment :: rest =>
      if isWithinStartRange position segment
         || isBeyondCurrentPosition position segment
      then Some (segment,
                 if isWithinStartRange position segment
                 then position else Start segment)
      else next_segment rest position
  end.

(** What the goroutines of the listener do to the outside: the sleep,
    the lines logged, the call of [MarkViewedSegments] and its return
    ([err] tells whether the error returned is not [nil]), and a command
    sent to the device. *)
Inductive event :=
| Sleep (timeTo : Z)
| Infof (format : string) (arg : Z)
| Errorf (format : string)
| MarkViewedSegments (uuids : list string)
| MarkViewedSegments_returns (err : bool)
| SendCommand (command : gmap string value).

(** A call [d.skip(timeTo, position, uuids)]. *)
Record skip_call := Skip {
  timeTo : Z;
  seek_position : Z;
  uuids : list string
}.

(** [skip] runs two goroutines, the one that called it and the one it
    starts for the report, which meet at the [sync.WaitGroup].  Each is at
    one of its statements: *)
Inductive skip_pc :=
| AtSleep      (* time.Sleep(...) *)
| AtInfof      (* d.logger.Infof("Skipping segment: seeking to %f", position) *)
| AtAdd        (* wg.Add(1) *)
| AtGo         (* go func() { ... }() *)
| AtWait       (* wg.Wait() *)
| SkipReturned.

Inductive report_pc :=
| NotStarted
| AtCall                 (* d.apiHelper.MarkViewedSegments(ctx, uuids) is called *)
| InCall                 (* ... and has not returned *)
| AtCheck (err : bool)   (* err != nil && d.debug *)
| AtDone                 (* the deferred wg.Done() *)
| Exited.

(** The state of a run of [skip]: the two statements, the counter of the
    [WaitGroup] and what has been done to the outside so far. *)
Record skip_state := SkipState {
  caller : skip_pc;
  report : report_pc;
  wg : Z;
  trace : list event
}.

Definition skip_start : skip_state := SkipState AtSleep NotStarted 0 [].

(** The step of the caller, if it has one: [wg.Wait()] blocks until the
    counter is zero. *)
Definition caller_step (c : skip_call) (s : skip_state) : option skip_state :=
  match caller s with
  | AtSleep =>
      Some (SkipState AtInfof (report s) (wg s) (trace s ++ [Sleep (timeTo c)]))
  | AtInfof =>
      Some (SkipState AtAdd (report s) (wg s)
              (trace s ++ [Infof "Skipping segment: seeking to %f" (seek_position c)]))
  | AtAdd => Some (SkipState AtGo (report s) (wg s + 1) (trace s))
  | AtGo => Some (SkipState AtWait AtCall (wg s) (trace s))
  | AtWait =>
      if wg s =? 0 then Some (SkipState SkipReturned (report s) (wg s) (trace s))
      else None
  | SkipReturned => None
  end.

(** The steps of the report: the call returns with an error or without
    one, as the collaborator decides; the error is logged when [d.debug]
    is set, and nothing else is done with it. *)
Definition report_steps (d : DeviceListener) (c : skip_call) (s : skip_state)
    : list skip_state :=
  match report s with
  | NotStarted => []
  | AtCall =>
      [SkipState (caller s) InCall (wg s) (trace s ++ [MarkViewedSegments (uuids c)])]
  | InCall =>
      (λ err, SkipState (caller s) (AtCheck err) (wg s)
                (trace s ++ [MarkViewedSegments_returns err])) <$> [false; true]
  | AtCheck err =>
      [SkipState (caller s) AtDone (wg s)
         (trace s ++ if err && debug d
                     then [Errorf "Error marking segments as viewed: %v"]
                     else [])]
  | AtDone => [SkipState (caller s) Exited (wg s - 1) (trace s)]
  | Exited => []
  end.

(** The states that one step of either goroutine leads to. *)
Definition skip (d : DeviceListener) (c : skip_call) (s : skip_state)
    : list skip_state :=
  option_list (caller_step c s) ++ report_steps d c s.

(** The states a run of [skip] passes through. *)
Definition skip_runs (d : DeviceListener) (c : skip_call) : skip_state → Prop :=
  rtc (λ s s', s' ∈ skip d c s) skip_start.

(** What a run of [skip] has done when the report has returned [err]. *)
Definition skip_trace (d : DeviceListener) (c : skip_call) (err : bool)
    : list event :=
  [Sleep (timeTo c);
   Infof "Skipping segment: seeking to %f" (seek_position c);
   MarkViewedSegments (uuids c);
   MarkViewedSegments_returns err]
  ++ if err && debug d then [Errorf "Error marking segments as viewed: %v"] else [].

(** What has been done when the report is started. *)
Definition skip_base (c : skip_call) : list event :=
  [Sleep (timeTo c); Infof "Skipping segment: seeking to %f" (seek_position c)].

(** What holds of the two goroutines, the counter and the trace at each
    pair of statements that a run reaches. *)
Definition skip_inv (d : DeviceListener) (c : skip_call) (s : skip_state) : Prop :=
  match caller s, report s with
  | AtSleep, NotStarted => wg s = 0 ∧ trace s = []
  | AtInfof, NotStarted => wg s = 0 ∧ trace s = [Sleep (timeTo c)]
  | AtAdd, NotStarted => wg s = 0 ∧ trace s = skip_base c
  | AtGo, NotStarted => wg s = 1 ∧ trace s = skip_base c
  | AtWait, AtCall => wg s = 1 ∧ trace s = skip_base c
  | AtWait, InCall =>
      wg s = 1 ∧ trace s = skip_base c ++ [MarkViewedSegments (uuids c)]
  | AtWait, AtCheck err =>
      wg s = 1 ∧
      trace s = skip_base c ++ [MarkViewedSegments (uuids c);
                                MarkViewedSegments_returns err]
  | AtWait, AtDone => wg s = 1 ∧ ∃ err, trace s = skip_trace d c err
  | AtWait, Exited | SkipReturned, Exited =>
      wg s = 0 ∧ ∃ err, trace s = skip_trace d c err
  | _, _ => False
  end.

(** [timeToSegment]: the call of [skip] it ends with, if any.  [since] is
    [time.Since(startTime).Seconds()], and [fsub] the [float64]
    subtraction. *)
Definition timeToSegment (fsub : Z → Z → Z) (d : DeviceListener)
    (segments : list Segment) (position : Z) (since : Z) : option skip_call :=
  match next_segment segments position with
  | Some (nextSegment, startNextSegment) =>
      let timeToNext :=
        fsub (fsub (fsub startNextSegment position) since) (Offset (device d)) in
      Some (Skip timeToNext (End_ nextSegment) (UUIDs nextSegment))
  | None => None
  end.

(** [processPlaybackState]: what it logs, and the call of [skip] it ends
    with, if any.  [GetSegments] is given by its result: the segments, or
    [None] for an error, which leaves [segments] empty. *)
Definition processPlaybackState (fsub : Z → Z → Z) (d : DeviceListener)
    (GetSegments : string → option (list Segment))
    (state : PlaybackState) (since : Z) : list event * option skip_call :=
  let fetched :=
    if negb (String.eqb (VideoID state) "")
    then GetSegments (VideoID state)
    else Some [] in
  let segments := default [] fetched in
  let logged :=
    if bool_decide (fetched = None) && debug d
    then [Errorf "Error getting segments: %v"] else [] in
  match State state with
  | StatePlaying =>
      (logged ++ [Infof "Playing video %s with %d segments"
                    (Z.of_nat (length segments))],
       if (0 <? Z.of_nat (length segments))
       then timeToSegment fsub d segments (CurrentTime state) since
       else None)
  | _ => (logged, None)
  end.

(** The commands sent to the device in a trace. *)
Definition commands_sent (tr : list event) : list (gmap string value) :=
  omap (λ e, match e with SendCommand c => Some c | _ => None end) tr.

(** *** The listener and its goroutines *)

(** [go d.processPlaybackState(state, startTime)]: the goroutine is given
    the state and the time, and no context. *)
Inductive goroutine :=
| GoProcessPlaybackState (state : PlaybackState) (startTime : Z).

(** The context a goroutine consults, if any. *)
Definition watches (g : goroutine) : option nat :=
  match g with
  | GoProcessPlaybackState _ _ => None
  end.

Record World := mkWorld {
  listener : DeviceListener;
  cancelled_ctx : gset nat;
  next_ctx : nat;
  goroutines : list goroutine
}.

Definition initial_world (dev : Device) (debug : bool) : World :=
  mkWorld (mkDeviceListener dev debug None false) ∅ 0 [].

Definition HandlePlaybackStateChange (w : World) (state : PlaybackState)
    (now : Z) : World :=
  let d := listener w in
  let cancelled_ctx :=
    match task d with
    | Some t => {[ctx t]} ∪ cancelled_ctx w
    | None => cancelled_ctx w
    end in
  let c := next_ctx w in
  mkWorld (mkDeviceListener (device d) (debug d) (Some (mkTask c)) (cancelled d))
    cancelled_ctx (S c)
    (goroutines w ++ [GoProcessPlaybackState state now]).

(** [handleEvent], the callback given to [SubscribeMonitored]. *)
Definition handleEvent (w : World) (eventType : string) (args : list value)
    (now : Z) : outcome World :=
  if String.eqb eventType "onStateChange" then
    match arg0 args with
    | Panicked p => Panicked p
    | Returned a =>
        match as_map a with
        | Some data =>
            match index data "videoId" with
            | VStr videoId =>
                let currentTime :=
                  match index data "currentTime" with
                  | VNum currentTime => currentTime
                  | _ => 0
                  end in
                Returned (HandlePlaybackStateChange w
                            (mkPlaybackState videoId currentTime StatePlaying) now)
            | _ => Panicked TypeAssertion
            end
        | None => Returned w
        end
    end
  else Returned w.

(** The goroutines that a cancellation has not stopped: those that
    consult no context, or one that is not cancelled. *)
Definition still_runs (w : World) (g : goroutine) : bool :=
  match watches g with
  | Some c => bool_decide (c ∉ cancelled_ctx w)
  | None => true
  end.

Definition pending (w : World) : list goroutine :=
  List.filter (still_runs w) (goroutines w).

(** *** The selection rule of the specification *)

(** "a segment spans that opening window" *)
Definition spans_opening_window (position : Z) (segment : Segment) : bool :=
  (Start segment <=? position) && (second <? End_ segment).

(** The three rules of the scheduler, in the order of the specification. *)
Definition spec_target (segments : list Segment) (position : Z)
    : option (Segment * Z) :=
  match (if position <? second
         then find (spans_opening_window position) segments else None) with
  | Some segment => Some (segment, position)
  | None =>
      match find (λ segment, position <? Start segment) segments with
      | Some segment => Some (segment, Start segment)
      | None => None
      end
  end.

(** Two playback states that arrive one after the other. *)
Definition first_state : PlaybackState := mkPlaybackState "video" 0 StatePlaying.
Definition later_state : PlaybackState := mkPlaybackState "video" 30000 StatePlaying.
Definition tv : Device := mkDevice "tv" 0 "screen".

End Listener.

(** ** Further views of the merge engine *)

Module MergeViews.
Import Merge.

(** What the inner loop over [j] does to the end [x] of the segment at
    [i], reading the others in the order [tbl]. *)
Definition chase_end (tbl : list typedSegment) (x : Z) : Z :=
  foldl (λ x b, if (Seg0 b <=? x) && (x <=? Seg1 b) then Seg1 b else x) x tbl.

(** The end loop, by recursion on the part [rest] of the slice that is
    still to be visited; [pre] is the part already visited. *)
Fixpoint ends_pass (pre rest : list typedSegment) : list typedSegment :=
  match rest with
  | [] => pre
  | a :: rest' =>
      ends_pass (pre ++ [setSeg1 a (chase_end (pre ++ rest) (Seg1 a))]) rest'
  end.

(** The time [y] is inside none of the records of [O], the end of a
    record being outside of it. *)
Definition outside (O : list typedSegment) (y : Z) : Prop :=
  ∀ b, b ∈ O → ¬ (Seg0 b ≤ y ∧ y < Seg1 b).

(** A record that no other record can extend to the right of [y]. *)
Definition settled_end (O : list typedSegment) (a : typedSegment) : Prop :=
  outside O (Seg1 a) ∧ ∀ y, outside O y → Seg0 a ≤ y → Seg1 a ≤ y.

(** The record [r] lies within the segment [g]. *)
Definition covers (g : Segment) (r : typedSegment) : Prop :=
  Start g ≤ Seg0 r ∧ Seg1 r ≤ End_ g.

(** The start and the end of [b] are the start of a record of [raws] and
    the end of a record of [raws]. *)
Definition bounds_from (raws : list typedSegment) (b : typedSegment) : Prop :=
  (∃ r, r ∈ raws ∧ Seg0 b = Seg0 r) ∧ (∃ r, r ∈ raws ∧ Seg1 b = Seg1 r).

Definition segment_bounds_from (raws : list typedSegment) (g : Segment) : Prop :=
  (∃ r, r ∈ raws ∧ Start g = Seg0 r) ∧ (∃ r, r ∈ raws ∧ End_ g = Seg1 r).

End MergeViews.

(** ** Sequences of calls on the cache *)

Module SegCacheRuns.
Import SegCache.

Section runs.
Context {V : Type}.

(** One call of a method of [Cache], with the time [time.Now()] returns
    during the call. *)
Inductive op :=
| OpGet (now : Z) (key : string)
| OpSet (now : Z) (key : string) (v : V)
| OpDelete (key : string)
| OpClear.

Definition apply_op (R : Range V) (c : Cache V) (o : op) : Cache V :=
  match o with
  | OpGet now key => (Get c now key).2
  | OpSet now key v => Set_ R c now key v
  | OpDelete key => Delete c key
  | OpClear => Clear c
  end.

Definition run (R : Range V) (c : Cache V) (ops : list op) : Cache V :=
  foldl (apply_op R) c ops.

(** The call happens after Go's zero time. *)
Definition after_zero_time (o : op) : Prop :=
  match o with
  | OpGet now _ | OpSet now _ _ => 0 < now
  | OpDelete _ | OpClear => True
  end.

End runs.

Arguments op : clear implicits.

End SegCacheRuns.

(** ** package ytlounge: commands, ad policy and the life of a session *)

Module LoungeSession.
Import Lounge.

(** The payloads handed to [client.SendCommand], one constructor for each
    value of the ["command"] key. *)
Inductive command :=
| CmdSetVolume (volume : Z) (muted : option string)
| CmdSetPlaylist (videoId : string)
| CmdGetNowPlaying
| CmdSkipAd
| CmdSetAutoplayMode (autoplayMode : bool).

(** [int(vol)] for a [float64] held in thousandths: the fraction is
    dropped. *)
Definition int (vol : Z) : Z := Z.quot vol 1000.

Definition muteStr (mute : bool) : string := if mute then "true" else "false".

Definition SetVolume (volume : Z) : command := CmdSetVolume volume None.

(** [Mute]: the session after the call and the command sent, if any. *)
Definition Mute (y : YtLoungeApi) (mute override : bool)
    : YtLoungeApi * option command :=
  if override || negb (is_str (index (volumeState y) "muted") (muteStr mute))
  then
    let vs := <["muted" := VStr (muteStr mute)]> (volumeState y) in
    let volume :=
      match index vs "volume" with
      | VNum vol => int vol
      | _ => 100
      end in
    (set_volumeState vs y, Some (CmdSetVolume volume (Some (muteStr mute))))
  else (y, None).

Definition PlayVideo (videoID : string) : command := CmdSetPlaylist videoID.
Definition GetNowPlaying : command := CmdGetNowPlaying.
Definition SkipAd : command := CmdSkipAd.
Definition SetAutoPlayMode (enabled : bool) : command := CmdSetAutoplayMode enabled.

(** What the event handlers may start, given the session [y] they are
    called on. *)
Definition follows_policy (y : YtLoungeApi) (g : goroutine) : Prop :=
  match g with
  | GoSubscribe _ | GoWatchdog _ => False
  | GoMute mute override => override = true ∧ (mute = true → muteAds y = true)
  | GoSkipAd => skipAds y = true
  | GoGetSegments videoID => videoID ≠ EmptyString
  | GoPlayVideo _ => shortsDisconnected y = true
  | GoSetAutoPlayMode enabled => enabled = autoPlay y
  | GoGetNowPlaying => True
  end.

Definition policy_step (w w' : World) : Prop :=
  muteAds (api w') = muteAds (api w) ∧
  skipAds (api w') = skipAds (api w) ∧
  ∃ gs, spawned w' = spawned w ++ gs ∧
        Forall (follows_policy (api w)) gs ∧
        (GoSkipAd ∈ gs → GoMute false true ∈ gs).

(** The contexts of the subscriptions and watchdogs started so far. *)
Definition contexts (w : World) : list nat :=
  omap (λ g, match g with
             | GoSubscribe ctx | GoWatchdog ctx => Some ctx
             | _ => None
             end) (spawned w).

(** A subscription is live when its context is not cancelled. *)
Definition live_subscriptions (w : World) : list nat :=
  omap (λ g, match g with
             | GoSubscribe ctx => if decide (ctx ∈ cancelled w) then None else Some ctx
             | _ => None
             end) (spawned w).

Section session.
Context (YouTubeClientBlacklist : list string).
Context (unmarshal_devices : string → option (list (gmap string value))).
Context (unmarshal_info : string → option (gmap string value)).
Context (ParseFloat : string → option Z).

(** What can happen to a session: the exported calls, a firing of the
    ticker of a watchdog that was started, and an event that the handler
    returns from. *)
Inductive session_step : World → World → Prop :=
| step_SetMuteAds w mute :
    session_step w (with_api (SetMuteAds mute) w)
| step_SetSkipAds w skip :
    session_step w (with_api (SetSkipAds skip) w)
| step_SetAutoPlay w autoPlay :
    session_step w (with_api (SetAutoPlay autoPlay) w)
| step_SubscribeMonitored w cb :
    session_step w (SubscribeMonitored w cb)
| step_watchdog w ctx :
    GoWatchdog ctx ∈ spawned w →
    session_step w (watchdog_tick ctx w)
| step_ProcessEvent w eventType args w' :
    ProcessEvent YouTubeClientBlacklist unmarshal_devices unmarshal_info
      ParseFloat w eventType args = Returned w' →
    session_step w w'
| step_handleEvent w event args w' :
    handleEvent ParseFloat w event args = Returned w' →
    session_step w w'.

Definition reachable (w : World) : Prop :=
  rtc session_step (initial_world NewYtLoungeApi) w.

End session.

(** What the steps of a session keep. *)
Definition session_inv (w : World) : Prop :=
  (∀ c, c ∈ contexts w → (c < next_ctx w)%nat) ∧
  NoDup (contexts w) ∧
  (∀ c, c ∈ live_watchdogs w → watchdogTask (api w) = Some c) ∧
  (∀ c, c ∈ live_subscriptions w → subscribeTask (api w) = Some c).

(** An ad that can be skipped while skipping is on. *)
Definition skippable_ad : list value :=
  [VMap {["adState" := VStr "1"; "isSkipEnabled" := VStr "true"]}].

End LoungeSession.

(** ** internal/pkg/api/api_helpers.go: [ApiHelper], the first helper *)

Module ApiHelper.
Import Merge.

(** [SponsorSegment] has the three fields of [Segment]: [Start], [End]
    and [UUIDs]. *)
Definition SponsorSegment : Type := Segment.

Section float_sub.
(** The [float64] subtraction of the test
    [segment[0].(float64)-lastSeg.End < 1.0]. *)
Context (fsub : Z → Z → Z).

(** Body of the loop "Process segments" of [ApiHelper.processSegments];
    the accumulator is the slice [segments] together with [ignoreTTL]. *)
Definition merge_step (acc : list SponsorSegment * bool) (rawSeg : typedSegment)
    : list SponsorSegment * bool :=
  let ignoreTTL := acc.2 && (Locked rawSeg =? 1) in
  match last acc.1 with
  | Some lastSeg =>
      if fsub (Seg0 rawSeg) (End_ lastSeg) <? second
      then (removelast acc.1 ++
              [mkSegment (Start lastSeg) (Seg1 rawSeg)
                 (UUIDs lastSeg ++ [UUID rawSeg])],
            ignoreTTL)
      else (acc.1 ++ [mkSegment (Seg0 rawSeg) (Seg1 rawSeg) [UUID rawSeg]],
            ignoreTTL)
  | None => (acc.1 ++ [mkSegment (Seg0 rawSeg) (Seg1 rawSeg) [UUID rawSeg]],
             ignoreTTL)
  end.

(** [ApiHelper.processSegments] once [response["segments"]] has been
    decoded: one sort by end, one pass. *)
Definition processSegments (rawSegments : list typedSegment)
    : list SponsorSegment * bool :=
  foldl merge_step ([], true) (sort_Slice less_end rawSegments).

(** The same with any function that may stand for the call of
    [sort.Slice]. *)
Definition processSegments_with
    (sort_by_end : list typedSegment → list typedSegment)
    (rawSegments : list typedSegment) : list SponsorSegment * bool :=
  foldl merge_step ([], true) (sort_by_end rawSegments).

(** The loop on the slice held last element first. *)
Definition merge_push (rs : list SponsorSegment) (s : typedSegment)
    : list SponsorSegment :=
  match rs with
  | l :: rs' =>
      if fsub (Seg0 s) (End_ l) <? second
      then mkSegment (Start l) (Seg1 s) (UUIDs l ++ [UUID s]) :: rs'
      else mkSegment (Seg0 s) (Seg1 s) [UUID s] :: rs
  | [] => [mkSegment (Seg0 s) (Seg1 s) [UUID s]]
  end.

End float_sub.

Section MarkViewedSegments.
(** The server and the network, as a state [W] that a request changes;
    [Do w uuid] is the request for [uuid], whose second component tells
    whether [httpClient.Do] returned an error. *)
Context {W : Type} (Do : W → string → W * bool).

(** The loop of [MarkViewedSegments] (it is the same in [ApiHelper] and in
    [APIHelper]): the state after it, the ids requested, in order, and
    whether an error is returned. *)
Fixpoint post_each (w : W) (uuids : list string) : W * list string * bool :=
  match uuids with
  | [] => (w, [], false)
  | uuid :: rest =>
      let '(w, failed) := Do w uuid in
      if failed then (w, [uuid], true)
      else let '(w, requested, err) := post_each w rest in
           (w, uuid :: requested, err)
  end.

Definition MarkViewedSegments (SkipCountTracking : bool) (w : W)
    (uuids : list string) : W * list string * bool :=
  if negb SkipCountTracking then (w, [], false) else post_each w uuids.

End MarkViewedSegments.

End ApiHelper.

(** ** cmd/iSponsorBlockTV/main.go: the loop of the listener *)

Module ListenerLoop.
Import Lounge.

(** The body of the loop of [DeviceListener.Loop], run while the listener
    is not cancelled and its context is not done: it subscribes, then
    waits ten seconds.  [Loop cb n w] is the session after [n] passes on
    which no event arrives; [cb] is [d.handleEvent]. *)
Definition Loop (cb : string → list value → outcome unit) (n : nat)
    (w : World) : World :=
  Nat.iter n (λ w, SubscribeMonitored w cb) w.

End ListenerLoop.

(** ** package setup: the model of the configuration screen *)

Module Setup.

(** The fields of [config.Config] that the screen reads or writes. *)
Record Config := mkConfig {
  SkipCategories : list string;
  SkipCountTracking : bool;
  MuteAds : bool;
  SkipAds : bool;
  AutoPlay : bool
}.

(** [Model] without its pointer [config]: the [Config] it points to is
    shared with the caller and is passed along with the model. *)
Record Model := mkModel {
  currentTab : Z;
  tabs : list string;
  width : Z;
  height : Z;
  skipCategories : gmap string bool;
  skipCountTracking : bool;
  muteAds : bool;
  skipAds : bool;
  autoplay : bool
}.

Definition InitialModel (cfg : Config) : Model :=
  let skipCats :=
    foldl (λ (m : gmap string bool) cat, <[cat := true]> m) ∅
      (SkipCategories cfg) in
  mkModel 0
    ["Devices"; "Skip Categories"; "Skip Count Tracking"; "Skip/Mute ads";
     "Channel Whitelist"; "YouTube API Key"; "Autoplay"]
    0 0 skipCats (SkipCountTracking cfg) (MuteAds cfg) (SkipAds cfg)
    (AutoPlay cfg).

(** The order in which [range m.skipCategories] visits the map. *)
Record MapRange := mkMapRange {
  map_range : gmap string bool → list (string * bool);
  map_range_perm : ∀ m, map_range m ≡ₚ map_to_list m
}.

Definition saveConfig (R : MapRange) (m : Model) (cfg : Config) : Config :=
  mkConfig
    (foldl (λ cats '(cat, selected),
              if (selected : bool) then cats ++ [cat] else cats)
       [] (map_range R (skipCategories m)))
    (skipCountTracking m) (muteAds m) (skipAds m) (autoplay m).

Inductive Msg :=
| KeyMsg (key : string)
| WindowSizeMsg (Width Height : Z)
| OtherMsg.

Inductive Cmd := Quit.

Definition set_currentTab (v : Z) (m : Model) : Model :=
  mkModel v (tabs m) (width m) (height m) (skipCategories m)
    (skipCountTracking m) (muteAds m) (skipAds m) (autoplay m).

Definition is_key (key : string) (keys : list string) : bool :=
  existsb (String.eqb key) keys.

(** [Update]: the model, the shared configuration and the command
    returned; [None] is the panic of an integer division by zero. *)
Definition Update (R : MapRange) (m : Model) (cfg : Config) (msg : Msg)
    : option (Model * Config * option Cmd) :=
  match msg with
  | KeyMsg key =>
      if is_key key ["ctrl+c"; "q"] then Some (m, cfg, Some Quit)
      else if is_key key ["tab"; "right"; "l"] then
        if Z.of_nat (length (tabs m)) =? 0 then None
        else Some (set_currentTab
                     (Z.rem (currentTab m + 1) (Z.of_nat (length (tabs m)))) m,
                   cfg, None)
      else if is_key key ["shift+tab"; "left"; "h"] then
        if Z.of_nat (length (tabs m)) =? 0 then None
        else Some (set_currentTab
                     (Z.rem (currentTab m - 1 + Z.of_nat (length (tabs m)))
                        (Z.of_nat (length (tabs m)))) m,
                   cfg, None)
      else if is_key key ["s"] then Some (m, saveConfig R m cfg, None)
      else Some (m, cfg, None)
  | WindowSizeMsg Width Height =>
      Some (mkModel (currentTab m) (tabs m) Width Height (skipCategories m)
              (skipCountTracking m) (muteAds m) (skipAds m) (autoplay m),
            cfg, None)
  | OtherMsg => Some (m, cfg, None)
  end.

(** The messages [msgs] handled one after the other. *)
Fixpoint run (R : MapRange) (m : Model) (cfg : Config) (msgs : list Msg)
    : option (Model * Config) :=
  match msgs with
  | [] => Some (m, cfg)
  | msg :: msgs =>
      match Update R m cfg msg with
      | Some (m, cfg, _) => run R m cfg msgs
      | None => None
      end
  end.

(** What every message keeps, for the screen opened on [cfg0]. *)
Definition screen_inv (cfg0 : Config) (m : Model) (cfg : Config) : Prop :=
  tabs m = tabs (InitialModel cfg0) ∧
  0 ≤ currentTab m < 7 ∧
  skipCategories m = skipCategories (InitialModel cfg0) ∧
  skipCountTracking m = SkipCountTracking cfg0 ∧
  muteAds m = MuteAds cfg0 ∧ skipAds m = SkipAds cfg0 ∧
  autoplay m = AutoPlay cfg0 ∧
  SkipCountTracking cfg = SkipCountTracking cfg0 ∧
  MuteAds cfg = MuteAds cfg0 ∧ SkipAds cfg = SkipAds cfg0 ∧
  AutoPlay cfg = AutoPlay cfg0 ∧
  (∀ c, c ∈ SkipCategories cfg ↔ c ∈ SkipCategories cfg0).

Definition map_to_list_range : MapRange :=
  mkMapRange map_to_list (λ m, reflexivity (map_to_list m)).

End Setup.

(** ** internal/pkg/types/types.go: the table of skip categories *)

Module Types.

Record SkipCategory := mkSkipCategory {
  Name : string;
  ID : string
}.

Definition SkipCategories : list SkipCategory :=
  [mkSkipCategory "Sponsor" "sponsor";
   mkSkipCategory "Self Promotion" "selfpromo";
   mkSkipCategory "Intro" "intro";
   mkSkipCategory "Outro" "outro";
   mkSkipCategory "Music Offtopic" "music_offtopic";
   mkSkipCategory "Interaction" "interaction";
   mkSkipCategory "Exclusive Access" "exclusive_access";
   mkSkipCategory "POI Highlight" "poi_highlight";
   mkSkipCategory "Preview" "preview";
   mkSkipCategory "Filler" "filler"].

Definition GetSkipCategoryIDs : list string := ID <$> SkipCategories.

(** The two lookups; [None] is the result [(SkipCategory{}, false)]. *)
Definition GetSkipCategoryByID (id : string) : option SkipCategory :=
  find (λ category, String.eqb (ID category) id) SkipCategories.

Definition GetSkipCategoryByName (name : string) : option SkipCategory :=
  find (λ category, String.eqb (Name category) name) SkipCategories.

End Types.

(** ** package device: the device manager *)

Module DeviceRegistry.

(** [Device]; the fields [Capabilities] and [CustomData] are not read or
    written by the manager. *)
Record Device := mkDevice {
  ID : string;
  Name : string;
  Model : string;
  LastSeen : Z;
  IsConnected : bool
}.

(** The manager stores pointers: [heap] holds the devices that the
    pointers (numbers) point to, [devices] is the map of the manager. *)
Record DeviceManager := mkDeviceManager {
  heap : gmap nat Device;
  devices : gmap string nat
}.

Definition NewDeviceManager (heap : gmap nat Device) : DeviceManager :=
  mkDeviceManager heap ∅.

(** [RegisterDevice]; [None] is the panic on a pointer that points to no
    device. *)
Definition RegisterDevice (now : Z) (device : nat) (dm : DeviceManager)
    : option DeviceManager :=
  match heap dm !! device with
  | Some d =>
      Some (mkDeviceManager
              (<[device := mkDevice (ID d) (Name d) (Model d) now true]> (heap dm))
              (<[ID d := device]> (devices dm)))
  | None => None
  end.

Definition GetDevice (id : string) (dm : DeviceManager) : option nat :=
  devices dm !! id.

Definition UpdateDeviceStatus (now : Z) (id : string) (connected : bool)
    (dm : DeviceManager) : DeviceManager * bool :=
  match devices dm !! id with
  | Some device =>
      (mkDeviceManager
         (alter (λ d, mkDevice (ID d) (Name d) (Model d)
                        (if connected then now else LastSeen d) connected)
            device (heap dm))
         (devices dm), true)
  | None => (dm, false)
  end.

Definition RemoveDevice (id : string) (dm : DeviceManager)
    : DeviceManager * bool :=
  match devices dm !! id with
  | Some _ => (mkDeviceManager (heap dm) (delete id (devices dm)), true)
  | None => (dm, false)
  end.

(** The order in which [range dm.devices] visits the map. *)
Record MapRange := mkMapRange {
  map_range : gmap string nat → list (string * nat);
  map_range_perm : ∀ m, map_range m ≡ₚ map_to_list m
}.

Definition ListDevices (R : MapRange) (dm : DeviceManager) : list nat :=
  snd <$> map_range R (devices dm).

Definition is_connected (dm : DeviceManager) (device : nat) : bool :=
  match heap dm !! device with
  | Some d => IsConnected d
  | None => false
  end.

Definition GetConnectedDevices (R : MapRange) (dm : DeviceManager) : list nat :=
  List.filter (is_connected dm) (snd <$> map_range R (devices dm)).

(** One call on the manager. *)
Inductive call :=
| CallRegisterDevice (now : Z) (device : nat)
| CallUpdateDeviceStatus (now : Z) (id : string) (connected : bool)
| CallRemoveDevice (id : string).

Definition do_call (dm : DeviceManager) (c : call) : option DeviceManager :=
  match c with
  | CallRegisterDevice now device => RegisterDevice now device dm
  | CallUpdateDeviceStatus now id connected =>
      Some (UpdateDeviceStatus now id connected dm).1
  | CallRemoveDevice id => Some (RemoveDevice id dm).1
  end.

Fixpoint do_calls (dm : DeviceManager) (cs : list call) : option DeviceManager :=
  match cs with
  | [] => Some dm
  | c :: cs =>
      match do_call dm c with
      | Some dm => do_calls dm cs
      | None => None
      end
  end.

(** Every registered device is filed under its own [ID]. *)
Definition filed_by_id (dm : DeviceManager) : Prop :=
  ∀ id device, devices dm !! id = Some device →
    ∃ d, heap dm !! device = Some d ∧ ID d = id.

(** Two devices, for examples. *)
Definition two_devices : gmap nat Device :=
  {[ 1%nat := mkDevice "tv" "TV" "m1" 0 false;
     2%nat := mkDevice "box" "Box" "m2" 0 false ]}.

End DeviceRegistry.

(** ** internal/pkg/api/api_helpers.go: [APIHelper.GetSegments] *)

Module APIHelper.
Import Merge.

(** One record of [data["segments"]] as [json.Unmarshal] leaves it in
    [typedSegments[i]]: the numbers of its ["segment"] array, as many as
    the answer has, its [UUID] and its [Locked]. *)
Record decoded := Decoded {
  Segment_ : list Z;
  decoded_UUID : string;
  decoded_Locked : Z
}.

(** One entry of the decoded response: [item["videoID"]] when it is a
    string, and the records of [item["segments"]] when it is an array. *)
Record item := mkItem {
  videoID : option string;
  segments : option (list decoded)
}.

(** [Segment[0]] and [Segment[1]] of a record: the index is out of range
    when the record has fewer than two numbers. *)
Definition typed (r : decoded) : option typedSegment :=
  match Segment_ r with
  | s0 :: s1 :: _ => Some (TypedSegment s0 s1 (decoded_UUID r) (decoded_Locked r))
  | _ => None
  end.

(** The fields of [APIHelper] that [GetSegments] reads; [APIKey] is
    [cfg.YouTube.APIKey]. *)
Record APIHelper := mkAPIHelper {
  APIKey : string;
  channelWhitelist : list string
}.

Definition NewAPIHelper (APIKey : string) : APIHelper :=
  mkAPIHelper APIKey [].

(** The results [(segments, ignoreTTL, nil)] and [(nil, false, err)],
    and a run that panics on an index out of range. *)
Inductive result :=
| Ok (segments : list Segment) (ignoreTTL : bool)
| Err
| Panic.

(** The test [item["videoID"] == videoID] of the loop "Find matching
    video". *)
Definition matches (videoID0 : string) (i : item) : bool :=
  match videoID i with
  | Some v => String.eqb v videoID0
  | None => false
  end.

Section GetSegments.
(** The [float64] subtraction; [getChannelID], and the request to the
    server with the decoding of its answer; [None] is an error. *)
Context (fsub : Z → Z → Z).
Context (getChannelID : string → option string).
Context (fetch : string → option (list item)).

(** [APIHelper.processSegments] on [data["segments"]].  Without the array
    it returns the empty list.  With it, the loop "Extend ends" reads
    [Segment[0]] and [Segment[1]] of every record before anything is
    returned (and the sort before it reads [Segment[1]] of the records it
    compares), so the run panics when a record has fewer than two
    numbers, and is the merge of the records otherwise; a slice without
    records is never indexed. *)
Definition processSegments (data : option (list decoded)) : result :=
  match data with
  | None => Ok [] true
  | Some rawSegments =>
      match mapM typed rawSegments with
      | Some typedSegments =>
          let r := Merge.processSegments fsub typedSegments in Ok r.1 r.2
      | None => Panic
      end
  end.

Definition GetSegments (a : APIHelper) (videoID0 : string) : result :=
  let whitelisted :=
    if negb (String.eqb (APIKey a) "")
       && (0 <? Z.of_nat (length (channelWhitelist a)))
    then
      match getChannelID videoID0 with
      | None => None
      | Some channelID =>
          Some (existsb (λ whitelistedID, String.eqb whitelistedID channelID)
                  (channelWhitelist a))
      end
    else Some false in
  match whitelisted with
  | None => Err
  | Some true => Ok [] true
  | Some false =>
      match fetch videoID0 with
      | None => Err
      | Some response =>
          match find (matches videoID0) response with
          | None => Ok [] true
          | Some segmentsData => processSegments (segments segmentsData)
          end
      end
  end.

End GetSegments.

(** A server that knows one video, with the records of the example. *)
Definition example_server (videoID0 : string) : option (list item) :=
  Some [mkItem (Some "other") None;
        mkItem (Some "video")
          (Some [Decoded [0; 10000] "a" 0; Decoded [8000; 20000] "b" 1;
                 Decoded [25000; 30000] "c" 1])].

(** A server whose answer has a record with one number only. *)
Definition short_server (videoID0 : string) : option (list item) :=
  Some [mkItem (Some "video")
          (Some [Decoded [0; 10000] "a" 0; Decoded [8000] "b" 1])].

End APIHelper.

(** ** package cache: the cache with a list of recent use *)

Module LruCache.
Export Lounge(value, VNil, VBool, VNum, VStr, VMap, VArr,
              panic, IndexOutOfRange, TypeAssertion, NilFuncCall,
              outcome, Returned, Panicked).

(** [CacheEntry]: [value] is an [interface{}], [expiration] is [nil] or
    points to a time. *)
Record CacheEntry := mkCacheEntry {
  value_ : value;
  expiration : option Z
}.

(** [Cache].  A [*list.Element] is a number; [Value] gives the
    [*CacheEntry] that each element holds, [lruList] the elements of the
    list from front to back, and [next] the element that [PushFront]
    allocates next.  An element is of the list ([e.list == l]) when it
    occurs in [lruList]. *)
Record Cache := mkCache {
  capacity : Z;
  ttl : Z;
  items : gmap string nat;
  Value : nat → CacheEntry;
  lruList : list nat;
  next : nat
}.

Definition NewCache (capacity ttl : Z) : Cache :=
  mkCache capacity ttl ∅ (λ _, mkCacheEntry VNil None) [] 0.

(** [list.Remove], [list.MoveToFront] and [list.Back]; an element that is
    not of the list is left alone by the first two. *)
Fixpoint Remove (e : nat) (l : list nat) : list nat :=
  match l with
  | [] => []
  | x :: l' => if decide (x = e) then l' else x :: Remove e l'
  end.

Definition MoveToFront (e : nat) (l : list nat) : list nat :=
  if decide (e ∈ l) then e :: Remove e l else l.

Definition Back (l : list nat) : option nat := last l.

(** The test of [Get]: [entry.expiration] is not [nil] and the time it
    points to has passed. *)
Definition expired (now : Z) (entry : CacheEntry) : bool :=
  match expiration entry with
  | Some t => SegCache.After now t
  | None => false
  end.

Definition Delete (c : Cache) (key : string) : Cache :=
  match items c !! key with
  | Some element =>
      mkCache (capacity c) (ttl c) (delete key (items c)) (Value c)
        (Remove element (lruList c)) (next c)
  | None => c
  end.

Definition Get (c : Cache) (now : Z) (key : string) : option value * Cache :=
  match items c !! key with
  | Some element =>
      let entry := Value c element in
      if expired now entry then (None, Delete c key)
      else (Some (value_ entry),
            mkCache (capacity c) (ttl c) (items c) (Value c)
              (MoveToFront element (lruList c)) (next c))
  | None => (None, c)
  end.

(** [evict]: the element at the back leaves the list, and the key that
    is deleted from [items] is the [value] of the entry of that element,
    asserted to be a string with the one-result form [.value.(string)]. *)
Definition evict (c : Cache) : outcome Cache :=
  match Back (lruList c) with
  | Some element =>
      match value_ (Value c element) with
      | VStr key =>
          Returned (mkCache (capacity c) (ttl c) (delete key (items c)) (Value c)
                      (Remove element (lruList c)) (next c))
      | _ => Panicked TypeAssertion
      end
  | None => Returned c
  end.

(** [element.Value = entry] *)
Definition set_Value (element : nat) (entry : CacheEntry)
    (Value : nat → CacheEntry) : nat → CacheEntry :=
  λ e, if decide (e = element) then entry else Value e.

Definition Set_ (c : Cache) (now : Z) (key : string) (v : value)
    (ignoreTTL : bool) : outcome Cache :=
  let expiration :=
    if negb ignoreTTL && (0 <? ttl c) then Some (now + ttl c) else None in
  let entry := mkCacheEntry v expiration in
  match items c !! key with
  | Some element =>
      Returned (mkCache (capacity c) (ttl c) (items c)
                  (set_Value element entry (Value c))
                  (MoveToFront element (lruList c)) (next c))
  | None =>
      let element := next c in
      let c := mkCache (capacity c) (ttl c) (<[key := element]> (items c))
                 (set_Value element entry (Value c))
                 (element :: lruList c) (S element) in
      if (0 <? capacity c) && (capacity c <? Z.of_nat (length (lruList c)))
      then evict c else Returned c
  end.

Definition Clear (c : Cache) : Cache :=
  mkCache (capacity c) (ttl c) ∅ (Value c) [] (next c).

Definition Len (c : Cache) : Z := Z.of_nat (length (lruList c)).

(** The calls of a client, each at its time. *)
Inductive op :=
| OpGet (now : Z) (key : string)
| OpSet (now : Z) (key : string) (v : value) (ignoreTTL : bool)
| OpDelete (key : string)
| OpClear.

Definition apply_op (c : Cache) (o : op) : outcome Cache :=
  match o with
  | OpGet now key => Returned (Get c now key).2
  | OpSet now key v ignoreTTL => Set_ c now key v ignoreTTL
  | OpDelete key => Returned (Delete c key)
  | OpClear => Returned (Clear c)
  end.

Fixpoint run (c : Cache) (ops : list op) : outcome Cache :=
  match ops with
  | [] => Returned c
  | o :: ops' =>
      match apply_op c o with
      | Returned c' => run c' ops'
      | Panicked p => Panicked p
      end
  end.

(** What holds of the list and the map after any calls: no element is
    twice in the list, and the elements of the list and of the map have
    been allocated. *)
Definition lru_inv (c : Cache) : Prop :=
  NoDup (lruList c) ∧
  (∀ e, e ∈ lruList c → (e < next c)%nat) ∧
  (∀ k e, items c !! k = Some e → (e < next c)%nat) ∧
  (0 < capacity c → Len c ≤ capacity c).

(** A cache of two entries: [a] is set, then [b], then [a] is read and
    [c] is set; every value is the string [v] followed by its key. *)
Definition lru_scenario_before_c : outcome Cache :=
  run (NewCache 2 0)
    [OpSet 1000 "a" (VStr "va") true; OpSet 2000 "b" (VStr "vb") true;
     OpGet 3000 "a"].

Definition lru_scenario : outcome Cache :=
  run (NewCache 2 0)
    [OpSet 1000 "a" (VStr "va") true; OpSet 2000 "b" (VStr "vb") true;
     OpGet 3000 "a"; OpSet 4000 "c" (VStr "vc") true].

End LruCache.

(** * Facts *)

(** The exact subtraction is one of the subtractions the facts are about. *)
Lemma exact_sub_rounded : rounded_sub Z.sub.
Proof. split; intros; lia. Qed.

(** ** [sort.Slice] *)

Section sort_slice_facts.
Context {A : Type} (less : A → A → bool).

Lemma sift_perm (x : A) (rp : list A) : sift less x rp ≡ₚ x :: rp.
Proof.
  induction rp as [|y rp IH]; simpl; [done|].
  destruct (less x y); [|done].
  rewrite IH. apply Permutation_swap.
Qed.

Lemma foldl_sift_perm (l rp : list A) :
  foldl (λ rp x, sift less x rp) rp l ≡ₚ l ++ rp.
Proof.
  revert rp. induction l as [|x l IH]; intros rp; simpl; [done|].
  rewrite IH, sift_perm. by rewrite Permutation_middle.
Qed.

Lemma sort_Slice_perm (l : list A) : sort_Slice less l ≡ₚ l.
Proof.
  unfold sort_Slice. rewrite <- Permutation_rev, foldl_sift_perm.
  by rewrite app_nil_r.
Qed.

Lemma sort_Slice_length (l : list A) : length (sort_Slice less l) = length l.
Proof. apply Permutation_length, sort_Slice_perm. Qed.

Lemma StronglySorted_rev (R : relation A) (l : list A) :
  StronglySorted (flip R) l → StronglySorted R (rev l).
Proof.
  induction 1 as [|x l Hl IH Hx]; simpl; [constructor|].
  apply StronglySorted_app_2; [|done|repeat constructor].
  intros a b Ha Hb. apply list_elem_of_singleton in Hb as ->.
  rewrite Forall_forall in Hx. apply Hx.
  by apply list_elem_of_In, in_rev, list_elem_of_In.
Qed.

Context (key : A → Z) (less_key : ∀ a b, less a b = (key a <? key b)).

Lemma sift_sorted (x : A) (rp : list A) :
  StronglySorted (λ a b, key b ≤ key a) rp →
  StronglySorted (λ a b, key b ≤ key a) (sift less x rp).
Proof.
  induction 1 as [|y rp Hrp IH Hy]; simpl; [repeat constructor|].
  rewrite less_key. destruct (Z.ltb_spec (key x) (key y)) as [Hlt|Hge].
  - constructor; [done|]. rewrite sift_perm. constructor; [lia|done].
  - constructor; [by constructor|]. constructor; [done|].
    eapply Forall_impl; [exact Hy|]. simpl. intros; lia.
Qed.

Lemma sort_Slice_sorted (l : list A) :
  StronglySorted (λ a b, key a ≤ key b) (sort_Slice less l).
Proof.
  unfold sort_Slice. apply StronglySorted_rev.
  assert (∀ rp, StronglySorted (λ a b, key b ≤ key a) rp →
    StronglySorted (λ a b, key b ≤ key a) (foldl (λ rp x, sift less x rp) rp l))
    as H; [|apply H; constructor].
  induction l as [|x l IH]; intros rp Hrp; simpl; [done|].
  by apply IH, sift_sorted.
Qed.

(** On a slice that is sorted already nothing is swapped. *)
Lemma sort_Slice_id (l : list A) :
  StronglySorted (λ a b, key a ≤ key b) l → sort_Slice less l = l.
Proof.
  intros Hl. unfold sort_Slice.
  assert (∀ rp, StronglySorted (λ a b, key a ≤ key b) (rev rp ++ l) →
    foldl (λ rp x, sift less x rp) rp l = rev l ++ rp) as H.
  { clear Hl. induction l as [|x l IH]; intros rp Hrp; simpl; [done|].
    assert (sift less x rp = x :: rp) as ->.
    { destruct rp as [|y rp]; simpl; [done|].
      rewrite less_key.
      destruct (Z.ltb_spec (key x) (key y)) as [Hlt|]; [|done].
      exfalso. apply StronglySorted_app in Hrp as (Hrel & _ & _).
      specialize (Hrel y x). simpl in Hrel.
      assert (key y ≤ key x); [|lia].
      apply Hrel; [rewrite elem_of_app, list_elem_of_singleton|left]; auto. }
    rewrite IH; [by rewrite <- app_assoc|].
    simpl. by rewrite <- app_assoc. }
  rewrite H; [|done]. by rewrite app_nil_r, rev_involutive.
Qed.

End sort_slice_facts.

(** ** Loops that update a slice in place *)

Section loops.
Context {A : Type} (step : list A → nat → nat → list A).

Lemma nested_loops_rel (R : relation A) `{!PreOrder R} (idx1 idx2 : list nat) :
  (∀ ts i j, Forall2 R ts (step ts i j)) →
  ∀ ts, Forall2 R ts (foldl (λ ts i, foldl (λ ts j, step ts i j) ts idx2) ts idx1).
Proof.
  intros Hstep.
  assert (∀ i idx ts, Forall2 R ts (foldl (λ ts j, step ts i j) ts idx)) as Hin.
  { intros i idx. induction idx as [|j idx IH]; intros ts; simpl; [done|].
    etrans; [apply (Hstep ts i j)|apply IH]. }
  induction idx1 as [|i idx1 IH]; intros ts; simpl; [done|].
  etrans; [apply Hin|apply IH].
Qed.

Lemma nested_loops_id (idx1 idx2 : list nat) (ts : list A) :
  (∀ i j, step ts i j = ts) →
  foldl (λ ts i, foldl (λ ts j, step ts i j) ts idx2) ts idx1 = ts.
Proof.
  intros Hstep.
  assert (∀ i idx, foldl (λ ts j, step ts i j) ts idx = ts) as Hin.
  { intros i idx. induction idx as [|j idx IH]; simpl; [done|].
    by rewrite Hstep. }
  induction idx1 as [|i idx1 IH]; simpl; [done|]. by rewrite Hin.
Qed.

End loops.

Lemma omap_lookup_seq_app {A : Type} (pre l : list A) :
  omap (λ j, (pre ++ l) !! j) (seq (length pre) (length l)) = l.
Proof.
  revert pre. induction l as [|x l IH]; intros pre; simpl; [done|].
  rewrite list_lookup_middle by done. f_equal.
  specialize (IH (pre ++ [x])).
  rewrite <- app_assoc, length_app, Nat.add_1_r in IH. exact IH.
Qed.

Lemma omap_lookup_seq {A : Type} (l : list A) :
  omap (λ j, l !! j) (seq 0 (length l)) = l.
Proof. apply (omap_lookup_seq_app [] l). Qed.

Lemma omap_rev {A B : Type} (f : A → option B) (l : list A) :
  omap f (rev l) = rev (omap f l).
Proof.
  induction l as [|x l IH]; simpl; [done|].
  rewrite omap_app, IH. simpl. destruct (f x); simpl; by rewrite ?app_nil_r.
Qed.

(** ** The merge engine *)

Module MergeFacts.
Import Merge.

#[local] Instance end_raised_preorder : PreOrder end_raised.
Proof.
  split.
  - intros a. unfold end_raised. split_and!; done.
  - intros a b c (?&?&?&?) (?&?&?&?). unfold end_raised.
    split_and!; first [congruence|lia].
Qed.

#[local] Instance start_lowered_preorder : PreOrder start_lowered.
Proof.
  split.
  - intros a. unfold start_lowered. split_and!; done.
  - intros a b c (?&?&?&?) (?&?&?&?). unfold start_lowered.
    split_and!; first [congruence|lia].
Qed.

Lemma Forall2_insert_r {A : Type} (R : relation A) `{!Reflexive R}
    (ts : list A) (i : nat) (a b : A) :
  ts !! i = Some a → R a b → Forall2 R ts (<[i := b]> ts).
Proof.
  intros Hi Hab. rewrite <- (list_insert_id ts i a Hi) at 1.
  apply Forall2_insert; [|done]. by apply Forall_Forall2_diag, Forall_true.
Qed.

Lemma extend_end_at_rel ts i j : Forall2 end_raised ts (extend_end_at ts i j).
Proof.
  unfold extend_end_at.
  destruct (ts !! i) as [a|] eqn:Hi; [|done].
  destruct (ts !! j) as [b|] eqn:Hj; [|done].
  destruct (_ && _) eqn:Hc; [|done].
  apply andb_true_iff in Hc as [_ Hc%Z.leb_le].
  apply (Forall2_insert_r end_raised ts i a); [done|].
  unfold end_raised, setSeg1; simpl. split_and!; done.
Qed.

Lemma extend_ends_rel ts : Forall2 end_raised ts (extend_ends ts).
Proof.
  unfold extend_ends. apply (nested_loops_rel extend_end_at _).
  apply extend_end_at_rel.
Qed.

Lemma extend_start_at_rel ts i j : Forall2 start_lowered ts (extend_start_at ts i j).
Proof.
  unfold extend_start_at.
  destruct (ts !! i) as [a|] eqn:Hi; [|done].
  destruct (ts !! j) as [b|] eqn:Hj; [|done].
  destruct (_ && _) eqn:Hc; [|done].
  apply andb_true_iff in Hc as [Hc%Z.leb_le _].
  apply (Forall2_insert_r start_lowered ts i a); [done|].
  unfold start_lowered, setSeg0; simpl. split_and!; done.
Qed.

Lemma extend_starts_rel ts : Forall2 start_lowered ts (extend_starts ts).
Proof.
  unfold extend_starts. apply (nested_loops_rel extend_start_at _).
  apply extend_start_at_rel.
Qed.

(** What the relations keep. *)
Lemma end_raised_UUID ts ts' :
  Forall2 end_raised ts ts' → UUID <$> ts' = UUID <$> ts.
Proof.
  induction 1 as [|a b ts ts' (?&?&?&?) _ IH]; [done|].
  rewrite !fmap_cons. by f_equal.
Qed.

Lemma end_raised_Locked ts ts' :
  Forall2 end_raised ts ts' → Locked <$> ts' = Locked <$> ts.
Proof.
  induction 1 as [|a b ts ts' (?&?&?&?) _ IH]; [done|].
  rewrite !fmap_cons. by f_equal.
Qed.

Lemma start_lowered_UUID ts ts' :
  Forall2 start_lowered ts ts' → UUID <$> ts' = UUID <$> ts.
Proof.
  induction 1 as [|a b ts ts' (?&?&?&?) _ IH]; [done|].
  rewrite !fmap_cons. by f_equal.
Qed.

Lemma start_lowered_Locked ts ts' :
  Forall2 start_lowered ts ts' → Locked <$> ts' = Locked <$> ts.
Proof.
  induction 1 as [|a b ts ts' (?&?&?&?) _ IH]; [done|].
  rewrite !fmap_cons. by f_equal.
Qed.

Lemma end_raised_well_formed ts ts' :
  Forall2 end_raised ts ts' → Forall well_formed ts → Forall well_formed ts'.
Proof.
  induction 1 as [|a b ts ts' (?&?&?&?)]; intros Hwf; [done|].
  apply Forall_cons in Hwf as [Ha Hts]. constructor; [|auto].
  unfold well_formed in *. lia.
Qed.

Lemma start_lowered_well_formed ts ts' :
  Forall2 start_lowered ts ts' → Forall well_formed ts → Forall well_formed ts'.
Proof.
  induction 1 as [|a b ts ts' (?&?&?&?)]; intros Hwf; [done|].
  apply Forall_cons in Hwf as [Ha Hts]. constructor; [|auto].
  unfold well_formed in *. lia.
Qed.

(** *** The start loop keeps the slice sorted by start *)

Lemma chase_start_cons b tbl x :
  chase_start (b :: tbl) x
  = chase_start tbl (if (Seg0 b <=? x) && (x <=? Seg1 b) then Seg0 b else x).
Proof. done. Qed.

Lemma chase_start_app tbl1 tbl2 x :
  chase_start (tbl1 ++ tbl2) x = chase_start tbl2 (chase_start tbl1 x).
Proof. apply foldl_app. Qed.

Lemma chase_start_le tbl x : chase_start tbl x ≤ x.
Proof.
  revert x. induction tbl as [|b tbl IH]; intros x; [done|].
  rewrite chase_start_cons.
  destruct (_ && _) eqn:Hc; [|apply IH].
  apply andb_true_iff in Hc as [Hc%Z.leb_le _]. etrans; [apply IH|done].
Qed.

Lemma chase_start_mono tbl x y : x ≤ y → chase_start tbl x ≤ chase_start tbl y.
Proof.
  revert x y. induction tbl as [|b tbl IH]; intros x y Hxy; [done|].
  rewrite !chase_start_cons. apply IH.
  destruct (Z.leb_spec (Seg0 b) x), (Z.leb_spec x (Seg1 b)),
    (Z.leb_spec (Seg0 b) y), (Z.leb_spec y (Seg1 b)); simpl; lia.
Qed.

(** The segment at [i] does not move its own start. *)
Lemma chase_start_self a x :
  x ≤ Seg0 a → (if (Seg0 a <=? x) && (x <=? Seg1 a) then Seg0 a else x) = x.
Proof.
  intros Hx. destruct (Z.leb_spec (Seg0 a) x); simpl; [|done].
  destruct (x <=? Seg1 a); lia.
Qed.

(** The inner loop over [j], for the segment [a] at [i] whose start has
    come down to [x] so far. *)
Lemma inner_start_loop ts i a js x :
  ts !! i = Some a → x ≤ Seg0 a →
  foldl (λ ts j, extend_start_at ts i j) (<[i := setSeg0 a x]> ts) js
  = <[i := setSeg0 a (chase_start (omap (λ j, ts !! j) js) x)]> ts.
Proof.
  intros Hi. revert x. induction js as [|j js IH]; intros x Hx; simpl; [done|].
  assert (i < length ts)%nat as Hlen by by eapply lookup_lt_Some.
  unfold extend_start_at at 2.
  rewrite list_lookup_insert_eq by done.
  destruct (decide (j = i)) as [->|Hne].
  - rewrite list_lookup_insert_eq, Hi by done. simpl.
    rewrite (chase_start_self a x Hx).
    rewrite Z.leb_refl. simpl.
    destruct (x <=? Seg1 a); [|by apply IH].
    rewrite list_insert_insert_eq. by apply IH.
  - rewrite list_lookup_insert_ne by done.
    destruct (ts !! j) as [b|] eqn:Hj; simpl; [|by apply IH].
    destruct (_ && _) eqn:Hc; [|by apply IH].
    rewrite list_insert_insert_eq. unfold setSeg0 at 1; simpl.
    apply andb_true_iff in Hc as [Hc%Z.leb_le _].
    apply (IH (Seg0 b)). lia.
Qed.

Lemma setSeg0_id a : setSeg0 a (Seg0 a) = a.
Proof. by destruct a. Qed.

Lemma setSeg1_id a : setSeg1 a (Seg1 a) = a.
Proof. by destruct a. Qed.

Lemma inner_start_loop_all ts i a :
  ts !! i = Some a →
  foldl (λ ts j, extend_start_at ts i j) ts (rev (seq 0 (length ts)))
  = <[i := setSeg0 a (chase_start (rev ts) (Seg0 a))]> ts.
Proof.
  intros Hi.
  rewrite <- (list_insert_id ts i a Hi) at 1.
  rewrite <- (setSeg0_id a) at 1.
  rewrite inner_start_loop by done.
  by rewrite omap_rev, omap_lookup_seq.
Qed.

Lemma extend_start_at_length ts i j :
  length (extend_start_at ts i j) = length ts.
Proof. symmetry. eapply Forall2_length, extend_start_at_rel. Qed.

(** The outer loop over [i], on the slice [rev rp ++ post] of which the
    part [post] has been visited. *)
Lemma outer_start_loop rp post n :
  n = length (rev rp ++ post) →
  foldl (λ ts i, foldl (λ ts j, extend_start_at ts i j) ts (rev (seq 0 n)))
    (rev rp ++ post) (rev (seq 0 (length rp)))
  = starts_pass rp post.
Proof.
  revert post. induction rp as [|a rp IH]; intros post Hn; [done|].
  cbn [length]. rewrite seq_S, rev_app_distr. cbn [rev app foldl Nat.add].
  set (ts := (rev rp ++ [a]) ++ post) in *.
  assert (ts !! length rp = Some a) as Hi.
  { unfold ts. rewrite <- app_assoc, <- length_rev. by apply list_lookup_middle. }
  assert (n = length ts) as -> by done.
  rewrite (inner_start_loop_all ts (length rp) a Hi).
  replace (rev ts) with (rev post ++ a :: rp).
  2:{ unfold ts. by rewrite !rev_app_distr, rev_involutive. }
  replace (<[length rp := setSeg0 a (chase_start (rev post ++ a :: rp) (Seg0 a))]> ts)
    with (rev rp ++ setSeg0 a (chase_start (rev post ++ a :: rp) (Seg0 a)) :: post).
  2:{ unfold ts. rewrite <- app_assoc. simpl.
      rewrite <- (Nat.add_0_r (length rp)), <- length_rev.
      by rewrite insert_app_r. }
  rewrite IH; [done|].
  unfold ts. rewrite !length_app. simpl. lia.
Qed.

Lemma extend_starts_pass ts : extend_starts ts = starts_pass (rev ts) [].
Proof.
  unfold extend_starts.
  rewrite <- (outer_start_loop (rev ts) [] (length ts)).
  - by rewrite rev_involutive, app_nil_r, length_rev.
  - by rewrite rev_involutive, app_nil_r.
Qed.

Lemma Seg0_setSeg0 a x : Seg0 (setSeg0 a x) = x.
Proof. done. Qed.

Lemma starts_pass_sorted rp post :
  StronglySorted (λ a b, Seg0 b ≤ Seg0 a) rp →
  StronglySorted (λ a b, Seg0 a ≤ Seg0 b) post →
  (∀ a rp' b post', rp = a :: rp' → post = b :: post' →
     chase_start (rev post ++ rp) (Seg0 a) ≤ Seg0 b) →
  StronglySorted (λ a b, Seg0 a ≤ Seg0 b) (starts_pass rp post).
Proof.
  revert post. induction rp as [|a rp IH]; intros post Hrp Hpost Hbound; [done|].
  apply StronglySorted_inv in Hrp as [Hrp Ha]. simpl. apply IH; [done|..].
  - constructor; [done|].
    destruct post as [|b post]; [done|].
    specialize (Hbound a rp b post eq_refl eq_refl).
    apply StronglySorted_inv in Hpost as [_ Hb].
    rewrite Forall_forall.
    intros c Hc. rewrite Seg0_setSeg0.
    apply elem_of_cons in Hc as [->|Hc]; [done|].
    rewrite Forall_forall in Hb. specialize (Hb c Hc). simpl in Hb. lia.
  - intros m rp' b post' -> [= <- <-]. rewrite Seg0_setSeg0.
    apply Forall_cons in Ha as [Hma _].
    set (U := chase_start (rev post)).
    assert (U (Seg0 m) ≤ U (Seg0 a)) as HU by by apply chase_start_mono.
    assert (U (Seg0 a) ≤ Seg0 a) as HUa by apply chase_start_le.
    rewrite (chase_start_app (rev post)), chase_start_cons.
    fold U. rewrite (chase_start_self a (U (Seg0 a)) HUa).
    change (rev (?x :: post)) with (rev post ++ [x]).
    rewrite <- app_assoc, (chase_start_app (rev post)). fold U.
    rewrite (chase_start_app [_]).
    apply chase_start_mono.
    etrans; [|exact HU]. apply chase_start_le.
Qed.

(** After the start loop the slice is sorted by start, whatever the
    segments are. *)
Lemma extend_starts_sorted ts :
  StronglySorted (λ a b, Seg0 a ≤ Seg0 b) ts →
  StronglySorted (λ a b, Seg0 a ≤ Seg0 b) (extend_starts ts).
Proof.
  intros Hts. rewrite extend_starts_pass. apply starts_pass_sorted.
  - rewrite <- (rev_involutive ts) in Hts.
    revert Hts. generalize (rev ts) as l. clear ts.
    induction l as [|x l IH]; intros Hl; [constructor|].
    simpl in Hl. apply StronglySorted_app in Hl as (Hrel & Hl & _).
    constructor; [auto|]. apply Forall_forall. intros y Hy.
    apply (Hrel y x); [|by apply list_elem_of_singleton].
    by apply list_elem_of_In, in_rev, list_elem_of_In in Hy.
  - constructor.
  - intros ???? ?; discriminate.
Qed.

(** *** The combine loop *)

Section float_sub.
Context (fsub : Z → Z → Z).
Context (Hsub : rounded_sub fsub).

(** Two numbers in order are less than a second apart for the test of
    the combine loop. *)
Lemma fsub_close x y : x ≤ y → (fsub x y <? second) = true.
Proof.
  intros Hle. apply Z.ltb_lt. pose proof (proj1 Hsub x y Hle).
  unfold second. lia.
Qed.

Lemma separated_lt a b :
  separated fsub a b → End_ a < Start b ∧ Start a ≤ Start b.
Proof.
  intros [Hgap Hle]. split; [|done].
  destruct (Z.lt_ge_cases (End_ a) (Start b)) as [|Hge]; [done|].
  pose proof (proj1 Hsub _ _ Hge). unfold second in Hgap. lia.
Qed.

Lemma combine_step_push rs f s :
  combine_step fsub (rev rs, f) s = (rev (combine_push fsub rs s), f && is_locked s).
Proof.
  unfold combine_step, combine_push. cbn [fst snd].
  destruct rs as [|l rs]; [done|]. cbn [rev].
  rewrite last_snoc, removelast_last. cbn [Start End_ UUIDs].
  by destruct (_ <? _).
Qed.

Lemma combine_foldl ts rs f :
  foldl (combine_step fsub) (rev rs, f) ts
  = (rev (foldl (combine_push fsub) rs ts), f && forallb is_locked ts).
Proof.
  revert rs f. induction ts as [|s ts IH]; intros rs f; simpl.
  - by rewrite andb_true_r.
  - by rewrite combine_step_push, IH, andb_assoc.
Qed.

Lemma combine_eq ts :
  combine fsub ts = (rev (foldl (combine_push fsub) [] ts), forallb is_locked ts).
Proof. apply (combine_foldl ts [] true). Qed.

Lemma combine_push_ids rs s :
  concat (UUIDs <$> combine_push fsub rs s) ≡ₚ UUID s :: concat (UUIDs <$> rs).
Proof.
  unfold combine_push. destruct rs as [|l rs]; [done|].
  by destruct (_ <? _).
Qed.

Lemma foldl_combine_push_ids ts rs :
  concat (UUIDs <$> foldl (combine_push fsub) rs ts)
  ≡ₚ (UUID <$> ts) ++ concat (UUIDs <$> rs).
Proof.
  revert rs. induction ts as [|s ts IH]; intros rs; simpl; [done|].
  rewrite IH, combine_push_ids. by rewrite Permutation_middle.
Qed.

Lemma separated_trans : Transitive (separated fsub).
Proof.
  intros a b c [Hab ?] [Hbc ?]. split; [|lia].
  etrans; [exact Hab|]. by apply (proj2 Hsub).
Qed.

(** The stack of segments stays separated, newest first, while the
    records arrive sorted by start. *)
Lemma foldl_combine_push_separated ts rs :
  StronglySorted (λ a b, Seg0 a ≤ Seg0 b) ts →
  StronglySorted (flip (separated fsub)) rs →
  (∀ l s, head rs = Some l → s ∈ ts → Start l ≤ Seg0 s) →
  StronglySorted (flip (separated fsub)) (foldl (combine_push fsub) rs ts).
Proof.
  revert rs. induction ts as [|s ts IH]; intros rs Hts Hrs Hlow; [done|].
  apply StronglySorted_inv in Hts as [Hts Hs]. simpl. apply IH; [done|..].
  - unfold combine_push. destruct rs as [|l rs]; [repeat constructor|].
    apply StronglySorted_inv in Hrs as [Hrs Hl].
    assert (Start l ≤ Seg0 s) as Hls by (apply Hlow; [done|left]).
    destruct (Z.ltb_spec (fsub (Seg0 s) (End_ l)) second) as [Hlt|Hge].
    + constructor; [done|]. eapply Forall_impl; [exact Hl|].
      intros e He. exact He.
    + constructor; [by constructor|]. constructor.
      * unfold flip, separated. simpl. split; [done|lia].
      * eapply Forall_impl; [exact Hl|].
        intros e [Hel ?]. unfold flip, separated in *. simpl.
        split; [|lia]. etrans; [exact Hel|]. by apply (proj2 Hsub).
  - intros l' s' Hhd Hs'.
    rewrite Forall_forall in Hs. specialize (Hs s' Hs'). simpl in Hs.
    unfold combine_push in Hhd. destruct rs as [|l rs].
    + injection Hhd as <-. simpl. lia.
    + assert (Start l ≤ Seg0 s) as Hls by (apply Hlow; [done|left]).
      destruct (_ <? _); injection Hhd as <-; simpl; lia.
Qed.

Lemma StronglySorted_lookup {A : Type} (R : relation A) (l : list A) i j a b :
  StronglySorted R l → (i < j)%nat → l !! i = Some a → l !! j = Some b → R a b.
Proof.
  intros Hl. revert i j. induction Hl as [|x l Hl IH Hx]; intros i j Hij Hi Hj.
  - by rewrite lookup_nil in Hi.
  - destruct j as [|j]; [lia|]. simpl in Hj. destruct i as [|i].
    + injection Hi as <-. rewrite Forall_forall in Hx.
      apply Hx. by eapply list_elem_of_lookup_2.
    + simpl in Hi. apply (IH i j); [lia|done..].
Qed.

Lemma separated_sorted_by_start out :
  StronglySorted (separated fsub) out → sorted_by_start out.
Proof.
  intros Hout i j a b Hij Hi Hj.
  by destruct (StronglySorted_lookup _ _ _ _ _ _ Hout Hij Hi Hj).
Qed.

Lemma separated_canonical out :
  StronglySorted (separated fsub) out →
  sorted_by_start out ∧ non_overlapping out ∧ gap_at_least_1s fsub out.
Proof.
  intros Hout. split_and!.
  - by apply separated_sorted_by_start.
  - intros i j a b Hij Hi Hj.
    by destruct (separated_lt _ _
                   (StronglySorted_lookup _ _ _ _ _ _ Hout Hij Hi Hj)).
  - intros i a b Hi Hj.
    by destruct (StronglySorted_lookup _ _ i (S i) _ _ Hout ltac:(lia) Hi Hj).
Qed.

(** *** The slice as it stands before the combine loop *)

Lemma forallb_perm {A : Type} (f : A → bool) (l l' : list A) :
  l ≡ₚ l' → forallb f l = forallb f l'.
Proof.
  induction 1 as [|x l l' _ IH|x y l|l1 l2 l3 _ IH1 _ IH2]; simpl.
  - done.
  - by rewrite IH.
  - by rewrite !andb_assoc, (andb_comm (f y)).
  - by rewrite IH1.
Qed.

Lemma forallb_is_locked ts :
  forallb is_locked ts = forallb (λ z, z =? 1) (Locked <$> ts).
Proof. induction ts as [|a ts IH]; simpl; [done|]. by rewrite IH. Qed.

Lemma foldl_combine_push_shape ts rs :
  Forall well_formed ts →
  StronglySorted (λ a b, Seg0 a ≤ Seg0 b) ts →
  Forall (λ g, Start g ≤ End_ g ∧ UUIDs g ≠ []) rs →
  (∀ l s, head rs = Some l → s ∈ ts → Start l ≤ Seg0 s) →
  Forall (λ g, Start g ≤ End_ g ∧ UUIDs g ≠ []) (foldl (combine_push fsub) rs ts).
Proof.
  revert rs. induction ts as [|s ts IH]; intros rs Hwf Hts Hrs Hlow; [done|].
  apply StronglySorted_inv in Hts as [Hts Hs].
  apply Forall_cons in Hwf as [Hws Hwf]. unfold well_formed in Hws.
  simpl. apply IH; [done..| |].
  - unfold combine_push. destruct rs as [|l rs]; [by repeat constructor|].
    pose proof Hrs as [[Hl _] Hrs']%Forall_cons.
    assert (Start l ≤ Seg0 s) as Hls by (apply Hlow; [done|left]).
    destruct (_ <? _); (constructor; [simpl; split; [lia|done]|done]).
  - intros l' s' Hhd Hs'.
    rewrite Forall_forall in Hs. specialize (Hs s' Hs'). simpl in Hs.
    unfold combine_push in Hhd. destruct rs as [|l rs].
    + injection Hhd as <-. simpl. lia.
    + assert (Start l ≤ Seg0 s) as Hls by (apply Hlow; [done|left]).
      destruct (_ <? _); injection Hhd as <-; simpl; lia.
Qed.

(** The facts below hold whatever the two sorts do with records of equal
    keys: all that is used is that a sort returns its argument in another
    order, sorted by start in the case of the second sort. *)
Section any_sort.
Context (sort_by_end sort_by_start : list typedSegment → list typedSegment).
Context (sort_by_end_perm : ∀ l, sort_by_end l ≡ₚ l).
Context (sort_by_start_perm : ∀ l, sort_by_start l ≡ₚ l).
Context (sort_by_start_sorted :
           ∀ l, StronglySorted (λ a b, Seg0 a ≤ Seg0 b) (sort_by_start l)).

Lemma before_combine_UUID raws :
  UUID <$> extend_starts (sort_by_start (extend_ends (sort_by_end raws)))
  ≡ₚ UUID <$> raws.
Proof.
  rewrite (start_lowered_UUID _ _ (extend_starts_rel _)).
  rewrite sort_by_start_perm.
  rewrite (end_raised_UUID _ _ (extend_ends_rel _)).
  by rewrite sort_by_end_perm.
Qed.

Lemma before_combine_locked raws :
  forallb is_locked (extend_starts (sort_by_start (extend_ends (sort_by_end raws))))
  = forallb is_locked raws.
Proof.
  rewrite forallb_is_locked, (start_lowered_Locked _ _ (extend_starts_rel _)).
  rewrite <- forallb_is_locked, (forallb_perm _ _ _ (sort_by_start_perm _)).
  rewrite forallb_is_locked, (end_raised_Locked _ _ (extend_ends_rel _)).
  rewrite <- forallb_is_locked.
  apply forallb_perm, sort_by_end_perm.
Qed.

Lemma before_combine_sorted raws :
  StronglySorted (λ a b, Seg0 a ≤ Seg0 b)
    (extend_starts (sort_by_start (extend_ends (sort_by_end raws)))).
Proof. apply extend_starts_sorted, sort_by_start_sorted. Qed.

Lemma before_combine_well_formed raws :
  Forall well_formed raws →
  Forall well_formed
    (extend_starts (sort_by_start (extend_ends (sort_by_end raws)))).
Proof.
  intros Hwf.
  eapply start_lowered_well_formed; [apply extend_starts_rel|].
  rewrite sort_by_start_perm.
  eapply end_raised_well_formed; [apply extend_ends_rel|].
  by rewrite sort_by_end_perm.
Qed.

Lemma processSegments_with_separated raws :
  StronglySorted (separated fsub)
    (processSegments_with fsub sort_by_end sort_by_start raws).1.
Proof.
  unfold processSegments_with. rewrite combine_eq. cbn [fst].
  apply StronglySorted_rev, foldl_combine_push_separated.
  - apply before_combine_sorted.
  - constructor.
  - intros l s Hhd. discriminate.
Qed.

Lemma processSegments_with_ids raws :
  concat (UUIDs <$> (processSegments_with fsub sort_by_end sort_by_start raws).1)
  ≡ₚ UUID <$> raws.
Proof.
  unfold processSegments_with. rewrite combine_eq. cbn [fst].
  rewrite <- Permutation_rev, foldl_combine_push_ids. simpl.
  rewrite app_nil_r. apply before_combine_UUID.
Qed.

Lemma processSegments_with_permanent raws :
  (processSegments_with fsub sort_by_end sort_by_start raws).2
  = forallb is_locked raws.
Proof.
  unfold processSegments_with. rewrite combine_eq. cbn [snd].
  apply before_combine_locked.
Qed.

Lemma processSegments_with_shape raws :
  Forall well_formed raws →
  Forall (λ g, Start g ≤ End_ g ∧ UUIDs g ≠ [])
    (processSegments_with fsub sort_by_end sort_by_start raws).1.
Proof.
  intros Hwf. unfold processSegments_with. rewrite combine_eq. cbn [fst].
  apply Forall_forall. intros g Hg.
  apply list_elem_of_In, in_rev, list_elem_of_In in Hg. revert g Hg.
  apply Forall_forall, foldl_combine_push_shape.
  - by apply before_combine_well_formed.
  - apply before_combine_sorted.
  - constructor.
  - intros l s Hhd. discriminate.
Qed.

(** The properties of C2 and C8, whatever the sorts do with equal keys. *)
Lemma processSegments_with_canonical raws :
  sorted_by_start (processSegments_with fsub sort_by_end sort_by_start raws).1 ∧
  non_overlapping (processSegments_with fsub sort_by_end sort_by_start raws).1 ∧
  gap_at_least_1s fsub (processSegments_with fsub sort_by_end sort_by_start raws).1 ∧
  concat (UUIDs <$> (processSegments_with fsub sort_by_end sort_by_start raws).1)
    ≡ₚ UUID <$> raws ∧
  (processSegments_with fsub sort_by_end sort_by_start raws).2
    = forallb is_locked raws.
Proof.
  pose proof (separated_canonical _ (processSegments_with_separated raws))
    as (?&?&?).
  split_and!; [done..|apply processSegments_with_ids
              |apply processSegments_with_permanent].
Qed.

End any_sort.

Lemma processSegments_as_with raws :
  processSegments fsub raws
  = processSegments_with fsub (sort_Slice less_end) (sort_Slice less_start) raws.
Proof. done. Qed.

Lemma processSegments_separated raws :
  StronglySorted (separated fsub) (processSegments fsub raws).1.
Proof.
  rewrite processSegments_as_with. apply processSegments_with_separated.
  apply (sort_Slice_sorted less_start Seg0). done.
Qed.

Lemma processSegments_ids raws :
  concat (UUIDs <$> (processSegments fsub raws).1) ≡ₚ UUID <$> raws.
Proof.
  rewrite processSegments_as_with.
  apply processSegments_with_ids; apply sort_Slice_perm.
Qed.

Lemma processSegments_permanent raws :
  (processSegments fsub raws).2 = forallb is_locked raws.
Proof.
  rewrite processSegments_as_with.
  apply processSegments_with_permanent; apply sort_Slice_perm.
Qed.

Lemma processSegments_shape raws :
  Forall well_formed raws →
  Forall (λ g, Start g ≤ End_ g ∧ UUIDs g ≠ []) (processSegments fsub raws).1.
Proof.
  rewrite processSegments_as_with. apply processSegments_with_shape.
  - apply sort_Slice_perm.
  - apply sort_Slice_perm.
  - apply (sort_Slice_sorted less_start Seg0). done.
Qed.

Lemma processSegments_nil_permanent raws :
  (processSegments fsub raws).1 = [] → (processSegments fsub raws).2 = true.
Proof.
  intros Hnil. pose proof (processSegments_ids raws) as Hids.
  rewrite Hnil in Hids. simpl in Hids.
  apply Permutation_nil_l in Hids. symmetry in Hids.
  apply fmap_nil_inv in Hids. by subst raws.
Qed.

(** *** Merging a resolved list again *)

Lemma StronglySorted_trichotomy {A : Type} (R : relation A) (l : list A) x y :
  StronglySorted R l → x ∈ l → y ∈ l → x = y ∨ R x y ∨ R y x.
Proof.
  induction 1 as [|z l Hl IH Hz]; intros Hx Hy; [by apply elem_of_nil in Hx|].
  rewrite Forall_forall in Hz.
  apply elem_of_cons in Hx as [->|Hx], Hy as [->|Hy]; auto.
Qed.

Lemma forallb_const {A : Type} (f : A → bool) (l : list A) (p : bool) :
  (∀ a, a ∈ l → f a = p) → (l = [] → p = true) → forallb f l = p.
Proof.
  intros Hf Hnil. destruct l as [|a l]; [by rewrite Hnil|]. clear Hnil.
  destruct p.
  - apply forallb_forall. intros b Hb%list_elem_of_In. by apply Hf.
  - simpl. rewrite (Hf a); [done|by left].
Qed.

Lemma Forall2_same_segment_refl out : Forall2 same_segment out out.
Proof. induction out; constructor; [by split_and!|done]. Qed.

(** A list that is sorted by a key splits at any value of the key. *)
Lemma sorted_split (key : typedSegment → Z) (k : Z) (L A B : list typedSegment) :
  StronglySorted (λ a b, key a ≤ key b) L →
  L ≡ₚ A ++ B →
  Forall (λ a, key a ≤ k) A → Forall (λ b, ¬ key b ≤ k) B →
  ∃ LA LB, L = LA ++ LB ∧ LA ≡ₚ A ∧ LB ≡ₚ B.
Proof.
  intros HL Hperm HA HB.
  exists (filter (λ a, key a ≤ k) L), (filter (λ a, ¬ key a ≤ k) L).
  split_and!.
  - clear Hperm. induction HL as [|x l Hl IH Hx]; [done|].
    rewrite !filter_cons. destruct (decide (key x ≤ k)) as [Hk|Hk].
    + rewrite decide_False by tauto. simpl. by rewrite <- IH.
    + rewrite decide_True by done.
      assert (Forall (λ a, ¬ key a ≤ k) l) as Hall.
      { eapply Forall_impl; [exact Hx|]. simpl. lia. }
      assert (filter (λ a, key a ≤ k) l = []) as ->.
      { clear -Hall. induction Hall as [|y l Hy _ IHl]; [done|].
        by rewrite filter_cons, decide_False. }
      assert (filter (λ a, ¬ key a ≤ k) l = l) as ->; [|done].
      clear -Hall. induction Hall as [|y l Hy _ IHl]; [done|].
      by rewrite filter_cons, decide_True, IHl.
  - rewrite Hperm, filter_app.
    assert (filter (λ a, key a ≤ k) A = A) as ->.
    { clear -HA. induction HA as [|x l Hx _ IH]; [done|].
      by rewrite filter_cons, decide_True, IH. }
    assert (filter (λ a, key a ≤ k) B = []) as ->.
    { clear -HB. induction HB as [|x l Hx _ IH]; [done|].
      by rewrite filter_cons, decide_False. }
    by rewrite app_nil_r.
  - rewrite Hperm, filter_app.
    assert (filter (λ a, ¬ key a ≤ k) A = []) as ->.
    { clear -HA. induction HA as [|x l Hx _ IH]; [done|].
      rewrite filter_cons, decide_False; [done|tauto]. }
    assert (filter (λ a, ¬ key a ≤ k) B = B) as ->.
    { clear -HB. induction HB as [|x l Hx _ IH]; [done|].
      by rewrite filter_cons, decide_True, IH. }
    done.
Qed.

(** Records that all carry the bounds of one segment [g], pushed on a
    stack whose top, if any, lies a second or more before [g], are
    combined into one segment with those bounds: the test of the loop
    compares the start of [g] with its own end. *)
Lemma combine_push_group (g : Segment) (a : typedSegment) (LA rs : list _) :
  Start g ≤ End_ g →
  Forall (λ a, Seg0 a = Start g ∧ Seg1 a = End_ g) (a :: LA) →
  (∀ l, head rs = Some l → second ≤ fsub (Start g) (End_ l)) →
  foldl (combine_push fsub) rs (a :: LA)
  = mkSegment (Start g) (End_ g) (rev (UUID <$> a :: LA)) :: rs.
Proof.
  intros Hw [[Ha0 Ha1] HLA]%Forall_cons Hhd. cbn [foldl].
  assert (combine_push fsub rs a = mkSegment (Start g) (End_ g) [UUID a] :: rs)
    as ->.
  { unfold combine_push. rewrite Ha0, Ha1. destruct rs as [|l rs]; [done|].
    specialize (Hhd l eq_refl).
    by destruct (Z.ltb_spec (fsub (Start g) (End_ l)) second); [lia|]. }
  rewrite fmap_cons. change (rev (UUID a :: ?l)) with (rev l ++ [UUID a]).
  generalize [UUID a] as acc.
  induction HLA as [|b LA [Hb0 Hb1] _ IH]; intros acc; [done|].
  cbn [foldl combine_push Start End_ UUIDs].
  rewrite Hb0, Hb1, (fsub_close _ _ Hw), IH, fmap_cons.
  cbn [rev]. by rewrite <- app_assoc.
Qed.

Section remerge.
Context (out : list Segment) (p : bool).
Context (Hsep : StronglySorted (separated fsub) out).
Context (Hshape : Forall (λ g, Start g ≤ End_ g ∧ UUIDs g ≠ []) out).

Lemma elem_of_refeed a :
  a ∈ refeed (out, p) →
  ∃ g, g ∈ out ∧ Seg0 a = Start g ∧ Seg1 a = End_ g ∧ is_locked a = p.
Proof.
  unfold refeed. cbn [fst snd]. intros (g & Ha & Hg)%list_elem_of_bind.
  exists g. split; [done|].
  apply list_elem_of_fmap in Ha as (u & -> & _). unfold is_locked. simpl.
  by destruct p.
Qed.

Lemma refeed_settled a b :
  a ∈ refeed (out, p) → b ∈ refeed (out, p) →
  (Seg0 b ≤ Seg1 a → Seg1 a ≤ Seg1 b → Seg1 b = Seg1 a) ∧
  (Seg0 b ≤ Seg0 a → Seg0 a ≤ Seg1 b → Seg0 b = Seg0 a).
Proof.
  intros (g & Hg & Ha0 & Ha1 & _)%elem_of_refeed
         (g' & Hg' & Hb0 & Hb1 & _)%elem_of_refeed.
  rewrite Ha0, Ha1, Hb0, Hb1.
  rewrite Forall_forall in Hshape.
  destruct (Hshape g Hg) as [Hw _], (Hshape g' Hg') as [Hw' _].
  destruct (StronglySorted_trichotomy _ _ g g' Hsep Hg Hg')
    as [->|[[H1 H2]%separated_lt|[H1 H2]%separated_lt]]; lia.
Qed.

(** The two extension loops change nothing on records of the resolved
    list, in whatever order and number they stand in the slice. *)
Lemma extend_ends_fed fed :
  fed ⊆ refeed (out, p) → extend_ends fed = fed.
Proof.
  intros Hfed. unfold extend_ends. apply nested_loops_id. intros i j.
  unfold extend_end_at.
  destruct (_ !! i) as [a|] eqn:Hi; [|done].
  destruct (_ !! j) as [b|] eqn:Hj; [|done].
  destruct (_ && _) eqn:Hc; [|done].
  apply andb_true_iff in Hc as [Hc1%Z.leb_le Hc2%Z.leb_le].
  destruct (refeed_settled a b) as [-> _]; try done;
    try by eapply Hfed, list_elem_of_lookup_2.
  rewrite setSeg1_id. by apply list_insert_id.
Qed.

Lemma extend_starts_fed fed :
  fed ⊆ refeed (out, p) → extend_starts fed = fed.
Proof.
  intros Hfed. unfold extend_starts. apply nested_loops_id. intros i j.
  unfold extend_start_at.
  destruct (_ !! i) as [a|] eqn:Hi; [|done].
  destruct (_ !! j) as [b|] eqn:Hj; [|done].
  destruct (_ && _) eqn:Hc; [|done].
  apply andb_true_iff in Hc as [Hc1%Z.leb_le Hc2%Z.leb_le].
  destruct (refeed_settled a b) as [_ ->]; try done;
    try by eapply Hfed, list_elem_of_lookup_2.
  rewrite setSeg0_id. by apply list_insert_id.
Qed.

Lemma refeed_sorted (key : typedSegment → Z) (gkey : Segment → Z) :
  (∀ g a, a ∈ refeed_segment p g → key a = gkey g) →
  (∀ g g', g ∈ out → g' ∈ out → separated fsub g g' → gkey g ≤ gkey g') →
  StronglySorted (λ a b, key a ≤ key b) (refeed (out, p)).
Proof.
  intros Hkey Hmono. unfold refeed. cbn [fst snd].
  assert (∀ g, StronglySorted (λ a b, key a ≤ key b) (refeed_segment p g)) as Hgrp.
  { intros g. pose proof (Hkey g) as Hg. revert Hg.
    generalize (refeed_segment p g) as l.
    induction l as [|a l IH]; intros Hl; constructor.
    - apply IH. intros b Hb. apply Hl. by right.
    - apply Forall_forall. intros b Hb.
      rewrite (Hl a), (Hl b); [done|by right|by left]. }
  clear Hshape. induction Hsep as [|g l Hl IH Hg]; [constructor|].
  rewrite bind_cons. apply StronglySorted_app_2; [|done|].
  - intros a b Ha (g' & Hb & Hg')%list_elem_of_bind.
    rewrite (Hkey g a Ha), (Hkey g' b Hb).
    rewrite Forall_forall in Hg.
    apply Hmono; [by left|by right|by apply Hg].
  - apply IH; [done|]. intros g1 g2 H1 H2. apply Hmono; by right.
Qed.

Lemma refeed_segment_keys g a :
  a ∈ refeed_segment p g → Seg0 a = Start g ∧ Seg1 a = End_ g.
Proof. by intros (u & -> & _)%list_elem_of_fmap. Qed.

Lemma refeed_sorted_end :
  StronglySorted (λ a b, Seg1 a ≤ Seg1 b) (refeed (out, p)).
Proof.
  apply (refeed_sorted Seg1 End_).
  - intros g a Ha. by apply refeed_segment_keys.
  - intros g g' _ Hg' [H1 H2]%separated_lt. rewrite Forall_forall in Hshape.
    destruct (Hshape g' Hg') as [Hw _]. lia.
Qed.

Lemma refeed_sorted_start :
  StronglySorted (λ a b, Seg0 a ≤ Seg0 b) (refeed (out, p)).
Proof.
  apply (refeed_sorted Seg0 Start).
  - intros g a Ha. by apply refeed_segment_keys.
  - by intros g g' _ _ [_ H].
Qed.

(** The records of one segment [g], in the order of its ids, are combined
    into [g] again, the ids in the opposite order. *)
Lemma combine_push_refeed_segment g rs :
  Start g ≤ End_ g → UUIDs g ≠ [] →
  (∀ l, head rs = Some l → second ≤ fsub (Start g) (End_ l)) →
  foldl (combine_push fsub) rs (refeed_segment p g) = reverse_ids g :: rs.
Proof.
  intros Hw Hne Hhd.
  assert (UUID <$> refeed_segment p g = UUIDs g) as Hids.
  { unfold refeed_segment. rewrite <- list_fmap_compose.
    rewrite <- (list_fmap_id (UUIDs g)) at 2. by apply list_fmap_ext. }
  assert (Forall (λ a, Seg0 a = Start g ∧ Seg1 a = End_ g) (refeed_segment p g))
    as Hkeys.
  { apply Forall_forall. intros a Ha. by apply refeed_segment_keys. }
  destruct (refeed_segment p g) as [|a LA] eqn:Hre.
  { exfalso. apply Hne. by rewrite <- Hids. }
  rewrite (combine_push_group g a LA rs Hw Hkeys Hhd). unfold reverse_ids.
  by rewrite Hids.
Qed.

Lemma combine_push_refeed rs :
  (∀ l g, head rs = Some l → g ∈ out → second ≤ fsub (Start g) (End_ l)) →
  foldl (combine_push fsub) rs (refeed (out, p)) = rev (reverse_ids <$> out) ++ rs.
Proof.
  unfold refeed. cbn [fst snd]. pose proof Hshape as Hsh. revert Hsh rs.
  induction Hsep as [|g l Hl IH Hg]; intros Hsh rs Hhd; [done|].
  apply Forall_cons in Hsh as [[Hw Hne] Hsh].
  rewrite bind_cons, foldl_app, combine_push_refeed_segment; [|done..|].
  2:{ intros l0 Hl0. apply (Hhd l0 g Hl0). by left. }
  rewrite IH; [|done..|].
  - rewrite fmap_cons. cbn [rev]. by rewrite <- app_assoc.
  - intros l0 g' [= <-] Hg'. rewrite Forall_forall in Hg.
    by destruct (Hg g' Hg').
Qed.

(** The same for the records in any order that is sorted by start: the
    records of one segment stand together, and are combined into that
    segment, its ids in some order. *)
Lemma combine_push_fed L rs :
  StronglySorted (λ a b, Seg0 a ≤ Seg0 b) L →
  L ≡ₚ refeed (out, p) →
  (∀ l g, head rs = Some l → g ∈ out → second ≤ fsub (Start g) (End_ l)) →
  ∃ gs, foldl (combine_push fsub) rs L = rev gs ++ rs ∧ Forall2 same_segment out gs.
Proof.
  unfold refeed. cbn [fst snd]. pose proof Hshape as Hsh. revert Hsh L rs.
  induction Hsep as [|g l Hl IH Hg]; intros Hsh L rs HL Hperm Hhd.
  { apply Permutation_nil_r in Hperm as ->. exists []. by split. }
  apply Forall_cons in Hsh as [[Hw Hne] Hsh]. rewrite bind_cons in Hperm.
  rewrite Forall_forall in Hg.
  destruct (sorted_split Seg0 (Start g) L _ _ HL Hperm) as (LA & LB & -> & HLA & HLB).
  { apply Forall_forall. intros a Ha.
    apply refeed_segment_keys in Ha as [-> _]. lia. }
  { apply Forall_forall. intros b (g' & Hb & Hg')%list_elem_of_bind.
    apply refeed_segment_keys in Hb as [-> _].
    destruct (separated_lt _ _ (Hg g' Hg')). lia. }
  assert (UUID <$> refeed_segment p g = UUIDs g) as Hids.
  { unfold refeed_segment. rewrite <- list_fmap_compose.
    rewrite <- (list_fmap_id (UUIDs g)) at 2. by apply list_fmap_ext. }
  destruct LA as [|a LA].
  { exfalso. apply Hne. rewrite <- Hids.
    by apply Permutation_nil_l in HLA as <-. }
  apply StronglySorted_app in HL as (_ & _ & HLB_sorted).
  rewrite foldl_app, (combine_push_group g a LA rs Hw).
  - destruct (IH Hl Hsh Hsh LB
                (mkSegment (Start g) (End_ g) (rev (UUID <$> a :: LA)) :: rs)
                HLB_sorted HLB) as (gs & -> & Hgs).
    { intros l0 g' [= <-] Hg'. simpl. by destruct (Hg g' Hg'). }
    exists (mkSegment (Start g) (End_ g) (rev (UUID <$> a :: LA)) :: gs).
    split; [cbn [rev]; by rewrite <- app_assoc|].
    constructor; [|done]. split_and!; [done..|]. cbn [UUIDs].
    by rewrite <- Permutation_rev, HLA, Hids.
  - apply Forall_forall. intros b Hb. apply refeed_segment_keys.
    by rewrite <- HLA.
  - intros l0 Hl0. apply (Hhd l0 g Hl0). by left.
Qed.

Lemma forallb_is_locked_refeed :
  (out = [] → p = true) → forallb is_locked (refeed (out, p)) = p.
Proof.
  intros Hnil. apply forallb_const.
  - intros a Ha. by apply elem_of_refeed in Ha as (_ & _ & _ & _ & ->).
  - intros Hre. apply Hnil. destruct out as [|g l]; [done|]. exfalso.
    apply Forall_cons in Hshape as [[_ Hne] _].
    unfold refeed, refeed_segment in Hre. cbn [fst snd] in Hre.
    rewrite bind_cons in Hre. by destruct (UUIDs g).
Qed.

(** Merging the records of a resolved list, in the order of the list,
    gives the list back, each segment with its ids in the opposite
    order. *)
Lemma processSegments_refeed :
  (out = [] → p = true) →
  processSegments fsub (refeed (out, p)) = (reverse_ids <$> out, p).
Proof.
  intros Hnil. unfold processSegments.
  rewrite (sort_Slice_id less_end Seg1) by (done || apply refeed_sorted_end).
  rewrite (extend_ends_fed _ (reflexivity _)).
  rewrite (sort_Slice_id less_start Seg0) by (done || apply refeed_sorted_start).
  rewrite (extend_starts_fed _ (reflexivity _)), combine_eq.
  rewrite combine_push_refeed by (intros ? ? ?; discriminate).
  by rewrite app_nil_r, rev_involutive, forallb_is_locked_refeed.
Qed.

(** Merging the records of a resolved list, fed back in any order and
    sorted in any way that the two calls of [sort.Slice] may sort them,
    gives its segments back, each with its bounds and its ids. *)
Lemma processSegments_with_fed
    (sort_by_end sort_by_start : list typedSegment → list typedSegment)
    (fed : list typedSegment) :
  (∀ l, sort_by_end l ≡ₚ l) →
  (∀ l, sort_by_start l ≡ₚ l) →
  (∀ l, StronglySorted (λ a b, Seg0 a ≤ Seg0 b) (sort_by_start l)) →
  (out = [] → p = true) →
  fed ≡ₚ refeed (out, p) →
  Forall2 same_segment out (processSegments_with fsub sort_by_end sort_by_start fed).1 ∧
  (processSegments_with fsub sort_by_end sort_by_start fed).2 = p.
Proof.
  intros Hend Hstart Hsorted Hnil Hfed. unfold processSegments_with.
  rewrite (extend_ends_fed (sort_by_end fed)).
  2:{ intros a Ha. by rewrite Hend, Hfed in Ha. }
  rewrite (extend_starts_fed (sort_by_start (sort_by_end fed))).
  2:{ intros a Ha. by rewrite Hstart, Hend, Hfed in Ha. }
  rewrite combine_eq. cbn [fst snd]. split.
  - destruct (combine_push_fed (sort_by_start (sort_by_end fed)) [])
      as (gs & -> & Hgs).
    + apply Hsorted.
    + by rewrite Hstart, Hend.
    + intros ? ? ?; discriminate.
    + by rewrite app_nil_r, rev_involutive.
  - rewrite (forallb_perm _ _ (refeed (out, p))).
    + by apply forallb_is_locked_refeed.
    + by rewrite Hstart, Hend.
Qed.

End remerge.

End float_sub.

Lemma spec_example_well_formed : Forall well_formed spec_example.
Proof. repeat constructor; unfold well_formed; simpl; lia. Qed.

Example processSegments_spec_example :
  processSegments Z.sub spec_example
  = ([mkSegment 0 20000 ["b"; "a"]; mkSegment 25000 30000 ["c"]], false).
Proof. reflexivity. Qed.

(** The merge follows the test of the source, whatever the subtraction
    returns: the records [0.5, 0.9] and [1.9, 2.5] are combined when the
    difference of 1.9 and 0.9 is computed as less than 1, as [float64]
    computes it, and kept apart otherwise. *)
Example processSegments_follows_the_test (fsub : Z → Z → Z) :
  let raws := [TypedSegment 500 900 "a" 1; TypedSegment 1900 2500 "b" 1] in
  (fsub 1900 900 < second →
   processSegments fsub raws = ([mkSegment 500 2500 ["b"; "a"]], true)) ∧
  (second ≤ fsub 1900 900 →
   processSegments fsub raws
   = ([mkSegment 500 900 ["a"]; mkSegment 1900 2500 ["b"]], true)).
Proof.
  cbv zeta.
  change (processSegments fsub
            [TypedSegment 500 900 "a" 1; TypedSegment 1900 2500 "b" 1])
    with (combine fsub
            [TypedSegment 500 900 "a" 1; TypedSegment 1900 2500 "b" 1]).
  unfold combine, combine_step. cbn.
  destruct (Z.ltb_spec (fsub 1900 900) second); split; intros; (done || lia).
Qed.

(** C2.  For every list of raw records the resolved list is sorted
    ascending by start, its segments do not overlap pairwise, two
    consecutive segments are one second apart or more, as the subtraction
    of the combine loop measures it, and the ids of the output are the ids
    of the input, none lost and none duplicated (the two id lists are
    permutations of each other). *)
Theorem processSegments_canonical (fsub : Z → Z → Z) (raws : list typedSegment) :
  rounded_sub fsub →
  sorted_by_start (processSegments fsub raws).1 ∧
  non_overlapping (processSegments fsub raws).1 ∧
  gap_at_least_1s fsub (processSegments fsub raws).1 ∧
  concat (UUIDs <$> (processSegments fsub raws).1) ≡ₚ UUID <$> raws.
Proof.
  intros Hsub.
  pose proof (separated_canonical fsub Hsub _ (processSegments_separated fsub Hsub raws))
    as (?&?&?).
  split_and!; [done..|]. apply processSegments_ids.
Qed.

Lemma processSegments_canonical_witness :
  rounded_sub Z.sub ∧
  non_overlapping (processSegments Z.sub spec_example).1 ∧
  gap_at_least_1s Z.sub (processSegments Z.sub spec_example).1.
Proof.
  split; [exact exact_sub_rounded|].
  pose proof (processSegments_canonical Z.sub spec_example exact_sub_rounded)
    as (_ & Hno & Hgap & _).
  exact (conj Hno Hgap).
Defined.

(** C8.  The permanent flag is the conjunction of the locked flags of all
    raw records, so a single record that is not locked makes the result
    not permanent; without records the result is the empty list, marked
    permanent, and so is the result when the response has no segments for
    the video. *)
Theorem processSegments_permanent_iff_all_locked (fsub : Z → Z → Z)
    (raws : list typedSegment) :
  (processSegments fsub raws).2 = forallb is_locked raws ∧
  ((processSegments fsub raws).2 = true ↔ ∀ r, r ∈ raws → Locked r = 1) ∧
  processSegments fsub [] = ([], true) ∧
  GetSegments_result fsub None = ([], true).
Proof.
  split_and!; [apply processSegments_permanent| |done..].
  rewrite processSegments_permanent, forallb_forall. unfold is_locked.
  split; intros H r Hr.
  - by apply Z.eqb_eq, H, list_elem_of_In.
  - by apply Z.eqb_eq, H, list_elem_of_In.
Qed.

(** *** Merging the output of a merge *)

(** C9, amended.  The merge is idempotent on records that do not end
    before they start.  For every list of such raw records, the records
    of the output of a merge, merged again, give that output: the same
    segments in the same order, each with the same start, the same end
    and the same ids, and the same permanent flag.  An output segment
    goes back as one record for each of its ids; the records may go back
    in any order, and the two sorts may leave records with equal keys in
    any order: the ids of a segment are compared as a set. *)
Theorem remerge_yields_same_segments (fsub : Z → Z → Z)
    (sort_by_end sort_by_start : list typedSegment → list typedSegment)
    (raws fed : list typedSegment) :
  rounded_sub fsub →
  (∀ l, sort_by_end l ≡ₚ l) →
  (∀ l, sort_by_start l ≡ₚ l) →
  (∀ l, StronglySorted (λ a b, Seg0 a ≤ Seg0 b) (sort_by_start l)) →
  Forall well_formed raws →
  fed ≡ₚ refeed (processSegments_with fsub sort_by_end sort_by_start raws) →
  Forall2 same_segment
    (processSegments_with fsub sort_by_end sort_by_start raws).1
    (processSegments_with fsub sort_by_end sort_by_start fed).1 ∧
  (processSegments_with fsub sort_by_end sort_by_start fed).2
  = (processSegments_with fsub sort_by_end sort_by_start raws).2.
Proof.
  intros Hsub Hend Hstart Hsorted Hwf.
  pose proof (processSegments_with_separated fsub Hsub sort_by_end sort_by_start
                Hsorted raws) as Hsep.
  pose proof (processSegments_with_shape fsub sort_by_end sort_by_start
                Hend Hstart Hsorted raws Hwf) as Hshape.
  pose proof (processSegments_with_ids fsub sort_by_end sort_by_start
                Hend Hstart raws) as Hids.
  pose proof (processSegments_with_permanent fsub sort_by_end sort_by_start
                Hend Hstart raws) as Hperm.
  destruct (processSegments_with fsub sort_by_end sort_by_start raws) as [out p].
  cbn [fst snd] in *. intros Hfed.
  apply (processSegments_with_fed fsub Hsub out p Hsep Hshape); [done..| |done].
  intros ->. simpl in Hids. apply Permutation_nil_l in Hids. symmetry in Hids.
  apply fmap_nil_inv in Hids. by subst raws.
Qed.

Lemma remerge_yields_same_segments_witness :
  Forall well_formed spec_example ∧
  Forall2 same_segment
    (processSegments Z.sub spec_example).1
    (processSegments Z.sub (rev (refeed (processSegments Z.sub spec_example)))).1.
Proof.
  split; [exact spec_example_well_formed|].
  exact (proj1 (remerge_yields_same_segments Z.sub
                  (sort_Slice less_end) (sort_Slice less_start)
                  spec_example
                  (rev (refeed (processSegments Z.sub spec_example)))
                  exact_sub_rounded
                  (sort_Slice_perm less_end) (sort_Slice_perm less_start)
                  (sort_Slice_sorted less_start Seg0 (λ a b, eq_refl))
                  spec_example_well_formed
                  (Permutation_sym (Permutation_rev _)))).
Defined.

(** With the insertion sort, the records fed back in the order of the
    list, the segments come back with their ids in the opposite order. *)
Lemma remerge_in_listed_order (fsub : Z → Z → Z) (raws : list typedSegment) :
  rounded_sub fsub →
  Forall well_formed raws →
  processSegments fsub (refeed (processSegments fsub raws))
  = (reverse_ids <$> (processSegments fsub raws).1, (processSegments fsub raws).2).
Proof.
  intros Hsub Hwf.
  pose proof (processSegments_separated fsub Hsub raws) as Hsep.
  pose proof (processSegments_shape fsub raws Hwf) as Hshape.
  pose proof (processSegments_nil_permanent fsub raws) as Hnil.
  destruct (processSegments fsub raws) as [out p]. cbn [fst snd] in *.
  by apply processSegments_refeed.
Qed.

(** Fed back last id first, they come back as they were: the second merge
    returns the output of the first. *)
Lemma remerge_last_id_first (fsub : Z → Z → Z) (raws : list typedSegment) :
  rounded_sub fsub →
  Forall well_formed raws →
  processSegments fsub
    (refeed (reverse_ids <$> (processSegments fsub raws).1,
             (processSegments fsub raws).2))
  = processSegments fsub raws.
Proof.
  intros Hsub Hwf.
  pose proof (processSegments_separated fsub Hsub raws) as Hsep.
  pose proof (processSegments_shape fsub raws Hwf) as Hshape.
  pose proof (processSegments_nil_permanent fsub raws) as Hnil.
  destruct (processSegments fsub raws) as [out p]. cbn [fst snd] in *.
  rewrite processSegments_refeed.
  - f_equal. rewrite <- list_fmap_compose. rewrite <- (list_fmap_id out) at 2.
    apply list_fmap_ext. intros _ [s e ids] _. unfold reverse_ids. simpl.
    by rewrite rev_involutive.
  - done.
  - clear -Hsep. induction Hsep as [|g l Hl IH Hg]; [constructor|].
    rewrite fmap_cons. constructor; [done|].
    rewrite Forall_fmap. eapply Forall_impl; [exact Hg|]. by intros g'.
  - rewrite Forall_fmap. eapply Forall_impl; [exact Hshape|].
    intros g [Hw Hne]. split; [done|]. simpl.
    intros Hrev. apply Hne. by rewrite <- (rev_involutive (UUIDs g)), Hrev.
  - intros Hnil'. apply Hnil. by apply fmap_nil_inv in Hnil'.
Qed.

(** Merging twice more, in the listed order, gives the output of the first
    merge back. *)
Corollary remerge_twice (fsub : Z → Z → Z) (raws : list typedSegment) :
  rounded_sub fsub →
  Forall well_formed raws →
  processSegments fsub
    (refeed (processSegments fsub (refeed (processSegments fsub raws))))
  = processSegments fsub raws.
Proof.
  intros Hsub Hwf. rewrite (remerge_in_listed_order fsub raws Hsub Hwf).
  by apply remerge_last_id_first.
Qed.

(** C9, as stated, fails on a list with a record that ends before it
    starts: the record is combined with its neighbour by the first merge,
    which returns one segment, and the two records of that segment are
    split by the second merge, which returns two, in whichever order the
    records are fed back. *)
Lemma remerge_malformed_differs :
  let raws := [TypedSegment 1000 1000 "a" 0; TypedSegment 1500 0 "b" 0] in
  processSegments Z.sub raws = ([mkSegment 1000 0 ["b"; "a"]], false) ∧
  processSegments Z.sub (refeed (processSegments Z.sub raws))
  = ([mkSegment 1000 0 ["b"]; mkSegment 1000 0 ["a"]], false) ∧
  ∀ fed, fed ≡ₚ refeed (processSegments Z.sub raws) →
         length (processSegments Z.sub fed).1 = 2%nat.
Proof.
  cbv zeta. split_and!; [reflexivity..|].
  intros fed Hfed. symmetry in Hfed.
  apply Permutation_length_2_inv in Hfed as [-> | ->]; reflexivity.
Qed.

End MergeFacts.

(** ** The segment cache *)

Module SegCacheFacts.
Import SegCache.

Section cache_facts.
Context {V : Type} (R : Range V).

Lemma elem_of_range (m : gmap string (cacheEntry V)) k e :
  (k, e) ∈ range R m ↔ m !! k = Some e.
Proof. by rewrite (range_perm R m), elem_of_map_to_list. Qed.

Lemma purge_cons now (m : gmap string (cacheEntry V)) ke es :
  purge now m (ke :: es)
  = purge now (if After now (expiration ke.2) then delete ke.1 m else m) es.
Proof. done. Qed.

Lemma purge_lookup_cases now (es : list (string * cacheEntry V))
    (m : gmap string (cacheEntry V)) k :
  purge now m es !! k = None ∨ purge now m es !! k = m !! k.
Proof.
  revert m. induction es as [|[k1 e1] es IH]; intros m; [by right|].
  rewrite purge_cons. simpl.
  destruct (IH (if After now (expiration e1) then delete k1 m else m))
    as [-> | ->]; [by left|].
  destruct (After now (expiration e1)); [|by right].
  destruct (decide (k1 = k)) as [->|Hne].
  - left. apply lookup_delete_eq.
  - right. by apply lookup_delete_ne.
Qed.

Lemma purge_lookup now (es : list (string * cacheEntry V))
    (m : gmap string (cacheEntry V)) k :
  ((∃ e, (k, e) ∈ es ∧ After now (expiration e) = true) →
     purge now m es !! k = None) ∧
  ((∀ e, (k, e) ∈ es → After now (expiration e) = false) →
     purge now m es !! k = m !! k).
Proof.
  revert m. induction es as [|[k' e'] es IH]; intros m.
  - split; [|done]. intros (e & He & _). by apply elem_of_nil in He.
  - rewrite purge_cons. simpl.
    destruct (IH (if After now (expiration e') then delete k' m else m))
      as [IH1 IH2].
    split.
    + intros (e & He & Hexp). apply elem_of_cons in He as [Heq|He].
      * injection Heq as <- <-. rewrite Hexp.
        destruct (purge_lookup_cases now es (delete k m) k) as [-> | ->];
          [done|apply lookup_delete_eq].
      * apply IH1. eauto.
    + intros Hall. rewrite IH2.
      * destruct (After now (expiration e')) eqn:Hexp; [|done].
        apply lookup_delete_ne. intros ->.
        specialize (Hall e' ltac:(left)). congruence.
      * intros e He. apply Hall. by right.
Qed.

Lemma lookup_remove_expired now (m : gmap string (cacheEntry V)) k :
  remove_expired R now m !! k
  = match m !! k with
    | Some e => if After now (expiration e) then None else Some e
    | None => None
    end.
Proof.
  unfold remove_expired.
  destruct (purge_lookup now (range R m) m k) as [H1 H2].
  destruct (m !! k) as [e|] eqn:Hk.
  - destruct (After now (expiration e)) eqn:Hexp.
    + apply H1. exists e. by rewrite elem_of_range.
    + rewrite H2; [done|]. intros e' He'%elem_of_range. congruence.
  - rewrite H2; [done|]. intros e' He'%elem_of_range. congruence.
Qed.

Lemma oldest_snoc (es : list (string * cacheEntry V)) ke :
  oldest (es ++ [ke])
  = if IsZero (oldest es).2 || Before (expiration ke.2) (oldest es).2
    then (ke.1, expiration ke.2) else oldest es.
Proof. unfold oldest. by rewrite foldl_snoc. Qed.

(** On entries that expire after the zero time the loop finds an entry
    whose expiration is the earliest. *)
Lemma oldest_earliest (es : list (string * cacheEntry V)) :
  es ≠ [] → Forall (λ ke, 0 < expiration ke.2) es →
  0 < (oldest es).2 ∧
  (∃ e, ((oldest es).1, e) ∈ es ∧ expiration e = (oldest es).2) ∧
  ∀ ke, ke ∈ es → (oldest es).2 ≤ expiration ke.2.
Proof.
  induction es as [|[k e] es IH] using rev_ind; [done|]. intros _ Hpos.
  apply Forall_app in Hpos as [Hpos [Hke _]%Forall_cons]. simpl in Hke.
  rewrite oldest_snoc. simpl.
  destruct (decide (es = [])) as [->|Hne].
  { simpl. split_and!; [done|exists e; split; [by left|done]|].
    intros ke ->%list_elem_of_singleton. done. }
  destruct (IH Hne Hpos) as (Hp & (e0 & He0 & Hexp0) & Hmin).
  unfold IsZero, Before.
  destruct (Z.eqb_spec (oldest es).2 0) as [?|_]; [lia|]. simpl.
  destruct (Z.ltb_spec (expiration e) (oldest es).2) as [Hlt|Hge]; simpl.
  - split_and!; [done| |].
    + exists e. split; [|done]. apply elem_of_app. right. by left.
    + intros ke [Hin| ->%list_elem_of_singleton]%elem_of_app; [|simpl; lia].
      specialize (Hmin ke Hin). lia.
  - split_and!; [done| |].
    + exists e0. split; [|done]. apply elem_of_app. by left.
    + intros ke [Hin| ->%list_elem_of_singleton]%elem_of_app; [by apply Hmin|done].
Qed.

End cache_facts.

Section set_facts.
Context {V : Type} (R : Range V).

Lemma lookup_remove_expired_Some now (c : Cache V) k e :
  remove_expired R now (entries c) !! k = Some e ↔ unexpired now c k e.
Proof.
  rewrite lookup_remove_expired. unfold unexpired, After.
  destruct (entries c !! k) as [e'|]; [|by split; [|intros [??]]].
  destruct (Z.ltb_spec (expiration e') now); split.
  - done.
  - intros [[= ->] ?]. lia.
  - intros [= ->]. done.
  - by intros [[= ->] ?].
Qed.

Lemma remove_oldest_lookup now (c : Cache V) k e :
  0 < now →
  unexpired now c k e →
  remove_oldest R (maxSize c) (remove_expired R now (entries c)) !! k = None →
  maxSize c ≤ Z.of_nat (size (remove_expired R now (entries c))) ∧
  (oldest (range R (remove_expired R now (entries c)))).1 = k ∧
  ∀ k' e', unexpired now c k' e' → expiration e ≤ expiration e'.
Proof.
  intros Hnow Hk%lookup_remove_expired_Some. unfold remove_oldest.
  set (m := remove_expired R now (entries c)) in *.
  destruct (Z.geb_spec (Z.of_nat (size m)) (maxSize c)) as [Hfull|_];
    [|congruence].
  intros Hdel. split; [lia|].
  assert ((oldest (range R m)).1 = k) as Hko.
  { destruct (decide ((oldest (range R m)).1 = k)) as [|Hne]; [done|].
    rewrite lookup_delete_ne in Hdel by done. congruence. }
  split; [done|].
  destruct (oldest_earliest (range R m)) as (_ & (e0 & He0 & Hexp0) & Hmin).
  - intros Hnil. apply (elem_of_range R) in Hk. rewrite Hnil in Hk.
    by apply elem_of_nil in Hk.
  - apply Forall_forall. intros [k1 e1] H1%elem_of_range.
    apply lookup_remove_expired_Some in H1 as [_ H1]. simpl. lia.
  - rewrite Hko in He0. apply elem_of_range in He0.
    assert (e0 = e) as -> by congruence.
    intros k' e' Hk'%lookup_remove_expired_Some. fold m in Hk'.
    apply (elem_of_range R) in Hk'.
    rewrite Hexp0. apply (Hmin _ Hk').
Qed.

(** A cache that is full after the purge loses an entry of earliest
    expiration. *)
Lemma remove_oldest_full now (c : Cache V) :
  0 < now →
  maxSize c ≤ Z.of_nat (size (remove_expired R now (entries c))) →
  (∃ k e, unexpired now c k e) →
  ∃ k e, unexpired now c k e ∧
         (∀ k' e', unexpired now c k' e' → expiration e ≤ expiration e') ∧
         remove_oldest R (maxSize c) (remove_expired R now (entries c))
         = delete k (remove_expired R now (entries c)).
Proof.
  intros Hnow Hfull (k1 & e1 & H1%lookup_remove_expired_Some).
  unfold remove_oldest.
  set (m := remove_expired R now (entries c)) in *.
  destruct (Z.geb_spec (Z.of_nat (size m)) (maxSize c)) as [_|?]; [|lia].
  destruct (oldest_earliest (range R m)) as (_ & (e0 & He0 & Hexp0) & Hmin).
  - intros Hnil. apply (elem_of_range R) in H1. rewrite Hnil in H1.
    by apply elem_of_nil in H1.
  - apply Forall_forall. intros [k e] Hke%elem_of_range.
    apply lookup_remove_expired_Some in Hke as [_ Hke]. simpl. lia.
  - exists (oldest (range R m)).1, e0. split_and!; [|  |done].
    + apply lookup_remove_expired_Some. by apply elem_of_range in He0.
    + intros k' e' Hk'%lookup_remove_expired_Some. fold m in Hk'.
      apply (elem_of_range R) in Hk'. rewrite Hexp0. apply (Hmin _ Hk').
Qed.

Lemma Get_entries (c : Cache V) now k0 k e :
  entries (Get c now k0).2 !! k = Some e → entries c !! k = Some e.
Proof.
  unfold Get. destruct (entries c !! k0) as [e0|]; [|done].
  destruct (After now (expiration e0)); [|done]. simpl.
  intros H. by apply lookup_delete_Some in H as [_ H].
Qed.

End set_facts.

Example lru_scenario_run :
  lru_scenario
  = (Some "va",
     mkCache (<["b" := CacheEntry "vb" 302000]>
                (<["c" := CacheEntry "vc" 304000]> ∅)) 300000 2).
Proof. vm_compute. reflexivity. Qed.

(** C5, as stated, fails: in a cache of capacity two, [a] is stored, then
    [b], then [a] is read successfully; storing [c] then evicts [a], the
    entry used last, and keeps [b], which was used before it. *)
Lemma lru_scenario_evicts_entry_just_read :
  lru_scenario.1 = Some "va" ∧
  entries lru_scenario.2 !! "a" = None ∧
  entries lru_scenario.2 !! "b" = Some (CacheEntry "vb" 302000).
Proof. rewrite lru_scenario_run. done. Qed.

(** C5, amended.  When [Set] finds the cache at or above its capacity
    after purging the expired entries, it evicts an entry, and the entry
    it evicts is one whose expiration time is the earliest, that is the
    entry written least recently by [Set]; below its capacity it evicts
    none.  At most one unexpired entry is evicted and the others are kept
    unchanged.  The entry written by [Set] gets the latest expiration,
    [now + ttl], whereas [Get] changes the expiration of no entry, so that
    reading an entry does not protect it from eviction. *)
Theorem Set_evicts_earliest_expiration {V : Type} (R : Range V)
    (c : Cache V) (now : Z) (key : string) (v : V) :
  0 < now →
  entries (Set_ R c now key v) !! key = Some (CacheEntry v (now + ttl c)) ∧
  (∀ k e, k ≠ key → unexpired now c k e →
     entries (Set_ R c now key v) !! k = None →
     maxSize c ≤ Z.of_nat (size (remove_expired R now (entries c))) ∧
     ∀ k' e', unexpired now c k' e' → expiration e ≤ expiration e') ∧
  (∀ k1 e1 k2 e2, k1 ≠ key → k2 ≠ key →
     unexpired now c k1 e1 → unexpired now c k2 e2 →
     entries (Set_ R c now key v) !! k1 = None →
     entries (Set_ R c now key v) !! k2 = None → k1 = k2) ∧
  (∀ k e, k ≠ key → entries (Set_ R c now key v) !! k = Some e →
     unexpired now c k e) ∧
  (∀ k0 k e, entries (Get c now k0).2 !! k = Some e → entries c !! k = Some e) ∧
  (maxSize c ≤ Z.of_nat (size (remove_expired R now (entries c))) →
   (∃ k e, unexpired now c k e) →
   ∃ k e, unexpired now c k e ∧
          (∀ k' e', unexpired now c k' e' → expiration e ≤ expiration e') ∧
          entries (Set_ R c now key v)
          = <[key := CacheEntry v (now + ttl c)]>
              (delete k (remove_expired R now (entries c))) ∧
          (k ≠ key → entries (Set_ R c now key v) !! k = None)) ∧
  (Z.of_nat (size (remove_expired R now (entries c))) < maxSize c →
   entries (Set_ R c now key v)
   = <[key := CacheEntry v (now + ttl c)]> (remove_expired R now (entries c))).
Proof.
  intros Hnow. unfold Set_. cbn [entries]. split_and!.
  - apply lookup_insert_eq.
  - intros k e Hne Hk. rewrite lookup_insert_ne by done. intros Hdel.
    destruct (remove_oldest_lookup R now c k e Hnow Hk Hdel) as (? & _ & ?).
    done.
  - intros k1 e1 k2 e2 Hne1 Hne2 H1 H2. rewrite !lookup_insert_ne by done.
    intros Hd1 Hd2.
    destruct (remove_oldest_lookup R now c k1 e1 Hnow H1 Hd1) as (_ & <- & _).
    by destruct (remove_oldest_lookup R now c k2 e2 Hnow H2 Hd2) as (_ & <- & _).
  - intros k e Hne. rewrite lookup_insert_ne by done. unfold remove_oldest.
    intros Hk. apply (lookup_remove_expired_Some R).
    destruct (_ >=? _); [|done]. by apply lookup_delete_Some in Hk as [_ Hk].
  - apply Get_entries.
  - intros Hfull Hsome.
    destruct (remove_oldest_full R now c Hnow Hfull Hsome)
      as (k & e & Hk & Hmin & ->).
    exists k, e. split_and!; [done..|].
    intros Hne. rewrite lookup_insert_ne by done. apply lookup_delete_eq.
  - intros Hbelow. unfold remove_oldest.
    by destruct (Z.geb_spec (Z.of_nat (size (remove_expired R now (entries c))))
                   (maxSize c)); [lia|].
Qed.

(** In the scenario the cache is full when [c] is stored, and an entry is
    evicted for it. *)
Lemma Set_evicts_earliest_expiration_witness :
  0 < 4000 ∧
  ∃ k e, unexpired 4000 (Get lru_scenario_before_c 3000 "a").2 k e ∧
         entries (Set_ map_to_list_range (Get lru_scenario_before_c 3000 "a").2
                    4000 "c" "vc")
         = <["c" := CacheEntry "vc" 304000]>
             (delete k (remove_expired map_to_list_range 4000
                          (entries (Get lru_scenario_before_c 3000 "a").2))).
Proof.
  split; [lia|].
  destruct (proj1 (proj2 (proj2 (proj2 (proj2 (proj2
              (Set_evicts_earliest_expiration map_to_list_range
                 (Get lru_scenario_before_c 3000 "a").2 4000 "c" "vc"
                 ltac:(lia)))))))) as (k & e & Hk & _ & Hset & _).
  - apply Z.leb_le. vm_compute. reflexivity.
  - exists "a", (CacheEntry "va" 301000). split; [reflexivity|].
    apply Z.leb_le. vm_compute. reflexivity.
  - exists k, e. split; [exact Hk|exact Hset].
Defined.

(** The same for every order in which Go may visit the maps. *)
Section any_range.
Context (R : Range string).

Lemma remove_expired_all_unexpired now (m : gmap string (cacheEntry string)) :
  (∀ k e, m !! k = Some e → now ≤ expiration e) →
  remove_expired R now m = m.
Proof.
  intros Hm. apply map_eq. intros k. rewrite lookup_remove_expired.
  destruct (m !! k) as [e|] eqn:Hk; [|done].
  specialize (Hm k e Hk). unfold After.
  destruct (Z.ltb_spec (expiration e) now); [lia|done].
Qed.

Lemma Set_below_capacity (c : Cache string) now key v :
  (∀ k e, entries c !! k = Some e → now ≤ expiration e) →
  Z.of_nat (size (entries c)) < maxSize c →
  Set_ R c now key v
  = mkCache (<[key := CacheEntry v (now + ttl c)]> (entries c)) (ttl c) (maxSize c).
Proof.
  intros Hlive Hsize. unfold Set_.
  rewrite remove_expired_all_unexpired by done. unfold remove_oldest.
  destruct (Z.geb_spec (Z.of_nat (size (entries c))) (maxSize c)); [lia|done].
Qed.

Lemma lru_scenario_before_c_any_range :
  lru_scenario_before_c_with R
  = mkCache (<["b" := CacheEntry "vb" 302000]>
               (<["a" := CacheEntry "va" 301000]> ∅)) 300000 2.
Proof.
  unfold lru_scenario_before_c_with, NewCache.
  rewrite (Set_below_capacity (mkCache ∅ 300000 2)); [|done|done].
  cbn [entries ttl maxSize].
  rewrite Set_below_capacity; [done| |done].
  cbn [entries]. intros k e Hk.
  apply lookup_insert_Some in Hk as [[_ <-]|[_ Hk]]; [simpl; lia|done].
Qed.

Lemma lru_scenario_any_range :
  (lru_scenario_with R).1 = Some "va" ∧
  entries (lru_scenario_with R).2 !! "a" = None ∧
  entries (lru_scenario_with R).2 !! "b" = Some (CacheEntry "vb" 302000).
Proof.
  unfold lru_scenario_with. rewrite lru_scenario_before_c_any_range.
  set (c := mkCache (<["b" := CacheEntry "vb" 302000]>
                       (<["a" := CacheEntry "va" 301000]> ∅)) 300000 2).
  assert (Get c 3000 "a" = (Some "va", c)) as -> by done.
  cbn [fst snd]. split; [done|].
  assert (unexpired 4000 c "a" (CacheEntry "va" 301000)) as Ha.
  { split; [done|simpl; lia]. }
  assert (unexpired 4000 c "b" (CacheEntry "vb" 302000)) as Hb.
  { split; [done|simpl; lia]. }
  assert (remove_expired R 4000 (entries c) = entries c) as Hlive.
  { apply remove_expired_all_unexpired. intros k e Hk.
    unfold c in Hk. cbn [entries] in Hk.
    apply lookup_insert_Some in Hk as [[_ <-]|[_ Hk]]; [simpl; lia|].
    apply lookup_insert_Some in Hk as [[_ <-]|[_ Hk]]; [simpl; lia|done]. }
  unfold Set_. cbn [entries]. rewrite !lookup_insert_ne by done.
  rewrite Hlive. unfold remove_oldest.
  assert (size (entries c) = 2%nat) as -> by (vm_compute; done).
  assert ((Z.of_nat 2 >=? maxSize c) = true) as -> by done.
  destruct (oldest_earliest (range R (entries c))) as (_ & (e0 & He0 & Hexp0) & Hmin).
  - intros Hnil. destruct Ha as [Ha _]. apply (elem_of_range R) in Ha.
    rewrite Hnil in Ha. by apply elem_of_nil in Ha.
  - apply Forall_forall. intros [k e] Hke%elem_of_range. simpl.
    unfold c in Hke. cbn [entries] in Hke.
    apply lookup_insert_Some in Hke as [[_ <-]|[_ Hke]]; [simpl; lia|].
    apply lookup_insert_Some in Hke as [[_ <-]|[_ Hke]]; [simpl; lia|done].
  - pose proof (Hmin ("a", CacheEntry "va" 301000)
                  (proj2 (elem_of_range R _ _ _) (proj1 Ha))) as Hle.
    simpl in Hle. apply elem_of_range in He0.
    clear Ha Hb Hlive Hmin. unfold c in *. clear c. cbn [entries] in *.
    apply lookup_insert_Some in He0 as [[Hk <-]|[Hk He0]].
    { simpl in Hexp0. lia. }
    apply lookup_insert_Some in He0 as [[Hk' <-]|[_ He0]]; [|done].
    rewrite <- Hk'. split; [apply lookup_delete_eq|].
    by rewrite lookup_delete_ne.
Qed.

End any_range.

End SegCacheFacts.

(** ** The lounge session *)

Module LoungeFacts.
Import Lounge.

Lemma event_step_refl w : event_step w w.
Proof.
  split_and!; [done..|]. exists []. by rewrite app_nil_r.
Qed.

Lemma event_step_trans w1 w2 w3 :
  event_step w1 w2 → event_step w2 w3 → event_step w1 w3.
Proof.
  intros (Ht1 & Hu1 & Hc1 & gs1 & Hs1 & Hg1) (Ht2 & Hu2 & Hc2 & gs2 & Hs2 & Hg2).
  split_and!; [congruence|congruence|set_solver|].
  exists (gs1 ++ gs2). rewrite Hs2, Hs1, app_assoc.
  split; [done|]. by apply Forall_app.
Qed.

Lemma event_step_go g w : other_goroutine g → event_step w (go g w).
Proof.
  intros Hg. split_and!; [done..|]. exists [g]. split; [done|].
  by constructor.
Qed.

Lemma event_step_cancel c w : event_step w (cancel c w).
Proof.
  split_and!; [done|done|simpl; set_solver|]. exists []. by rewrite app_nil_r.
Qed.

Lemma event_step_with_api f w :
  (∀ y, watchdogTask (f y) = watchdogTask y ∧
        subscribeTask (f y) = subscribeTask y) →
  event_step w (with_api f w).
Proof.
  intros Hf. split_and!; [apply Hf|apply Hf|done|].
  exists []. by rewrite app_nil_r.
Qed.

Ltac event_steps :=
  repeat first
    [ apply event_step_refl
    | eapply event_step_trans; [|apply event_step_go; exact I]
    | eapply event_step_trans; [|apply event_step_cancel]
    | eapply event_step_trans; [|apply event_step_with_api; done] ].

Section switch.
Context (bl : list string).
Context (ud : string → option (list (gmap string value))).
Context (ui : string → option (gmap string value)).
Context (pf : string → option Z).

Lemma skip_or_mute_step data w : event_step w (skip_or_mute data w).
Proof. unfold skip_or_mute. repeat case_match; event_steps. Qed.

Lemma ProcessEvent_switch_step w eventType args f :
  ProcessEvent_switch bl ud ui pf w eventType args = Returned f →
  event_step w (match f with Next w' | Return w' => w' end).
Proof.
  unfold ProcessEvent_switch, arg0.
  repeat case_match; intros [= <-];
    try (eapply event_step_trans; [|apply skip_or_mute_step]);
    event_steps.
Qed.

Lemma ProcessEvent_step w eventType args w' :
  ProcessEvent bl ud ui pf w eventType args = Returned w' →
  event_step (cancel_if_set (watchdogTask (api w)) w) w'.
Proof.
  unfold ProcessEvent.
  destruct (ProcessEvent_switch _ _ _ _ _ _ _) as [f|] eqn:Hsw; [|done].
  apply ProcessEvent_switch_step in Hsw.
  destruct f as [w1|w1]; [|by intros [= <-]].
  repeat case_match; intros [= <-]; done.
Qed.

End switch.

Lemma omap_watchdogs_other (P : nat → option nat) gs :
  Forall other_goroutine gs →
  omap (λ g, match g with GoWatchdog ctx => P ctx | _ => None end) gs = [].
Proof.
  induction 1 as [|g gs Hg _ IH]; [done|].
  destruct g; first [done|exact IH].
Qed.

Lemma omap_subscriptions_other gs :
  Forall other_goroutine gs →
  omap (λ g, match g with GoSubscribe ctx => Some ctx | _ => None end) gs = [].
Proof.
  induction 1 as [|g gs Hg _ IH]; [done|].
  destruct g; first [done|exact IH].
Qed.

(** The world right after [SubscribeMonitored] on a fresh session: the
    subscription runs under context 0, the watchdog under context 1. *)
Lemma SubscribeMonitored_initial m s a cb :
  SubscribeMonitored (initial_world (configured m s a)) cb
  = mkWorld (mkApi ∅ 1000 (Some 0%nat) (Some 1%nat) (Some cb) false a m s)
      ∅ 2 [GoSubscribe 0; GoWatchdog 1].
Proof. done. Qed.

(** C3 fails on the code.  After [SubscribeMonitored] on a fresh session,
    any event that [ProcessEvent] handles leaves no live watchdog: the
    watchdog context is cancelled and none is started, so that a later
    firing of the ticker changes nothing; the handle of the subscription
    stays in place and the watchdog never tears the subscription down.  And when the watchdog does fire (no event before it), it
    cancels the subscription and clears the handle without starting any
    subscription. *)
Theorem event_stops_watchdog bl ud ui pf (m s a : bool) cb eventType args w' :
  ProcessEvent bl ud ui pf
    (SubscribeMonitored (initial_world (configured m s a)) cb) eventType args
  = Returned w' →
  (live_watchdogs w' = [] ∧ subscriptions w' = [0%nat] ∧
   subscribeTask (api w') = Some 0%nat ∧ watchdog_tick 1 w' = w') ∧
  (let w1 := watchdog_tick 1
               (SubscribeMonitored (initial_world (configured m s a)) cb) in
   subscribeTask (api w1) = None ∧ 0%nat ∈ cancelled w1 ∧
   subscriptions w1 = [0%nat]).
Proof.
  intros Hev. split; [|by rewrite SubscribeMonitored_initial].
  apply ProcessEvent_step in Hev as (Hwt & Hst & Hc & gs & Hsp & Hgs).
  rewrite SubscribeMonitored_initial in Hwt, Hst, Hc, Hsp.
  simpl in Hwt, Hst, Hc, Hsp.
  assert (1%nat ∈ cancelled w') as H1 by set_solver.
  split_and!; [| |done|].
  - unfold live_watchdogs. rewrite Hsp. simpl.
    rewrite decide_True by done. by apply omap_watchdogs_other.
  - unfold subscriptions. rewrite Hsp. simpl. f_equal.
    by apply omap_subscriptions_other.
  - unfold watchdog_tick. by rewrite decide_True.
Qed.

Lemma event_stops_watchdog_witness :
  ∃ w',
    ProcessEvent YouTubeClientBlacklist decode_devices decode_info no_float
      (SubscribeMonitored (initial_world (configured true true true)) quiet)
      "onAutoplayModeChanged" []
    = Returned w' ∧
    live_watchdogs w' = [].
Proof.
  eexists. split; [reflexivity|].
  refine (proj1 (proj1 (event_stops_watchdog YouTubeClientBlacklist
            decode_devices decode_info no_float true true true quiet
            "onAutoplayModeChanged" [] _ eq_refl))).
Defined.

(** C10.  When the first argument of a "loungeStatus" event names a
    blacklisted client, [ProcessEvent] calls [y.subscribeTask]: the call
    panics on a nil function exactly when the handle is [nil], and
    otherwise cancels the subscription and returns.  The handle is [nil]
    once the watchdog has fired: after [SubscribeMonitored] on a fresh
    session, a firing of the watchdog cancels the subscription and clears
    the handle, and the event then panics. *)
Theorem blacklisted_status_needs_subscription bl ud ui pf
    (m s a : bool) cb (status : value) (rest : list value) :
  force_disconnect bl ud ui status = true →
  (∀ w, ProcessEvent bl ud ui pf w "loungeStatus" (status :: rest)
          = Panicked NilFuncCall
        ↔ subscribeTask (api w) = None) ∧
  (∀ w sub, subscribeTask (api w) = Some sub →
     ∃ w', ProcessEvent bl ud ui pf w "loungeStatus" (status :: rest)
           = Returned w' ∧ sub ∈ cancelled w') ∧
  (let w := watchdog_tick 1
              (SubscribeMonitored (initial_world (configured m s a)) cb) in
   0%nat ∈ cancelled w ∧ subscribeTask (api w) = None ∧
   ProcessEvent bl ud ui pf w "loungeStatus" (status :: rest)
   = Panicked NilFuncCall).
Proof.
  intros Hforce.
  assert (∀ w, ProcessEvent bl ud ui pf w "loungeStatus" (status :: rest)
               = match subscribeTask (api w) with
                 | Some sub =>
                     Returned (cancel sub (cancel_if_set (watchdogTask (api w)) w))
                 | None => Panicked NilFuncCall
                 end) as Hev.
  { intros w. unfold ProcessEvent, ProcessEvent_switch. cbn -[cancel].
    rewrite Hforce.
    assert (subscribeTask (api (cancel_if_set (watchdogTask (api w)) w))
            = subscribeTask (api w)) as -> by by destruct (watchdogTask (api w)).
    by destruct (subscribeTask (api w)). }
  split_and!.
  - intros w. rewrite Hev. by destruct (subscribeTask (api w)).
  - intros w sub Hsub. rewrite Hev, Hsub. eexists. split; [done|].
    simpl. set_solver.
  - cbv zeta. rewrite Hev, SubscribeMonitored_initial. cbn.
    split_and!; [set_solver|done..].
Qed.

Lemma blacklisted_status_needs_subscription_witness :
  force_disconnect YouTubeClientBlacklist decode_devices decode_info
    (VMap {["devices" := VStr "devices"]}) = true ∧
  ProcessEvent YouTubeClientBlacklist decode_devices decode_info no_float
    (watchdog_tick 1
       (SubscribeMonitored (initial_world (configured true true true)) quiet))
    "loungeStatus" kids_status
  = Panicked NilFuncCall.
Proof.
  assert (force_disconnect YouTubeClientBlacklist decode_devices decode_info
            (VMap {["devices" := VStr "devices"]}) = true) as Hforce
    by reflexivity.
  split; [exact Hforce|].
  exact (proj2 (proj2 (proj2 (proj2 (blacklisted_status_needs_subscription
            YouTubeClientBlacklist decode_devices decode_info no_float
            true true true quiet _ [] Hforce))))).
Defined.

(** The guarded handler of the same type returns on every event and every
    argument list, unless the callback panics. *)
Lemma handleEvent_returns pf w event args :
  (∀ cb, callback (api w) = Some cb → ∃ u, cb event args = Returned u) →
  ∃ w', handleEvent pf w event args = Returned w'.
Proof.
  intros Hcb. unfold handleEvent.
  assert (callback (api (handleEvent_switch pf w event args)) = callback (api w))
    as Heq.
  { unfold handleEvent_switch. by repeat case_match. }
  rewrite Heq. destruct (callback (api w)) as [cb|]; [|by eexists].
  destruct (Hcb cb eq_refl) as [u ->]. by eexists.
Qed.

End LoungeFacts.

(** ** The device listener *)

Module ListenerFacts.
Import Merge Listener.

(** *** The selection of the next segment *)

Lemma sorted_by_start_cons segment rest :
  sorted_by_start (segment :: rest) →
  (∀ s, s ∈ rest → Start segment ≤ Start s) ∧ sorted_by_start rest.
Proof.
  intros Hs. split.
  - intros s [i Hi]%list_elem_of_lookup.
    apply (Hs 0%nat (S i) segment s); [lia|done..].
  - intros i j a b Hij Hi Hj. apply (Hs (S i) (S j) a b); [lia|done..].
Qed.

Lemma isWithinStartRange_spans position segment :
  isWithinStartRange position segment
  = (position <? second) && spans_opening_window position segment.
Proof.
  unfold isWithinStartRange, spans_opening_window. rewrite Z.gtb_ltb.
  destruct (Z.ltb_spec position second), (Z.ltb_spec second (End_ segment)),
    (Z.leb_spec (Start segment) position),
    (Z.ltb_spec position (End_ segment)); simpl; try done; lia.
Qed.

Lemma find_None_all {A : Type} (f : A → bool) (l : list A) :
  (∀ x, x ∈ l → f x = false) → find f l = None.
Proof.
  induction l as [|x l IH]; intros Hl; simpl; [done|].
  rewrite (Hl x) by left. apply IH. intros y Hy. apply Hl. by right.
Qed.

Lemma next_segment_spec_target segments position :
  sorted_by_start segments →
  next_segment segments position = spec_target segments position.
Proof.
  induction segments as [|segment rest IH]; intros Hsorted.
  { unfold spec_target. simpl. by destruct (_ <? _). }
  apply sorted_by_start_cons in Hsorted as [Hfirst Hrest].
  specialize (IH Hrest). simpl. rewrite IH. clear IH.
  unfold spec_target. simpl.
  rewrite isWithinStartRange_spans.
  unfold isBeyondCurrentPosition. rewrite Z.gtb_ltb.
  destruct (Z.ltb_spec position second) as [Hopen|Hlate]; simpl.
  - destruct (spans_opening_window position segment) eqn:Hspan; simpl; [done|].
    destruct (Z.ltb_spec position (Start segment)) as [Hbeyond|]; [|done].
    rewrite find_None_all; [done|].
    intros s Hs. specialize (Hfirst s Hs). unfold spans_opening_window.
    destruct (Z.leb_spec (Start s) position); [lia|done].
  - by destruct (Z.ltb_spec position (Start segment)).
Qed.



(** *** Firing a skip *)

Lemma skip_inv_start d c : skip_inv d c skip_start.
Proof. done. Qed.

Lemma skip_inv_step d c s s' :
  skip_inv d c s → s' ∈ skip d c s → skip_inv d c s'.
Proof.
  destruct s as [pc rp w tr]. unfold skip_inv, skip, caller_step, report_steps.
  cbn [caller report wg trace].
  destruct pc, rp; try (intros []; fail); intros [-> Htr];
    cbn -[skip_trace skip_base];
    intros Hin;
    repeat (apply elem_of_cons in Hin as [->|Hin]);
    try (by apply elem_of_nil in Hin);
    cbn -[skip_trace skip_base]; try (subst tr; done).
  - subst tr. split; [done|]. by exists err.
  - split; [lia|done].
  - done.
Qed.

Lemma skip_runs_inv d c s : skip_runs d c s → skip_inv d c s.
Proof.
  unfold skip_runs. revert s. apply rtc_ind_r; [apply skip_inv_start|].
  intros s s' _ Hstep Hinv. by eapply skip_inv_step.
Qed.

Lemma skip_runs_step d c s s' :
  skip_runs d c s → s' ∈ skip d c s → skip_runs d c s'.
Proof. intros Hs Hstep. by eapply rtc_r. Qed.

Lemma skip_runs_head d c s s' :
  skip_runs d c s → head (skip d c s) = Some s' → skip_runs d c s'.
Proof.
  intros Hs Hhd. eapply skip_runs_step; [exact Hs|].
  destruct (skip d c s); simpl in Hhd; simplify_eq. left.
Qed.

(** The run up to the call of the report. *)
Lemma skip_calls_report d c :
  skip_runs d c (SkipState AtWait InCall 1
                   (skip_base c ++ [MarkViewedSegments (uuids c)])).
Proof.
  pose proof (rtc_refl _ _ : skip_runs d c skip_start) as H.
  do 5 (eapply skip_runs_head in H; [|reflexivity]). exact H.
Qed.

(** The run in which the report returns [err]. *)
Lemma skip_returns d c err :
  ∃ s, skip_runs d c s ∧ caller s = SkipReturned ∧ report s = Exited ∧
       trace s = skip_trace d c err.
Proof.
  pose proof (skip_calls_report d c) as H.
  apply (skip_runs_step _ _ _
           (SkipState AtWait (AtCheck err) 1
              (skip_base c ++ [MarkViewedSegments (uuids c);
                               MarkViewedSegments_returns err]))) in H.
  2:{ unfold skip. cbn. destruct err; [right|]; left. }
  do 3 (eapply skip_runs_head in H; [|reflexivity]).
  eexists. split; [exact H|]. by split_and!.
Qed.

(** No run of [skip] sends a command to the device, although it logs
    that it seeks. *)
Lemma skip_sends_no_command d c s :
  skip_runs d c s → commands_sent (trace s) = [].
Proof.
  intros Hs%skip_runs_inv. revert Hs.
  destruct s as [pc rp w tr]. unfold skip_inv. cbn [caller report wg trace].
  destruct pc, rp; try (intros []; fail); intros [_ Htr];
    try (by subst tr); destruct Htr as [[] ->]; cbn; by destruct (debug d).
Qed.

(** C1, as stated, fails: for the segment list and the sample of the
    example of the specification a skip is scheduled and fires; a run
    reaches a state in which the report has been called and has not
    returned, and there the path that fired the skip stands at
    [wg.Wait()] and has no step: the only steps are the two returns of the
    report, and after either the path still stands there. *)
Lemma fired_skip_blocks_on_report :
  let d := mkDeviceListener tv false None false in
  let c := Skip 5000 8000 ["id1"] in
  let s := SkipState AtWait InCall 1
             [Sleep 5000; Infof "Skipping segment: seeking to %f" 8000;
              MarkViewedSegments ["id1"]] in
  timeToSegment Z.sub d [mkSegment 5000 8000 ["id1"]] 0 0 = Some c ∧
  skip_runs d c s ∧
  caller_step c s = None ∧
  skip d c s
  = [SkipState AtWait (AtCheck false) 1
       (trace s ++ [MarkViewedSegments_returns false]);
     SkipState AtWait (AtCheck true) 1
       (trace s ++ [MarkViewedSegments_returns true])].
Proof.
  cbv zeta. split_and!.
  - reflexivity.
  - apply (skip_calls_report _ (Skip 5000 8000 ["id1"])).
  - reflexivity.
  - reflexivity.
Qed.

(** C1, amended.  For every scheduled skip that fires, the identifiers of
    the fired segment, and no others, are handed to the mark-viewed
    collaborator by a goroutine of its own, once; the error it returns is
    logged when [debug] is set and dropped otherwise, and in both cases
    the run goes on to the return of [skip]; and the path that fired the
    skip waits for the report: while the report is under way the path
    stands at [wg.Wait()], where it has no step, and when it has returned
    the report has returned too. *)
Theorem fired_skip_reports_ids_and_waits fsub d segments position since
    nextSegment startNextSegment :
  next_segment segments position = Some (nextSegment, startNextSegment) →
  ∃ c, timeToSegment fsub d segments position since = Some c ∧
       uuids c = UUIDs nextSegment ∧
       (∀ s, skip_runs d c s →
          (∃ err, trace s `prefix_of` skip_trace d c err) ∧
          (report s ≠ NotStarted → report s ≠ Exited → caller s = AtWait) ∧
          (caller s = AtWait → report s ≠ Exited → caller_step c s = None) ∧
          (caller s = SkipReturned →
             report s = Exited ∧ ∃ err, trace s = skip_trace d c err)) ∧
       (∀ err, ∃ s, skip_runs d c s ∧ caller s = SkipReturned ∧
                    trace s = skip_trace d c err).
Proof.
  intros Hnext. unfold timeToSegment. rewrite Hnext.
  set (c := Skip _ _ _). exists c.
  split; [reflexivity|]. split; [reflexivity|]. split.
  - intros s Hs%skip_runs_inv. revert Hs.
    destruct s as [pc rp w tr]. unfold skip_inv. cbn [caller report wg trace].
    destruct pc, rp; try (intros []; fail); intros [-> Htr];
      (split_and!; [|done..]).
    + exists false. subst tr. apply prefix_nil.
    + exists false. subst tr. by eexists.
    + exists false. subst tr. by eexists.
    + exists false. subst tr. by eexists.
    + exists false. subst tr. by eexists.
    + exists false. subst tr. by eexists.
    + exists err. subst tr. by eexists.
    + destruct Htr as [err ->]. by exists err.
    + destruct Htr as [err ->]. by exists err.
    + destruct Htr as [err ->]. by exists err.
  - intros err. destruct (skip_returns d c err) as (s & ? & ? & _ & ?).
    by exists s.
Qed.

Lemma fired_skip_reports_ids_and_waits_witness :
  next_segment [mkSegment 5000 8000 ["id1"]] 0
  = Some (mkSegment 5000 8000 ["id1"], 5000) ∧
  ∃ c, timeToSegment Z.sub (mkDeviceListener tv true None false)
         [mkSegment 5000 8000 ["id1"]] 0 0 = Some c ∧
       uuids c = ["id1"].
Proof.
  split; [reflexivity|].
  destruct (fired_skip_reports_ids_and_waits Z.sub
              (mkDeviceListener tv true None false)
              [mkSegment 5000 8000 ["id1"]] 0 0 _ _ eq_refl)
    as (c & Hc & Hids & _).
  exists c. split; [exact Hc|exact Hids].
Defined.

(** *** Scheduling *)

Lemma pending_all w : pending w = goroutines w.
Proof.
  unfold pending. induction (goroutines w) as [|g gs IH]; [done|].
  simpl. destruct g. simpl. by rewrite IH.
Qed.

(** C6 fails on the code.  A new schedule cancels the context of the task
    before it, but the goroutine of that task was given no context: it
    stays pending.  After two playback states in a row both goroutines are
    pending, the one of the earlier state too, although its context is
    cancelled. *)
Theorem new_schedule_keeps_pending_skip :
  (∀ w state now,
     pending (HandlePlaybackStateChange w state now)
     = pending w ++ [GoProcessPlaybackState state now]) ∧
  (let w := HandlePlaybackStateChange
              (HandlePlaybackStateChange (initial_world tv false) first_state 0)
              later_state 100 in
   pending w = [GoProcessPlaybackState first_state 0;
                GoProcessPlaybackState later_state 100] ∧
   task (listener w) = Some (mkTask 1) ∧
   0%nat ∈ cancelled_ctx w).
Proof.
  split.
  - intros w state now. by rewrite !pending_all.
  - cbv zeta. rewrite pending_all. split_and!; [done..|]. simpl. set_solver.
Qed.

(** *** Malformed events *)

(** C4 fails on the code.  An "onStateChange" event without arguments
    makes [ProcessEvent] index an empty slice, and so does the callback
    [handleEvent] of the listener; an "onVolumeChanged" event whose
    argument is not a map, and an "onStateChange" event without a string
    ["videoId"] given to [handleEvent], fail a type assertion.  Each of
    them panics, and a panic of the callback is a panic of
    [ProcessEvent]. *)
Theorem malformed_event_panics bl ud ui pf :
  (∀ w, Lounge.ProcessEvent bl ud ui pf w "onStateChange" []
        = Panicked IndexOutOfRange) ∧
  (∀ w, Lounge.ProcessEvent bl ud ui pf w "onVolumeChanged" [VStr "loud"]
        = Panicked TypeAssertion) ∧
  (∀ w now, handleEvent w "onStateChange" [] now = Panicked IndexOutOfRange) ∧
  (∀ w now, handleEvent w "onStateChange" [VMap ∅] now
            = Panicked TypeAssertion) ∧
  (∀ (m s a : bool) lw now,
     Lounge.ProcessEvent bl ud ui pf
       (Lounge.SubscribeMonitored (Lounge.initial_world (Lounge.configured m s a))
          (λ eventType args,
             match handleEvent lw eventType args now with
             | Returned _ => Returned ()
             | Panicked p => Panicked p
             end))
       "onStateChange" [VMap ∅]
     = Panicked TypeAssertion).
Proof.
  split_and!.
  - intros w. reflexivity.
  - intros w. reflexivity.
  - intros w now. reflexivity.
  - intros w now. reflexivity.
  - intros m s a lw now. rewrite LoungeFacts.SubscribeMonitored_initial.
    unfold Lounge.ProcessEvent. cbn. by rewrite andb_false_r.
Qed.

(** The lists that [processSegments] returns are sorted by start, so the
    rules hold for every list that reaches the scheduler from the merge. *)
Corollary next_segment_on_merged fsub raws position :
  rounded_sub fsub →
  next_segment (processSegments fsub raws).1 position
  = spec_target (processSegments fsub raws).1 position.
Proof.
  intros Hsub. apply next_segment_spec_target.
  eapply MergeFacts.separated_sorted_by_start.
  by apply MergeFacts.processSegments_separated.
Qed.

End ListenerFacts.

(** * Further facts *)

(** ** The merge engine: nothing of a record is lost *)

Module MergeCoverage.
Import Merge MergeViews MergeFacts.

Lemma chase_end_cons b tbl x :
  chase_end (b :: tbl) x
  = chase_end tbl (if (Seg0 b <=? x) && (x <=? Seg1 b) then Seg1 b else x).
Proof. done. Qed.

Lemma chase_end_app tbl1 tbl2 x :
  chase_end (tbl1 ++ tbl2) x = chase_end tbl2 (chase_end tbl1 x).
Proof. apply foldl_app. Qed.

Lemma chase_end_ge tbl x : x ≤ chase_end tbl x.
Proof.
  revert x. induction tbl as [|b tbl IH]; intros x; [done|].
  rewrite chase_end_cons.
  destruct (_ && _) eqn:Hc; [|apply IH].
  apply andb_true_iff in Hc as [_ Hc%Z.leb_le]. etrans; [exact Hc|apply IH].
Qed.

(** The end comes out as it went in, or it is at least the end of a
    record of the table. *)
Lemma chase_end_cases tbl x :
  chase_end tbl x = x ∨ ∃ c, c ∈ tbl ∧ Seg1 c ≤ chase_end tbl x.
Proof.
  revert x. induction tbl as [|b tbl IH]; intros x; [by left|].
  rewrite chase_end_cons. destruct (_ && _) eqn:Hc.
  - right. exists b. split; [by left|apply chase_end_ge].
  - destruct (IH x) as [->|(c & Hc' & Hle)]; [by left|].
    right. exists c. split; [by right|done].
Qed.

Lemma chase_end_bound tbl x y :
  x ≤ y → (∀ c, c ∈ tbl → Seg0 c ≤ y → Seg1 c ≤ y) → chase_end tbl x ≤ y.
Proof.
  revert x. induction tbl as [|b tbl IH]; intros x Hx Htbl; [done|].
  rewrite chase_end_cons. apply IH.
  - destruct (_ && _) eqn:Hc; [|done].
    apply andb_true_iff in Hc as [Hc%Z.leb_le _].
    apply Htbl; [by left|lia].
  - intros c Hc. apply Htbl. by right.
Qed.

Lemma chase_end_self a x :
  Seg1 a ≤ x → (if (Seg0 a <=? x) && (x <=? Seg1 a) then Seg1 a else x) = x.
Proof.
  intros Hx. destruct (Z.leb_spec x (Seg1 a)); [|by rewrite andb_false_r].
  destruct (Seg0 a <=? x); simpl; lia.
Qed.

Lemma inner_end_loop ts i a js x :
  ts !! i = Some a → Seg1 a ≤ x →
  foldl (λ ts j, extend_end_at ts i j) (<[i := setSeg1 a x]> ts) js
  = <[i := setSeg1 a (chase_end (omap (λ j, ts !! j) js) x)]> ts.
Proof.
  intros Hi. revert x. induction js as [|j js IH]; intros x Hx; simpl; [done|].
  assert (i < length ts)%nat as Hlen by by eapply lookup_lt_Some.
  unfold extend_end_at at 2.
  rewrite list_lookup_insert_eq by done.
  destruct (decide (j = i)) as [->|Hne].
  - rewrite list_lookup_insert_eq, Hi by done. simpl.
    rewrite (chase_end_self a x Hx).
    rewrite Z.leb_refl, andb_true_r.
    destruct (Seg0 a <=? x); [|by apply IH].
    rewrite list_insert_insert_eq. by apply IH.
  - rewrite list_lookup_insert_ne by done.
    destruct (ts !! j) as [b|] eqn:Hj; simpl; [|by apply IH].
    destruct (_ && _) eqn:Hc; [|by apply IH].
    rewrite list_insert_insert_eq. unfold setSeg1 at 1; simpl.
    apply andb_true_iff in Hc as [_ Hc%Z.leb_le].
    apply (IH (Seg1 b)). lia.
Qed.

Lemma inner_end_loop_all ts i a :
  ts !! i = Some a →
  foldl (λ ts j, extend_end_at ts i j) ts (seq 0 (length ts))
  = <[i := setSeg1 a (chase_end ts (Seg1 a))]> ts.
Proof.
  intros Hi.
  rewrite <- (list_insert_id ts i a Hi) at 1.
  rewrite <- (setSeg1_id a) at 1.
  rewrite inner_end_loop by done.
  by rewrite omap_lookup_seq.
Qed.

Lemma outer_end_loop pre rest n :
  n = length (pre ++ rest) →
  foldl (λ ts i, foldl (λ ts j, extend_end_at ts i j) ts (seq 0 n))
    (pre ++ rest) (seq (length pre) (length rest))
  = ends_pass pre rest.
Proof.
  revert pre. induction rest as [|a rest IH]; intros pre Hn.
  { simpl. by rewrite app_nil_r. }
  cbn [length seq foldl].
  assert (foldl (λ ts j, extend_end_at ts (length pre) j) (pre ++ a :: rest)
            (seq 0 n)
          = (pre ++ [setSeg1 a (chase_end (pre ++ a :: rest) (Seg1 a))]) ++ rest)
    as ->.
  { rewrite Hn, (inner_end_loop_all (pre ++ a :: rest) (length pre) a)
      by by apply list_lookup_middle.
    rewrite <- app_assoc. simpl.
    rewrite <- (Nat.add_0_r (length pre)) at 1. by rewrite insert_app_r. }
  replace (S (length pre))
    with (length (pre ++ [setSeg1 a (chase_end (pre ++ a :: rest) (Seg1 a))]))
    by (rewrite length_app; simpl; lia).
  rewrite IH; [done|].
  rewrite Hn, !length_app. simpl. lia.
Qed.

Lemma extend_ends_pass ts : extend_ends ts = ends_pass [] ts.
Proof. unfold extend_ends. by rewrite <- (outer_end_loop [] ts (length ts)). Qed.

(** After the end loop no record can be extended any further. *)
Lemma ends_pass_settled opre pre rest :
  StronglySorted (λ a b, Seg1 a ≤ Seg1 b) (opre ++ rest) →
  Forall (settled_end (opre ++ rest)) pre →
  Forall (settled_end (opre ++ rest)) (ends_pass pre rest).
Proof.
  revert opre pre. induction rest as [|a rest IH]; intros opre pre Hsorted Hpre;
    [done|].
  cbn [ends_pass].
  replace (opre ++ a :: rest) with ((opre ++ [a]) ++ rest) in *
    by by rewrite <- app_assoc.
  apply IH; [done|]. apply Forall_app. split; [done|].
  apply Forall_singleton.
  rewrite <- app_assoc in *. cbn [app] in *.
  set (O := opre ++ a :: rest) in *.
  set (y := chase_end (pre ++ a :: rest) (Seg1 a)).
  assert (Seg1 a ≤ y) as Hay by apply chase_end_ge.
  apply StronglySorted_app in Hsorted as (Hcross & _ & Harest).
  apply StronglySorted_inv in Harest as [Hrest Ha].
  rewrite Forall_forall in Ha.
  split; cbn [Seg0 Seg1 setSeg1].
  - intros b Hb [Hb0 Hb1].
    apply elem_of_app in Hb as [Hb|Hb].
    { specialize (Hcross b a Hb ltac:(left)). simpl in Hcross. lia. }
    apply elem_of_cons in Hb as [->|Hb]; [lia|].
    apply list_elem_of_split in Hb as (r1 & r2 & ->).
    apply StronglySorted_app in Hrest as (_ & _ & Hbr2).
    apply StronglySorted_inv in Hbr2 as [_ Hb2]. rewrite Forall_forall in Hb2.
    unfold y in *. clear y.
    replace (pre ++ a :: r1 ++ b :: r2) with ((pre ++ a :: r1) ++ b :: r2) in *
      by by rewrite <- app_assoc.
    rewrite chase_end_app, chase_end_cons in Hb0, Hb1, Hay.
    set (xp := chase_end (pre ++ a :: r1) (Seg1 a)) in *.
    destruct (Z.leb_spec (Seg0 b) xp) as [Hle|Hlt]; simpl in *.
    + assert (xp ≤ chase_end r2 (if xp <=? Seg1 b then Seg1 b else xp)) as Hxp.
      { etrans; [|apply chase_end_ge]. destruct (Z.leb_spec xp (Seg1 b)); lia. }
      destruct (Z.leb_spec xp (Seg1 b)) as [_|?]; [|lia].
      pose proof (chase_end_ge r2 (Seg1 b)). lia.
    + destruct (chase_end_cases r2 xp) as [Heq|(c & Hc & Hcle)]; [lia|].
      specialize (Hb2 c Hc). simpl in Hb2. lia.
  - intros y' Hout Hy'. apply chase_end_bound.
    + assert (a ∈ O) as HaO by (apply elem_of_app; right; left).
      specialize (Hout a HaO). lia.
    + intros c Hc Hcy. apply elem_of_app in Hc as [Hc|Hc].
      * rewrite Forall_forall in Hpre. by apply (Hpre c Hc).
      * assert (c ∈ O) as HcO by (apply elem_of_app; by right).
        specialize (Hout c HcO). lia.
Qed.

Lemma extend_ends_settled ts :
  StronglySorted (λ a b, Seg1 a ≤ Seg1 b) ts →
  Forall (settled_end ts) (extend_ends ts).
Proof.
  intros Hts. rewrite extend_ends_pass.
  by apply (ends_pass_settled [] [] ts).
Qed.

(** After the end loop, a record that starts no later than another one
    ends no later than it. *)
Lemma extend_ends_no_overhang ts a b :
  StronglySorted (λ a b, Seg1 a ≤ Seg1 b) ts →
  a ∈ extend_ends ts → b ∈ extend_ends ts →
  Seg0 a ≤ Seg1 b → Seg1 a ≤ Seg1 b.
Proof.
  intros Hts Ha Hb Hab. pose proof (extend_ends_settled ts Hts) as Hset.
  rewrite Forall_forall in Hset.
  destruct (Hset a Ha) as [_ Ha2], (Hset b Hb) as [Hb1 _]. by apply Ha2.
Qed.

Lemma StronglySorted_by_key {A : Type} (key : A → Z) (l : list A) :
  StronglySorted (λ a b, key a ≤ key b) l ↔ StronglySorted Z.le (key <$> l).
Proof.
  induction l as [|x l IH]; [split; constructor|].
  rewrite fmap_cons, !StronglySorted_cons, IH, Forall_fmap. done.
Qed.

Lemma sorted_by_start_sorted_by_end (l : list typedSegment) :
  StronglySorted (λ a b, Seg0 a ≤ Seg0 b) l →
  Forall well_formed l →
  (∀ a b, a ∈ l → b ∈ l → Seg0 a ≤ Seg1 b → Seg1 a ≤ Seg1 b) →
  StronglySorted (λ a b, Seg1 a ≤ Seg1 b) l.
Proof.
  induction 1 as [|x l Hl IH Hx]; intros Hwf Hno; [constructor|].
  apply Forall_cons in Hwf as [Hwx Hwf]. constructor.
  - apply IH; [done|]. intros a b Ha Hb. apply Hno; by right.
  - rewrite Forall_forall in Hx, Hwf. apply Forall_forall. intros b Hb.
    apply Hno; [by left|by right|].
    specialize (Hx b Hb). specialize (Hwf b Hb). unfold well_formed in Hwf.
    simpl in Hx. lia.
Qed.

Lemma Forall2_elem_of_l {A B : Type} (R : A → B → Prop) l k x :
  Forall2 R l k → x ∈ l → ∃ y, y ∈ k ∧ R x y.
Proof.
  induction 1 as [|a b l k Hab _ IH]; intros Hx; [by apply elem_of_nil in Hx|].
  apply elem_of_cons in Hx as [->|Hx].
  - exists b. split; [by left|done].
  - destruct (IH Hx) as (y & Hy & HR). exists y. split; [by right|done].
Qed.

Lemma Forall2_elem_of_r {A B : Type} (R : A → B → Prop) l k y :
  Forall2 R l k → y ∈ k → ∃ x, x ∈ l ∧ R x y.
Proof.
  induction 1 as [|a b l k Hab _ IH]; intros Hy; [by apply elem_of_nil in Hy|].
  apply elem_of_cons in Hy as [->|Hy].
  - exists a. split; [by left|done].
  - destruct (IH Hy) as (x & Hx & HR). exists x. split; [by right|done].
Qed.

(** The slice before the combine loop, for well-formed records: it is
    sorted by start and by end at once. *)
Lemma before_combine_sorted_by_end raws :
  Forall well_formed raws →
  StronglySorted (λ a b, Seg1 a ≤ Seg1 b)
    (extend_starts (sort_Slice less_start
       (extend_ends (sort_Slice less_end raws)))).
Proof.
  intros Hwf.
  set (S1 := sort_Slice less_end raws).
  set (F := extend_ends S1).
  set (L := sort_Slice less_start F).
  assert (StronglySorted (λ a b, Seg1 a ≤ Seg1 b) S1) as HS1
    by by apply (sort_Slice_sorted less_end Seg1).
  assert (Forall well_formed F) as HwfF.
  { eapply end_raised_well_formed; [apply extend_ends_rel|].
    unfold S1. by rewrite (sort_Slice_perm less_end). }
  assert (StronglySorted (λ a b, Seg1 a ≤ Seg1 b) L) as HL.
  { apply sorted_by_start_sorted_by_end.
    - by apply (sort_Slice_sorted less_start Seg0).
    - unfold L. by rewrite (sort_Slice_perm less_start).
    - intros a b Ha Hb. unfold L in Ha, Hb.
      rewrite (sort_Slice_perm less_start) in Ha, Hb.
      by apply (extend_ends_no_overhang S1). }
  apply (StronglySorted_by_key Seg1).
  replace (Seg1 <$> extend_starts L) with (Seg1 <$> L);
    [by apply (StronglySorted_by_key Seg1)|].
  generalize (extend_starts_rel L). generalize (extend_starts L).
  clear. intros k Hrel.
  induction Hrel as [|a b l k (?&?&?&?) _ IH]; [done|].
  rewrite !fmap_cons. by f_equal.
Qed.

Lemma foldl_combine_push_covers fsub ts rs (seen : list typedSegment) :
  StronglySorted (λ a b, Seg0 a ≤ Seg0 b) ts →
  StronglySorted (λ a b, Seg1 a ≤ Seg1 b) ts →
  (∀ l s, head rs = Some l → s ∈ ts → Start l ≤ Seg0 s ∧ End_ l ≤ Seg1 s) →
  (∀ t, t ∈ seen → ∃ g, g ∈ rs ∧ covers g t) →
  ∀ t, t ∈ seen ∨ t ∈ ts → ∃ g, g ∈ foldl (combine_push fsub) rs ts ∧ covers g t.
Proof.
  revert rs seen.
  induction ts as [|s ts IH]; intros rs seen Hs0 Hs1 Hhd Hseen t Ht.
  { destruct Ht as [Ht|Ht]; [by apply Hseen|by apply elem_of_nil in Ht]. }
  apply StronglySorted_inv in Hs0 as [Hts0 Hs0].
  apply StronglySorted_inv in Hs1 as [Hts1 Hs1].
  rewrite Forall_forall in Hs0, Hs1.
  cbn [foldl]. apply (IH (combine_push fsub rs s) (s :: seen)); [done..| | |].
  - intros l' s' Hl' Hs'. specialize (Hs0 s' Hs'). specialize (Hs1 s' Hs').
    simpl in Hs0, Hs1.
    unfold combine_push in Hl'. destruct rs as [|l rs].
    + injection Hl' as <-. simpl. lia.
    + destruct (Hhd l s eq_refl ltac:(left)) as [Hl0 Hl1].
      destruct (_ <? _); injection Hl' as <-; simpl; lia.
  - intros t' Ht'. unfold combine_push. destruct rs as [|l rs].
    + apply elem_of_cons in Ht' as [->|Ht'].
      * eexists. split; [by left|]. unfold covers. simpl. lia.
      * destruct (Hseen t' Ht') as (g & Hg & _). by apply elem_of_nil in Hg.
    + destruct (Hhd l s eq_refl ltac:(left)) as [Hl0 Hl1].
      apply elem_of_cons in Ht' as [->|Ht'].
      * destruct (_ <? _); eexists; (split; [by left|]);
          unfold covers; simpl; lia.
      * destruct (Hseen t' Ht') as (g & Hg & Hgt).
        destruct (_ <? _).
        -- apply elem_of_cons in Hg as [->|Hg].
           ++ eexists. split; [by left|]. unfold covers in *. simpl. lia.
           ++ exists g. split; [by right|done].
        -- exists g. split; [by right|done].
  - destruct Ht as [Ht|Ht]; [left; by right|].
    apply elem_of_cons in Ht as [->|Ht]; [left; by left|by right].
Qed.

(** X1.  Every well-formed raw record lies within one segment of the resolved
    list: the merge drops no part of any record. *)
Theorem processSegments_covers (fsub : Z → Z → Z)
    (raws : list typedSegment) (r : typedSegment) :
  Forall well_formed raws → r ∈ raws →
  ∃ g, g ∈ (processSegments fsub raws).1 ∧ covers g r.
Proof.
  intros Hwf Hr. unfold processSegments. rewrite combine_eq. cbn [fst].
  set (S1 := sort_Slice less_end raws).
  set (F := extend_ends S1).
  set (L := sort_Slice less_start F).
  assert (r ∈ S1) as Hr1 by (unfold S1; by rewrite (sort_Slice_perm less_end)).
  destruct (Forall2_elem_of_l _ _ _ _ (extend_ends_rel S1) Hr1)
    as (r1 & Hr1F & H01 & H11 & _).
  assert (r1 ∈ L) as Hr1L
    by (unfold L; by rewrite (sort_Slice_perm less_start)).
  destruct (Forall2_elem_of_l _ _ _ _ (extend_starts_rel L) Hr1L)
    as (r2 & Hr2T & H02 & H12 & _).
  destruct (foldl_combine_push_covers fsub (extend_starts L) [] [] ) with (t := r2)
    as (g & Hg & Hg0 & Hg1).
  - apply extend_starts_sorted, (sort_Slice_sorted less_start Seg0). done.
  - by apply before_combine_sorted_by_end.
  - intros l s Hhd. discriminate.
  - intros t Ht. by apply elem_of_nil in Ht.
  - by right.
  - exists g. split.
    + apply list_elem_of_In. rewrite <- in_rev. by apply list_elem_of_In.
    + unfold covers. lia.
Qed.

Lemma processSegments_covers_witness :
  Forall well_formed spec_example ∧
  TypedSegment 8000 20000 "b" 1 ∈ spec_example ∧
  ∃ g, g ∈ (processSegments Z.sub spec_example).1 ∧
       covers g (TypedSegment 8000 20000 "b" 1).
Proof.
  assert (Forall well_formed spec_example) as Hwf.
  { repeat constructor; unfold well_formed; simpl; lia. }
  assert (TypedSegment 8000 20000 "b" 1 ∈ spec_example) as Hin.
  { right. left. }
  split; [exact Hwf|]. split; [exact Hin|].
  exact (processSegments_covers Z.sub spec_example _ Hwf Hin).
Defined.

(** *** The bounds of a resolved segment are bounds of records *)

Lemma chase_end_from tbl x :
  chase_end tbl x = x ∨ ∃ c, c ∈ tbl ∧ chase_end tbl x = Seg1 c.
Proof.
  revert x. induction tbl as [|b tbl IH]; intros x; [by left|].
  rewrite chase_end_cons.
  destruct (IH (if (Seg0 b <=? x) && (x <=? Seg1 b) then Seg1 b else x))
    as [Heq|(c & Hc & Heq)].
  - rewrite Heq. destruct (_ && _); [|by left].
    right. exists b. split; [left|done].
  - right. exists c. split; [by right|done].
Qed.

Lemma chase_start_from tbl x :
  chase_start tbl x = x ∨ ∃ c, c ∈ tbl ∧ chase_start tbl x = Seg0 c.
Proof.
  revert x. induction tbl as [|b tbl IH]; intros x; [by left|].
  rewrite chase_start_cons.
  destruct (IH (if (Seg0 b <=? x) && (x <=? Seg1 b) then Seg0 b else x))
    as [Heq|(c & Hc & Heq)].
  - rewrite Heq. destruct (_ && _); [|by left].
    right. exists b. split; [left|done].
  - right. exists c. split; [by right|done].
Qed.

Lemma ends_pass_bounds raws pre rest :
  Forall (bounds_from raws) pre → Forall (bounds_from raws) rest →
  Forall (bounds_from raws) (ends_pass pre rest).
Proof.
  revert pre. induction rest as [|a rest IH]; intros pre Hpre Hrest; [done|].
  cbn [ends_pass]. pose proof Hrest as [Ha Hrest']%Forall_cons.
  apply IH; [|done]. apply Forall_app. split; [done|].
  apply Forall_singleton. split; [apply Ha|]. cbn [Seg1 setSeg1].
  destruct (chase_end_from (pre ++ a :: rest) (Seg1 a)) as [->|(c & Hc & ->)];
    [apply Ha|].
  assert (bounds_from raws c) as [_ Hc1]; [|done].
  apply elem_of_app in Hc as [Hc|Hc].
  - rewrite Forall_forall in Hpre. by apply Hpre.
  - rewrite Forall_forall in Hrest. by apply Hrest.
Qed.

Lemma starts_pass_bounds raws rp post :
  Forall (bounds_from raws) rp → Forall (bounds_from raws) post →
  Forall (bounds_from raws) (starts_pass rp post).
Proof.
  revert post. induction rp as [|a rp IH]; intros post Hrp Hpost; [done|].
  cbn [starts_pass]. pose proof Hrp as [Ha Hrp']%Forall_cons.
  apply IH; [done|]. constructor; [|done].
  split; [|apply Ha]. cbn [Seg0 setSeg0].
  destruct (chase_start_from (rev post ++ a :: rp) (Seg0 a))
    as [->|(c & Hc & ->)]; [apply Ha|].
  assert (bounds_from raws c) as [Hc0 _]; [|done].
  apply elem_of_app in Hc as [Hc|Hc].
  - rewrite Forall_forall in Hpost. apply Hpost.
    by apply list_elem_of_In, in_rev, list_elem_of_In.
  - rewrite Forall_forall in Hrp. by apply Hrp.
Qed.

Lemma Forall_rev {A : Type} (P : A → Prop) (l : list A) :
  Forall P l → Forall P (rev l).
Proof.
  rewrite !Forall_forall. intros Hl x Hx. apply Hl.
  by apply list_elem_of_In, in_rev, list_elem_of_In.
Qed.

Lemma foldl_combine_push_bounds fsub raws ts rs :
  Forall (bounds_from raws) ts → Forall (segment_bounds_from raws) rs →
  Forall (segment_bounds_from raws) (foldl (combine_push fsub) rs ts).
Proof.
  revert rs. induction ts as [|s ts IH]; intros rs Hts Hrs; [done|].
  apply Forall_cons in Hts as [Hs Hts]. cbn [foldl]. apply IH; [done|].
  unfold combine_push. destruct rs as [|l rs].
  - constructor; [|done]. exact Hs.
  - apply Forall_cons in Hrs as [Hl Hrs]. destruct (_ <? _).
    + constructor; [|done]. split; [apply Hl|apply Hs].
    + constructor; [exact Hs|by constructor].
Qed.

(** X2.  The merge invents no time: the start of every resolved segment is
    the start of a raw record, and its end is the end of a raw record. *)
Theorem processSegments_bounds (fsub : Z → Z → Z)
    (raws : list typedSegment) (g : Segment) :
  g ∈ (processSegments fsub raws).1 → segment_bounds_from raws g.
Proof.
  unfold processSegments. rewrite combine_eq. cbn [fst]. revert g.
  apply Forall_forall, Forall_rev, foldl_combine_push_bounds; [|constructor].
  rewrite extend_starts_pass. apply starts_pass_bounds; [|constructor].
  apply Forall_rev.
  assert (∀ l l', l ≡ₚ l' → Forall (bounds_from raws) l' →
                  Forall (bounds_from raws) l) as Hperm.
  { intros l l' Hp. by rewrite Hp. }
  eapply Hperm; [apply (sort_Slice_perm less_start)|].
  rewrite extend_ends_pass. apply ends_pass_bounds; [constructor|].
  eapply Hperm; [apply (sort_Slice_perm less_end)|].
  apply Forall_forall. intros r Hr. split; by exists r.
Qed.

Lemma processSegments_bounds_witness :
  mkSegment 0 20000 ["b"; "a"] ∈ (processSegments Z.sub spec_example).1 ∧
  segment_bounds_from spec_example (mkSegment 0 20000 ["b"; "a"]).
Proof.
  assert (mkSegment 0 20000 ["b"; "a"] ∈ (processSegments Z.sub spec_example).1)
    as Hin by (vm_compute; left).
  split; [exact Hin|].
  exact (processSegments_bounds Z.sub spec_example _ Hin).
Defined.

End MergeCoverage.

(** ** The segment cache: reads, expiry and capacity *)

Module SegCacheMore.
Import SegCache SegCacheRuns SegCacheFacts.

Section more.
Context {V : Type} (R : Range V).

(** X6.  A value stored by [Set] is read back by [Get] until its time to live
    has passed, and not after; this holds whatever the cache held before,
    whatever its capacity and in whatever order the map is visited. *)
Theorem Set_then_Get (c : Cache V) (now now' : Z) (key : string) (v : V) :
  (now' ≤ now + ttl c →
     Get (Set_ R c now key v) now' key = (Some v, Set_ R c now key v)) ∧
  (now + ttl c < now' →
     (Get (Set_ R c now key v) now' key).1 = None ∧
     entries (Get (Set_ R c now key v) now' key).2 !! key = None).
Proof.
  unfold Get, Set_. cbn [entries ttl maxSize].
  rewrite lookup_insert_eq. cbn [expiration value]. unfold After.
  split; intros Hlt.
  - by destruct (Z.ltb_spec (now + ttl c) now'); [lia|].
  - destruct (Z.ltb_spec (now + ttl c) now'); [|lia].
    cbn [fst snd entries]. split; [done|]. apply lookup_delete_eq.
Qed.

(** X7.  [Get] never returns a value past its expiration; after a miss the
    cache holds nothing under the key; the entries under other keys are
    never touched by a read, and a hit leaves the whole cache as it is. *)
Theorem Get_spec (c : Cache V) (now : Z) (key : string) :
  (∀ v, (Get c now key).1 = Some v ↔
        ∃ e, entries c !! key = Some e ∧ value e = v ∧ now ≤ expiration e) ∧
  ((Get c now key).1 = None → entries (Get c now key).2 !! key = None) ∧
  (∀ k, k ≠ key → entries (Get c now key).2 !! k = entries c !! k) ∧
  (is_Some (Get c now key).1 → (Get c now key).2 = c).
Proof.
  unfold Get, After.
  destruct (entries c !! key) as [e|] eqn:Hk.
  - destruct (Z.ltb_spec (expiration e) now) as [Hlt|Hge]; cbn [fst snd entries].
    + split_and!.
      * intros v. split; [done|]. intros (e' & [= <-] & _ & ?). lia.
      * intros _. apply lookup_delete_eq.
      * intros k Hne. by rewrite lookup_delete_ne.
      * by intros [? ?].
    + split_and!; [|done|done|done].
      intros v. split.
      * intros [= <-]. by exists e.
      * by intros (e' & [= <-] & <- & _).
  - cbn [fst snd]. split_and!; [|done|done|by intros [? ?]].
    intros v. split; [done|]. by intros (e' & ? & _).
Qed.

Lemma remove_expired_subseteq now (m : gmap string (cacheEntry V)) :
  remove_expired R now m ⊆ m.
Proof.
  apply map_subseteq_spec. intros k e. rewrite lookup_remove_expired.
  destruct (m !! k) as [e'|]; [|done]. by destruct (After _ _).
Qed.

Lemma remove_expired_after_zero now (m : gmap string (cacheEntry V)) :
  0 < now →
  Forall (λ ke, 0 < expiration ke.2) (range R (remove_expired R now m)).
Proof.
  intros Hnow. apply Forall_forall. intros [k e] Hke%elem_of_range.
  rewrite lookup_remove_expired in Hke. simpl.
  destruct (m !! k) as [e'|]; [|done]. unfold After in Hke.
  destruct (Z.ltb_spec (expiration e') now); [done|].
  injection Hke as <-. lia.
Qed.

(** The key found by the eviction loop is a key of the map. *)
Lemma oldest_is_key now (m : gmap string (cacheEntry V)) :
  0 < now → remove_expired R now m ≠ ∅ →
  is_Some (remove_expired R now m
             !! (oldest (range R (remove_expired R now m))).1).
Proof.
  intros Hnow Hne. set (m1 := remove_expired R now m) in *.
  destruct (oldest_earliest (range R m1)) as (_ & (e & He & _) & _).
  - intros Hnil. apply Hne. apply map_empty. intros k.
    destruct (m1 !! k) as [e|] eqn:Hk; [|done].
    apply (elem_of_range R) in Hk. rewrite Hnil in Hk.
    by apply elem_of_nil in Hk.
  - by apply remove_expired_after_zero.
  - apply elem_of_range in He. by exists e.
Qed.

Lemma Set_size (c : Cache V) now key v :
  0 < now → 1 ≤ maxSize c →
  Z.of_nat (size (entries c)) ≤ maxSize c →
  Z.of_nat (size (entries (Set_ R c now key v))) ≤ maxSize c.
Proof.
  intros Hnow Hmax Hsize. unfold Set_. cbn [entries].
  set (m1 := remove_expired R now (entries c)).
  pose proof (map_subseteq_size _ _ (remove_expired_subseteq now (entries c)))
    as Hle. fold m1 in Hle.
  pose proof (map_size_insert key (CacheEntry v (now + ttl c))
                (remove_oldest R (maxSize c) m1)) as Hins.
  assert (size (<[key:=CacheEntry v (now + ttl c)]>
                  (remove_oldest R (maxSize c) m1))
          ≤ S (size (remove_oldest R (maxSize c) m1)))%nat as Hins'.
  { rewrite Hins. destruct (_ !! key); simpl; lia. }
  unfold remove_oldest in *.
  destruct (Z.geb_spec (Z.of_nat (size m1)) (maxSize c)) as [Hfull|Hfree];
    [|lia].
  assert (m1 ≠ ∅) as Hne.
  { intros Hempty. rewrite Hempty, map_size_empty in Hfull. lia. }
  pose proof (oldest_is_key now (entries c) Hnow Hne) as Hkey. fold m1 in Hkey.
  rewrite (map_size_delete_Some _ _ Hkey) in Hins'. lia.
Qed.

(** X8.  The capacity is respected: a cache made by [NewCache] with room for
    at least one entry never holds more than [maxSize] entries, whatever
    calls are made on it and in whatever order the maps are visited. *)
Theorem cache_never_exceeds_capacity (n ttl0 : Z) (ops : list (op V)) :
  1 ≤ n → Forall after_zero_time ops →
  Z.of_nat (size (entries (run R (NewCache n ttl0) ops))) ≤ n.
Proof.
  intros Hn Hops.
  assert (∀ c : Cache V, maxSize c = n →
            Z.of_nat (size (entries c)) ≤ n →
            maxSize (run R c ops) = n ∧
            Z.of_nat (size (entries (run R c ops))) ≤ n) as Hrun.
  { induction Hops as [|o ops Ho _ IH]; intros c Hmax Hsize; [done|].
    unfold run. cbn [foldl]. apply IH.
    - destruct o; try done. cbn [apply_op]. unfold Get.
      destruct (entries c !! key); [|done]. by destruct (After _ _).
    - destruct o; cbn [apply_op].
      + unfold Get. destruct (entries c !! key); [|done].
        destruct (After _ _); [|done]. cbn [snd entries].
        pose proof (map_subseteq_size _ _ (delete_subseteq (entries c) key)).
        lia.
      + rewrite <- Hmax. apply Set_size; [done|lia|lia].
      + cbn [Delete entries].
        pose proof (map_subseteq_size _ _ (delete_subseteq (entries c) key)).
        lia.
      + cbn [Clear entries]. rewrite map_size_empty. lia. }
  apply Hrun; [done|]. cbn [NewCache entries]. rewrite map_size_empty. lia.
Qed.

End more.

Lemma cache_never_exceeds_capacity_witness :
  1 ≤ 2 ∧
  Z.of_nat (size (entries (run map_to_list_range (NewCache 2 300000)
     [OpSet 1000 "a" "va"; OpSet 2000 "b" "vb"; OpGet 3000 "a";
      OpSet 4000 "c" "vc"]))) ≤ 2.
Proof.
  split; [lia|].
  apply (cache_never_exceeds_capacity map_to_list_range 2 300000); [lia|].
  repeat constructor.
Defined.

Lemma Set_then_Get_witness :
  2000 ≤ 1000 + ttl (NewCache (V:=string) 2 300000) ∧
  Get (Set_ map_to_list_range (NewCache 2 300000) 1000 "a" "va") 2000 "a"
  = (Some "va", Set_ map_to_list_range (NewCache 2 300000) 1000 "a" "va").
Proof.
  assert (2000 ≤ 1000 + ttl (NewCache (V:=string) 2 300000)) as H
    by (simpl; lia).
  split; [exact H|].
  exact (proj1 (Set_then_Get map_to_list_range (NewCache 2 300000)
                  1000 2000 "a" "va") H).
Defined.

End SegCacheMore.

(** ** The lounge session: commands, ad policy, live goroutines *)

Module LoungeSessionFacts.
Import Lounge LoungeSession LoungeFacts.

(** *** Mute *)

Lemma muteStr_inj m1 m2 : muteStr m1 = muteStr m2 → m1 = m2.
Proof. by destruct m1, m2. Qed.

Lemma is_str_spec v s : is_str v s = true ↔ v = VStr s.
Proof.
  destruct v; simpl; try by split.
  rewrite String.eqb_eq. split; [by intros ->|by intros [= ->]].
Qed.

Lemma Mute_records y mute override :
  index (volumeState (Mute y mute override).1) "muted" = VStr (muteStr mute).
Proof.
  unfold Mute.
  destruct (override || negb (is_str _ _)) eqn:Hsend; cbn [fst].
  - unfold index. cbn. by rewrite lookup_insert_eq.
  - apply orb_false_elim in Hsend as [_ Hm%negb_false_iff].
    by apply is_str_spec.
Qed.

(** X9.  [Mute] sends nothing exactly when it is not forced and the session
    already records the wanted state; a command it sends carries the
    wanted state and the volume last recorded (100 when none is), and
    after the call the session records the wanted state, so that a
    repeated call that is not forced is silent.  The recorded volume is
    never changed. *)
Theorem Mute_spec (y : YtLoungeApi) (mute override : bool) :
  ((Mute y mute override).2 = None ↔
     override = false ∧
     index (volumeState y) "muted" = VStr (muteStr mute)) ∧
  (∀ c, (Mute y mute override).2 = Some c →
     ∃ volume, c = CmdSetVolume volume (Some (muteStr mute)) ∧
       match index (volumeState y) "volume" with
       | VNum vol => volume = int vol
       | _ => volume = 100
       end) ∧
  index (volumeState (Mute y mute override).1) "muted" = VStr (muteStr mute) ∧
  volumeState (Mute y mute override).1 !! "volume" = volumeState y !! "volume" ∧
  Mute (Mute y mute override).1 mute false = ((Mute y mute override).1, None).
Proof.
  split_and!.
  - unfold Mute. rewrite <- is_str_spec.
    destruct override, (is_str _ _); cbn; split; try done; by intros [? ?].
  - intros c. unfold Mute.
    destruct (override || negb (is_str _ _)); [|done]. cbn [snd].
    intros [= <-]. eexists. split; [done|].
    unfold index. rewrite lookup_insert_ne by done.
    by destruct (default VNil (volumeState y !! "volume")).
  - apply Mute_records.
  - unfold Mute. destruct (override || negb (is_str _ _)); [|done].
    cbn. by rewrite lookup_insert_ne.
  - pose proof (Mute_records y mute override) as Hrec.
    apply is_str_spec in Hrec. unfold Mute at 1. by rewrite Hrec.
Qed.

(** *** The ad policy *)

Ltac no_skip :=
  let Hin := fresh in
  intros Hin;
  repeat (apply elem_of_cons in Hin; destruct Hin as [Hin|Hin];
          [discriminate Hin|]);
  by apply elem_of_nil in Hin.

Ltac policy_list :=
  repeat match goal with
  | H : _ && _ = true |- _ => apply andb_true_iff in H; destruct H
  | H : negb _ = true |- _ => apply negb_true_iff in H
  | H : String.eqb _ _ = false |- _ => apply String.eqb_neq in H
  end;
  split;
  [ repeat constructor; cbn; try done; try (split; [done|]; done)
  | no_skip ].

Ltac policy_solve :=
  cbn [go with_api cancel api spawned muteAds skipAds SetAutoPlay
       set_volumeState set_playbackSpeed set_shortsDisconnected];
  split; [done|]; split; [done|];
  first
    [ exists []; split; [by rewrite app_nil_r|]; policy_list
    | eexists; split; [by rewrite <- ?app_assoc|]; policy_list ].

Lemma skip_or_mute_policy data w y :
  muteAds y = muteAds (api w) → skipAds y = skipAds (api w) →
  muteAds (api (skip_or_mute data w)) = muteAds (api w) ∧
  skipAds (api (skip_or_mute data w)) = skipAds (api w) ∧
  ∃ gs, spawned (skip_or_mute data w) = spawned w ++ gs ∧
        Forall (follows_policy y) gs ∧
        (GoSkipAd ∈ gs → GoMute false true ∈ gs).
Proof.
  intros Hm Hs. unfold skip_or_mute.
  destruct (skipAds (api w) && _) eqn:Hskip.
  - apply andb_true_iff in Hskip as [Hskip _].
    split; [done|]. split; [done|].
    exists [GoSkipAd; GoMute false true]. cbn. rewrite <- app_assoc.
    split; [done|]. split; [|intros _; right; left].
    repeat constructor; cbn; congruence.
  - destruct (muteAds (api w)) eqn:Hmute.
    + split; [done|]. split; [done|]. exists [GoMute true true].
      split; [done|]. split; [|no_skip]. by repeat constructor.
    + split; [done|]. split; [done|]. exists []. rewrite app_nil_r.
      split; [done|]. split; [constructor|no_skip].
Qed.

Section policy.
Context (bl : list string).
Context (ud : string → option (list (gmap string value))).
Context (ui : string → option (gmap string value)).
Context (pf : string → option Z).

Lemma ProcessEvent_switch_policy w eventType args f :
  ProcessEvent_switch bl ud ui pf w eventType args = Returned f →
  policy_step w (match f with Next w' | Return w' => w' end).
Proof.
  unfold ProcessEvent_switch, arg0, policy_step.
  repeat case_match; intros [= <-];
    try (by policy_solve); try (by apply skip_or_mute_policy).
  match goal with
  | |- context [skip_or_mute ?d (go (GoGetSegments ?v) w)] =>
      destruct (skip_or_mute_policy d (go (GoGetSegments v) w) (api w))
        as (Hm & Hs & gs & Hsp & Hgs & Hskip); [done..|];
      split; [done|]; split; [done|];
      exists (GoGetSegments v :: gs); rewrite Hsp; cbn;
      rewrite <- app_assoc; split; [done|]; split
  end.
  - constructor; [|done]. cbn.
    match goal with
    | H : negb _ = true |- _ =>
        apply negb_true_iff, String.eqb_neq in H; exact H
    end.
  - intros [?|?]%elem_of_cons; [done|]. right. auto.
Qed.

End policy.

Lemma cancel_if_set_api f w : api (cancel_if_set f w) = api w.
Proof. by destruct f. Qed.

Lemma cancel_if_set_spawned f w : spawned (cancel_if_set f w) = spawned w.
Proof. by destruct f. Qed.

(** [ProcessEvent] returns the world that its [switch] leaves. *)
Lemma ProcessEvent_returns_switch bl ud ui pf w eventType args w' :
  ProcessEvent bl ud ui pf w eventType args = Returned w' →
  ∃ f, ProcessEvent_switch bl ud ui pf
         (cancel_if_set (watchdogTask (api w)) w) eventType args = Returned f ∧
       w' = match f with Next w1 | Return w1 => w1 end.
Proof.
  unfold ProcessEvent.
  destruct (ProcessEvent_switch _ _ _ _ _ _ _) as [f|]; [|done].
  intros Hret. exists f. split; [done|].
  destruct f as [w1|w1]; [|by injection Hret].
  repeat case_match; by simplify_eq.
Qed.

(** X10.  The ad policy of [ProcessEvent].  Whatever the event, the handler
    starts [SkipAd] only when skipping is on, and an unmute with it; it
    starts a mute only when muting is on; every [Mute] it starts is forced;
    it asks for the segments of no empty video id, plays a video only while
    a disconnection by Shorts is recorded, and starts neither a
    subscription nor a watchdog.  The two settings are never changed by an
    event. *)
Theorem ProcessEvent_follows_policy bl ud ui pf
    (w : World) (eventType : string) (args : list value) (w' : World) :
  ProcessEvent bl ud ui pf w eventType args = Returned w' →
  policy_step w w'.
Proof.
  intros (f & Hsw & ->)%ProcessEvent_returns_switch.
  apply ProcessEvent_switch_policy in Hsw. unfold policy_step in *.
  by rewrite cancel_if_set_api, cancel_if_set_spawned in Hsw.
Qed.

Lemma ProcessEvent_follows_policy_witness :
  ∃ w',
    ProcessEvent YouTubeClientBlacklist decode_devices decode_info no_float
      (SubscribeMonitored (initial_world (configured false true false)) quiet)
      "onAdStateChange" skippable_ad
    = Returned w' ∧
    policy_step
      (SubscribeMonitored (initial_world (configured false true false)) quiet)
      w'.
Proof.
  eexists. split; [reflexivity|].
  eapply (ProcessEvent_follows_policy YouTubeClientBlacklist decode_devices
            decode_info no_float _ "onAdStateChange" skippable_ad).
  reflexivity.
Defined.

(** X12.  Every [Mute] started by an event sends its command, whatever volume
    state the session holds when the goroutine runs. *)
Theorem event_mute_always_sends bl ud ui pf
    (w : World) (eventType : string) (args : list value) (w' : World)
    (mute override : bool) (y : YtLoungeApi) :
  ProcessEvent bl ud ui pf w eventType args = Returned w' →
  GoMute mute override ∈ drop (length (spawned w)) (spawned w') →
  ∃ volume,
    (Mute y mute override).2 = Some (CmdSetVolume volume (Some (muteStr mute))).
Proof.
  intros (f & Hsw & ->)%ProcessEvent_returns_switch.
  apply ProcessEvent_switch_policy in Hsw as (_ & _ & gs & Hsp & Hgs & _).
  rewrite cancel_if_set_api in Hgs. rewrite cancel_if_set_spawned in Hsp.
  rewrite Hsp, drop_app_length. intros Hin.
  rewrite Forall_forall in Hgs. destruct (Hgs _ Hin) as [-> _].
  unfold Mute. cbn [orb snd]. by eexists.
Qed.

Lemma event_mute_always_sends_witness :
  ∃ volume,
    (Mute (configured false true false) false true).2
    = Some (CmdSetVolume volume (Some (muteStr false))).
Proof.
  refine (event_mute_always_sends YouTubeClientBlacklist decode_devices
            decode_info no_float
            (SubscribeMonitored (initial_world (configured false true false)) quiet)
            "onAdStateChange" skippable_ad _ false true
            (configured false true false) eq_refl _).
  vm_compute. right. left.
Defined.

(** X11.  The same policy holds for the guarded handler [handleEvent], which
    never plays a video and never sets the autoplay mode of the device. *)
Theorem handleEvent_follows_policy pf
    (w : World) (event : string) (args : list value) (w' : World) :
  Lounge.handleEvent pf w event args = Returned w' →
  policy_step w w' ∧
  ∀ g, g ∈ drop (length (spawned w)) (spawned w') →
       match g with
       | GoPlayVideo _ | GoSetAutoPlayMode _ => False
       | _ => True
       end.
Proof.
  unfold Lounge.handleEvent.
  assert (policy_step w (handleEvent_switch pf w event args) ∧
          ∀ g, g ∈ drop (length (spawned w))
                    (spawned (handleEvent_switch pf w event args)) →
               match g with
               | GoPlayVideo _ | GoSetAutoPlayMode _ => False
               | _ => True
               end) as Hsw.
  { unfold handleEvent_switch, policy_step.
    repeat case_match;
      (split;
       [ first
           [ by policy_solve
           | split; [done|]; split; [done|];
             exists [GoSkipAd; GoMute false true]; cbn; rewrite <- app_assoc;
             split; [done|]; split;
             [ by repeat constructor | intros _; right; left ] ]
       | ]);
      cbn [go with_api spawned]; rewrite <- ?app_assoc;
      first [rewrite drop_app_length | rewrite drop_all];
      (let Hin := fresh in
       intros ? Hin;
       repeat (apply elem_of_cons in Hin; destruct Hin as [->|Hin]; [done|]);
       by apply elem_of_nil in Hin). }
  repeat case_match; intros [= <-]; done.
Qed.

Lemma handleEvent_follows_policy_witness :
  ∃ w',
    Lounge.handleEvent no_float
      (SubscribeMonitored (initial_world (configured false true false)) quiet)
      "onAdStateChange" skippable_ad
    = Returned w' ∧
    policy_step
      (SubscribeMonitored (initial_world (configured false true false)) quiet)
      w'.
Proof.
  eexists. split; [reflexivity|].
  eapply (handleEvent_follows_policy no_float _ "onAdStateChange"
            skippable_ad).
  reflexivity.
Defined.

(** *** Live goroutines of a session *)

Lemma elem_of_live_watchdogs w c :
  c ∈ live_watchdogs w ↔ GoWatchdog c ∈ spawned w ∧ c ∉ cancelled w.
Proof.
  unfold live_watchdogs. rewrite list_elem_of_omap. split.
  - intros (g & Hg & Hc). destruct g; try done.
    destruct (decide (ctx ∈ cancelled w)); [done|]. by injection Hc as <-.
  - intros [Hg Hc]. exists (GoWatchdog c). split; [done|].
    by rewrite decide_False.
Qed.

Lemma elem_of_live_subscriptions w c :
  c ∈ live_subscriptions w ↔ GoSubscribe c ∈ spawned w ∧ c ∉ cancelled w.
Proof.
  unfold live_subscriptions. rewrite list_elem_of_omap. split.
  - intros (g & Hg & Hc). destruct g; try done.
    destruct (decide (ctx ∈ cancelled w)); [done|]. by injection Hc as <-.
  - intros [Hg Hc]. exists (GoSubscribe c). split; [done|].
    by rewrite decide_False.
Qed.

Lemma elem_of_contexts w c :
  c ∈ contexts w ↔ GoSubscribe c ∈ spawned w ∨ GoWatchdog c ∈ spawned w.
Proof.
  unfold contexts. rewrite list_elem_of_omap. split.
  - intros (g & Hg & Hc). destruct g; try done; injection Hc as <-; auto.
  - intros [Hg|Hg]; eexists; (split; [exact Hg|done]).
Qed.

Lemma omap_sublist {A B : Type} (f g : A → option B) (l : list A) :
  (∀ x y, f x = Some y → g x = Some y) →
  omap f l `sublist_of` omap g l.
Proof.
  intros Hfg. induction l as [|x l IH]; [constructor|]. cbn.
  destruct (f x) as [y|] eqn:Hf.
  - rewrite (Hfg x y Hf). by constructor.
  - destruct (g x); [by constructor|done].
Qed.

Lemma NoDup_all_equal {A : Type} (l : list A) :
  NoDup l → (∀ a b, a ∈ l → b ∈ l → a = b) → (length l ≤ 1)%nat.
Proof.
  intros Hnd Heq. destruct l as [|a [|b l]]; simpl; [lia..|].
  assert (a = b) as -> by (apply Heq; [left|right; left]).
  apply NoDup_cons in Hnd as [Hb _]. destruct Hb. left.
Qed.

Lemma session_inv_initial y : session_inv (initial_world y).
Proof.
  split_and!; [|constructor|..]; intros c Hc; by apply elem_of_nil in Hc.
Qed.

Lemma elem_of_other gs g :
  Forall other_goroutine gs → g ∈ gs → other_goroutine g.
Proof. rewrite Forall_forall. auto. Qed.

(** An event keeps the invariant. *)
Lemma session_inv_event w w' :
  event_step w w' → next_ctx w' = next_ctx w →
  session_inv w → session_inv w'.
Proof.
  intros (Hwt & Hst & Hc & gs & Hsp & Hgs) Hn (Hlt & Hnd & Hw & Hs).
  assert (contexts w' = contexts w) as Hctx.
  { unfold contexts. rewrite Hsp, omap_app.
    assert (omap (λ g, match g with
                       | GoSubscribe ctx | GoWatchdog ctx => Some ctx
                       | _ => None
                       end) gs = []) as ->; [|by rewrite app_nil_r].
    clear -Hgs. induction Hgs as [|g gs Hg _ IH]; [done|].
    destruct g; first [done|exact IH]. }
  split_and!.
  - rewrite Hctx, Hn. exact Hlt.
  - by rewrite Hctx.
  - intros c [Hg Hcc]%elem_of_live_watchdogs. rewrite Hwt. apply Hw.
    apply elem_of_live_watchdogs. split; [|set_solver].
    rewrite Hsp in Hg. apply elem_of_app in Hg as [Hg|Hg]; [done|].
    by destruct (elem_of_other _ _ Hgs Hg).
  - intros c [Hg Hcc]%elem_of_live_subscriptions. rewrite Hst. apply Hs.
    apply elem_of_live_subscriptions. split; [|set_solver].
    rewrite Hsp in Hg. apply elem_of_app in Hg as [Hg|Hg]; [done|].
    by destruct (elem_of_other _ _ Hgs Hg).
Qed.

Lemma session_inv_with_api f w :
  (∀ y, watchdogTask (f y) = watchdogTask y ∧
        subscribeTask (f y) = subscribeTask y) →
  session_inv w → session_inv (with_api f w).
Proof.
  intros Hf. apply session_inv_event; [|done].
  by apply event_step_with_api.
Qed.

Lemma session_inv_watchdog_tick ctx w :
  session_inv w → session_inv (watchdog_tick ctx w).
Proof.
  intros Hinv. unfold watchdog_tick.
  destruct (decide (ctx ∈ cancelled w)); [done|].
  destruct (subscribeTask (api w)) as [sub|] eqn:Hsub; [|done].
  destruct Hinv as (Hlt & Hnd & Hw & Hs).
  split_and!; [done|done| |].
  - intros c [Hg Hcc]%elem_of_live_watchdogs. cbn in *.
    apply Hw, elem_of_live_watchdogs. split; [done|set_solver].
  - intros c [Hg Hcc]%elem_of_live_subscriptions. cbn in *.
    assert (c ∈ live_subscriptions w) as Hc.
    { apply elem_of_live_subscriptions. split; [done|set_solver]. }
    apply Hs in Hc. rewrite Hsub in Hc. injection Hc as ->. set_solver.
Qed.

Lemma SubscribeMonitored_world w cb :
  let w' := SubscribeMonitored w cb in
  spawned w' = spawned w ++ [GoSubscribe (next_ctx w); GoWatchdog (S (next_ctx w))] ∧
  next_ctx w' = S (S (next_ctx w)) ∧
  subscribeTask (api w') = Some (next_ctx w) ∧
  watchdogTask (api w') = Some (S (next_ctx w)) ∧
  (∀ c, c ∈ cancelled w' ↔
        c ∈ cancelled w ∨ watchdogTask (api w) = Some c
        ∨ subscribeTask (api w) = Some c).
Proof.
  unfold SubscribeMonitored.
  destruct w as [[vs ps st wt cbk sd ap ma sa] cs n sp].
  destruct wt as [wd|], st as [sub|]; cbn;
    rewrite <- ?app_assoc; (split_and!; [done..|]); intros c;
    rewrite ?elem_of_union, ?elem_of_singleton; intuition congruence.
Qed.

Lemma session_inv_SubscribeMonitored w cb :
  session_inv w → session_inv (SubscribeMonitored w cb).
Proof.
  intros (Hlt & Hnd & Hw & Hs).
  destruct (SubscribeMonitored_world w cb) as (Hsp & Hn & Hst & Hwt & Hc).
  set (w' := SubscribeMonitored w cb) in *. set (n := next_ctx w) in *.
  assert (contexts w' = contexts w ++ [n; S n]) as Hctx.
  { unfold contexts. by rewrite Hsp, omap_app. }
  split_and!.
  - intros c. rewrite Hctx, Hn.
    intros [Hin|Hin]%elem_of_app; [specialize (Hlt c Hin); lia|].
    apply elem_of_cons in Hin as [->|Hin]; [lia|].
    apply list_elem_of_singleton in Hin as ->. lia.
  - rewrite Hctx. apply NoDup_app. split_and!; [done| |].
    + intros c Hin%Hlt Hc'.
      apply elem_of_cons in Hc' as [->|Hc']; [lia|].
      apply list_elem_of_singleton in Hc' as ->. lia.
    + apply NoDup_cons. split; [|apply NoDup_singleton].
      intros Hin%list_elem_of_singleton. lia.
  - intros c [Hg Hcc]%elem_of_live_watchdogs. rewrite Hwt.
    rewrite Hsp in Hg. apply elem_of_app in Hg as [Hg|Hg].
    + destruct Hcc. apply Hc.
      destruct (decide (c ∈ cancelled w)) as [|Hlive]; [by left|].
      right. left. apply Hw, elem_of_live_watchdogs. done.
    + apply elem_of_cons in Hg as [?|Hg]; [done|].
      apply list_elem_of_singleton in Hg. by injection Hg as ->.
  - intros c [Hg Hcc]%elem_of_live_subscriptions. rewrite Hst.
    rewrite Hsp in Hg. apply elem_of_app in Hg as [Hg|Hg].
    + destruct Hcc. apply Hc.
      destruct (decide (c ∈ cancelled w)) as [|Hlive]; [by left|].
      right. right. apply Hs, elem_of_live_subscriptions. done.
    + apply elem_of_cons in Hg as [Hg|Hg]; [by injection Hg as ->|].
      by apply list_elem_of_singleton in Hg.
Qed.

Lemma session_inv_one w :
  session_inv w →
  (length (live_subscriptions w) ≤ 1)%nat ∧
  (length (live_watchdogs w) ≤ 1)%nat ∧
  (∀ c, c ∈ live_subscriptions w → subscribeTask (api w) = Some c) ∧
  (∀ c, c ∈ live_watchdogs w → watchdogTask (api w) = Some c).
Proof.
  intros (Hlt & Hnd & Hw & Hs).
  split_and!; [| |done|done].
  - apply NoDup_all_equal.
    + apply (sublist_NoDup _ (contexts w)); [done|].
      apply omap_sublist. intros g c. destruct g; try done.
      by destruct (decide _).
    + intros a b Ha%Hs Hb%Hs. congruence.
  - apply NoDup_all_equal.
    + apply (sublist_NoDup _ (contexts w)); [done|].
      apply omap_sublist. intros g c. destruct g; try done.
      by destruct (decide _).
    + intros a b Ha%Hw Hb%Hw. congruence.
Qed.

Section session_facts.
Context (bl : list string).
Context (ud : string → option (list (gmap string value))).
Context (ui : string → option (gmap string value)).
Context (pf : string → option Z).

Lemma ProcessEvent_next_ctx w eventType args w' :
  ProcessEvent bl ud ui pf w eventType args = Returned w' →
  next_ctx w' = next_ctx w.
Proof.
  unfold ProcessEvent, ProcessEvent_switch, arg0, skip_or_mute.
  destruct (watchdogTask (api w));
    repeat case_match; intros ?; simplify_eq; done.
Qed.

Lemma handleEvent_switch_step w event args :
  event_step w (handleEvent_switch pf w event args) ∧
  next_ctx (handleEvent_switch pf w event args) = next_ctx w.
Proof.
  unfold handleEvent_switch.
  repeat case_match; (split; [event_steps|done]).
Qed.

Lemma session_step_inv w w' :
  session_step bl ud ui pf w w' → session_inv w → session_inv w'.
Proof.
  intros Hstep Hinv. destruct Hstep as
    [w mute|w skip|w autoPlay|w cb|w ctx Hctx|w e args w' Hev|w e args w' Hev].
  - by apply session_inv_with_api.
  - by apply session_inv_with_api.
  - by apply session_inv_with_api.
  - by apply session_inv_SubscribeMonitored.
  - by apply session_inv_watchdog_tick.
  - pose proof (ProcessEvent_next_ctx _ _ _ _ Hev) as Hn.
    apply ProcessEvent_step in Hev.
    eapply session_inv_event; [| |exact Hinv]; [|done].
    eapply event_step_trans; [|exact Hev].
    destruct (watchdogTask (api w)); [apply event_step_cancel|apply event_step_refl].
  - destruct (handleEvent_switch_step w e args) as [Hsw Hn].
    unfold Lounge.handleEvent in Hev.
    assert (w' = handleEvent_switch pf w e args) as ->
      by (repeat case_match; by simplify_eq).
    by eapply session_inv_event.
Qed.

Lemma reachable_inv w : reachable bl ud ui pf w → session_inv w.
Proof.
  revert w. apply rtc_ind_r; [apply session_inv_initial|].
  intros w1 w2 _ Hstep IH. by eapply session_step_inv.
Qed.

(** X14.  A session never leaks a goroutine: in every state that the exported
    calls, the firings of the watchdogs and the events lead to, at most
    one subscription and at most one watchdog are live, and a live one
    is the one whose cancel function the session holds. *)
Theorem session_keeps_one_subscription_one_watchdog (w : World) :
  reachable bl ud ui pf w →
  (length (live_subscriptions w) ≤ 1)%nat ∧
  (length (live_watchdogs w) ≤ 1)%nat ∧
  (∀ c, c ∈ live_subscriptions w → subscribeTask (api w) = Some c) ∧
  (∀ c, c ∈ live_watchdogs w → watchdogTask (api w) = Some c).
Proof.
  intros Hreach. by apply session_inv_one, reachable_inv.
Qed.

End session_facts.

Lemma session_keeps_one_subscription_one_watchdog_witness :
  let w := SubscribeMonitored
             (SubscribeMonitored (initial_world NewYtLoungeApi) quiet) quiet in
  reachable YouTubeClientBlacklist decode_devices decode_info no_float w ∧
  (length (live_subscriptions w) ≤ 1)%nat.
Proof.
  assert (reachable YouTubeClientBlacklist decode_devices decode_info no_float
            (SubscribeMonitored
               (SubscribeMonitored (initial_world NewYtLoungeApi) quiet) quiet))
    as Hreach.
  { eapply rtc_l; [apply step_SubscribeMonitored|].
    eapply rtc_l; [apply step_SubscribeMonitored|]. apply rtc_refl. }
  split; [exact Hreach|].
  exact (proj1 (session_keeps_one_subscription_one_watchdog _ _ _ _ _ Hreach)).
Defined.

Lemma no_elem_nil {A : Type} (l : list A) : (∀ x, x ∉ l) → l = [].
Proof.
  destruct l as [|x l]; [done|]. intros Hl. destruct (Hl x). left.
Qed.

(** X15.  When a watchdog fires, in whatever state the session is, no
    subscription is live afterwards and the session holds no cancel
    function for one; the firing starts nothing, and a second firing
    changes nothing. *)
Theorem watchdog_firing_ends_subscription bl ud ui pf (w : World) (ctx : nat) :
  reachable bl ud ui pf w →
  ctx ∈ live_watchdogs w →
  live_subscriptions (watchdog_tick ctx w) = [] ∧
  subscribeTask (api (watchdog_tick ctx w)) = None ∧
  spawned (watchdog_tick ctx w) = spawned w ∧
  watchdog_tick ctx (watchdog_tick ctx w) = watchdog_tick ctx w.
Proof.
  intros Hreach [_ Hlive]%elem_of_live_watchdogs.
  destruct (reachable_inv bl ud ui pf w Hreach) as (_ & _ & _ & Hs).
  unfold watchdog_tick at 1 2 3 5. rewrite decide_False by done.
  destruct (subscribeTask (api w)) as [sub|] eqn:Hsub.
  - split_and!; [|done|done|].
    + apply no_elem_nil. intros c [Hg Hc]%elem_of_live_subscriptions.
      cbn in Hg, Hc.
      assert (c ∈ live_subscriptions w) as Hin.
      { apply elem_of_live_subscriptions. split; [done|set_solver]. }
      apply Hs in Hin. rewrite ?Hsub in Hin. simplify_eq. set_solver.
    + unfold watchdog_tick. cbn.
      rewrite (decide_False (P:=ctx ∈ cancelled w)) by done.
      rewrite Hsub. by destruct (decide (ctx ∈ _)).
  - split_and!; [|done|done|].
    + apply no_elem_nil. intros c Hc%Hs. congruence.
    + unfold watchdog_tick. rewrite decide_False by done. by rewrite Hsub.
Qed.

Lemma watchdog_firing_ends_subscription_witness :
  let w := SubscribeMonitored (initial_world NewYtLoungeApi) quiet in
  reachable YouTubeClientBlacklist decode_devices decode_info no_float w ∧
  1%nat ∈ live_watchdogs w ∧
  live_subscriptions (watchdog_tick 1 w) = [].
Proof.
  assert (reachable YouTubeClientBlacklist decode_devices decode_info no_float
            (SubscribeMonitored (initial_world NewYtLoungeApi) quiet))
    as Hreach.
  { eapply rtc_l; [apply step_SubscribeMonitored|]. apply rtc_refl. }
  assert (1%nat ∈ live_watchdogs
            (SubscribeMonitored (initial_world NewYtLoungeApi) quiet)) as Hlive.
  { vm_compute. left. }
  split; [exact Hreach|]. split; [exact Hlive|].
  exact (proj1 (watchdog_firing_ends_subscription _ _ _ _ _ 1%nat Hreach Hlive)).
Defined.

(** *** The two handlers *)

(** X13.  [ProcessEvent] and [handleEvent] do not treat the same event alike.
    On a state change to state 1 with muting on, the first starts an
    unmute and the second a mute; and when an ad that cannot be skipped
    starts while both skipping and muting are on, the first mutes and the
    second starts nothing. *)
Theorem handlers_disagree bl ud ui pf (w : World)
    (data : gmap string value) (rest : list value) :
  (muteAds (api w) = true →
   index data "state" = VStr "1" →
   ProcessEvent_switch bl ud ui pf w "onStateChange" (VMap data :: rest)
   = Returned (Next (go (GoMute false true) w)) ∧
   handleEvent_switch pf w "onStateChange" (VMap data :: rest)
   = go (GoMute true true) w) ∧
  (skipAds (api w) = true → muteAds (api w) = true →
   ∀ adState, index data "adState" = VStr adState → adState ≠ "0" →
   is_str (index data "isSkipEnabled") "true" = false →
   ProcessEvent_switch bl ud ui pf w "onAdStateChange" (VMap data :: rest)
   = Returned (Next (go (GoMute true true) w)) ∧
   handleEvent_switch pf w "onAdStateChange" (VMap data :: rest) = w).
Proof.
  split.
  - intros Hmute Hstate.
    unfold ProcessEvent_switch, handleEvent_switch. cbn.
    by rewrite Hmute, Hstate.
  - intros Hskip Hmute adState Had Hne Hunskippable.
    apply String.eqb_neq in Hne.
    unfold ProcessEvent_switch, handleEvent_switch, skip_or_mute. cbn.
    rewrite Hskip, Hmute, Had, Hunskippable. cbn. rewrite Hne. cbn.
    split; [done|].
    destruct (index data "isSkipEnabled") as [| | |s| |]; try done.
    cbn in *. by rewrite Hunskippable.
Qed.

Lemma handlers_disagree_witness :
  handleEvent_switch no_float (initial_world (configured true false false))
    "onStateChange" [VMap {["state" := VStr "1"]}]
  = go (GoMute true true) (initial_world (configured true false false)).
Proof.
  exact (proj2 (proj1 (handlers_disagree YouTubeClientBlacklist decode_devices
           decode_info no_float (initial_world (configured true false false))
           {["state" := VStr "1"]} []) eq_refl eq_refl)).
Defined.

End LoungeSessionFacts.

(** ** The first helper: its one-pass merge and the reports *)

Module ApiHelperFacts.
Import Merge MergeFacts ApiHelper.

Section float_sub.
Context (fsub : Z → Z → Z).

Lemma merge_step_push rs f s :
  merge_step fsub (rev rs, f) s = (rev (merge_push fsub rs s), f && is_locked s).
Proof.
  unfold merge_step, merge_push. cbn [fst snd].
  destruct rs as [|l rs]; [done|]. cbn [rev].
  rewrite last_snoc, removelast_last.
  by destruct (_ <? _).
Qed.

Lemma merge_foldl ts rs f :
  foldl (merge_step fsub) (rev rs, f) ts
  = (rev (foldl (merge_push fsub) rs ts), f && forallb is_locked ts).
Proof.
  revert rs f. induction ts as [|s ts IH]; intros rs f; simpl.
  - by rewrite andb_true_r.
  - by rewrite merge_step_push, IH, andb_assoc.
Qed.

Lemma processSegments_with_eq sort_by_end raws :
  (∀ l, sort_by_end l ≡ₚ l) →
  ApiHelper.processSegments_with fsub sort_by_end raws
  = (rev (foldl (merge_push fsub) [] (sort_by_end raws)),
     forallb is_locked raws).
Proof.
  intros Hperm. unfold ApiHelper.processSegments_with.
  rewrite (merge_foldl _ [] true). cbn [andb]. f_equal.
  apply forallb_perm, Hperm.
Qed.

Lemma merge_push_ids rs s :
  concat (UUIDs <$> rev (merge_push fsub rs s))
  = concat (UUIDs <$> rev rs) ++ [UUID s].
Proof.
  unfold merge_push. destruct rs as [|l rs]; [done|].
  destruct (_ <? _); cbn [rev]; rewrite !fmap_app, !concat_app; cbn.
  - by rewrite !app_nil_r, app_assoc.
  - by rewrite !app_nil_r.
Qed.

Lemma foldl_merge_push_ids ts rs :
  concat (UUIDs <$> rev (foldl (merge_push fsub) rs ts))
  = concat (UUIDs <$> rev rs) ++ (UUID <$> ts).
Proof.
  revert rs. induction ts as [|s ts IH]; intros rs; cbn [foldl].
  - by rewrite app_nil_r.
  - rewrite IH, merge_push_ids, <- app_assoc. done.
Qed.

Context (Hsub : rounded_sub fsub).

(** The stack of segments stays separated, newest first, while
    well-formed records arrive sorted by end. *)
Lemma foldl_merge_push_separated ts rs :
  Forall well_formed ts →
  StronglySorted (λ a b, Seg1 a ≤ Seg1 b) ts →
  StronglySorted (flip (separated fsub)) rs →
  Forall (λ g, Start g ≤ End_ g) rs →
  (∀ l s, head rs = Some l → s ∈ ts → End_ l ≤ Seg1 s) →
  StronglySorted (flip (separated fsub)) (foldl (merge_push fsub) rs ts).
Proof.
  revert rs. induction ts as [|s ts IH]; intros rs Hwf Hts Hrs Hsh Hhd; [done|].
  apply StronglySorted_inv in Hts as [Hts Hs]. rewrite Forall_forall in Hs.
  apply Forall_cons in Hwf as [Hws Hwf]. unfold well_formed in Hws.
  cbn [foldl]. unfold merge_push at 2. destruct rs as [|l rs].
  - apply IH; [done|done|repeat constructor|by repeat constructor|].
    intros l' s' [= <-] Hs'. by apply Hs.
  - apply StronglySorted_inv in Hrs as [Hrs Hl].
    apply Forall_cons in Hsh as [Hshl Hsh].
    assert (End_ l ≤ Seg1 s) as Hls by (apply Hhd; [done|left]).
    destruct (Z.ltb_spec (fsub (Seg0 s) (End_ l)) second) as [Hlt|Hge].
    + apply IH; [done|done| | |].
      * constructor; [done|]. eapply Forall_impl; [exact Hl|].
        intros e He. exact He.
      * constructor; [simpl; lia|done].
      * intros l' s' [= <-] Hs'. by apply Hs.
    + assert (flip (separated fsub) (mkSegment (Seg0 s) (Seg1 s) [UUID s]) l)
        as Hnew.
      { unfold flip, separated. simpl. split; [done|].
        destruct (Z.lt_ge_cases (End_ l) (Seg0 s)) as [|Hle]; [lia|].
        pose proof (proj1 Hsub _ _ Hle). unfold second in Hge. lia. }
      apply IH; [done|done| | |].
      * constructor; [by constructor|]. constructor; [done|].
        eapply Forall_impl; [exact Hl|]. intros e He. unfold flip in *.
        exact (separated_trans fsub Hsub _ _ _ He Hnew).
      * constructor; [simpl; lia|by constructor].
      * intros l' s' [= <-] Hs'. by apply Hs.
Qed.

End float_sub.

Lemma one_pass_processSegments_as_with fsub raws :
  ApiHelper.processSegments fsub raws
  = ApiHelper.processSegments_with fsub (sort_Slice less_end) raws.
Proof. done. Qed.

(** X3.  The one-pass merge of [ApiHelper], whatever the sort by end does
    with records of equal ends.  The ids come out in the order in which
    the sort leaves their records, the flag is the conjunction of the
    locks, and on well-formed records the segments are sorted by start,
    disjoint and one second apart or more, as the subtraction of the loop
    measures it. *)
Theorem simple_processSegments_canonical (fsub : Z → Z → Z)
    (sort_by_end : list typedSegment → list typedSegment)
    (raws : list typedSegment) :
  (∀ l, sort_by_end l ≡ₚ l) →
  (∀ l, StronglySorted (λ a b, Seg1 a ≤ Seg1 b) (sort_by_end l)) →
  concat (UUIDs <$> (ApiHelper.processSegments_with fsub sort_by_end raws).1)
  = UUID <$> sort_by_end raws ∧
  (ApiHelper.processSegments_with fsub sort_by_end raws).2
  = forallb is_locked raws ∧
  (rounded_sub fsub → Forall well_formed raws →
   sorted_by_start (ApiHelper.processSegments_with fsub sort_by_end raws).1 ∧
   non_overlapping (ApiHelper.processSegments_with fsub sort_by_end raws).1 ∧
   gap_at_least_1s fsub (ApiHelper.processSegments_with fsub sort_by_end raws).1).
Proof.
  intros Hperm Hsorted. rewrite processSegments_with_eq by done.
  cbn [fst snd]. split_and!.
  - by rewrite foldl_merge_push_ids.
  - done.
  - intros Hsub Hwf. apply separated_canonical, StronglySorted_rev; [done|].
    apply foldl_merge_push_separated.
    + done.
    + by rewrite Hperm.
    + apply Hsorted.
    + constructor.
    + constructor.
    + intros l s Hhd. discriminate.
Qed.

Lemma simple_processSegments_canonical_witness :
  Forall well_formed spec_example ∧
  gap_at_least_1s Z.sub (ApiHelper.processSegments Z.sub spec_example).1.
Proof.
  split; [exact spec_example_well_formed|].
  exact (proj2 (proj2 (proj2 (proj2
           (simple_processSegments_canonical Z.sub (sort_Slice less_end)
              spec_example (sort_Slice_perm less_end)
              (sort_Slice_sorted less_end Seg1 (λ a b, eq_refl))))
           exact_sub_rounded spec_example_well_formed))).
Defined.

(** *** Reports of viewed segments *)

Section reports.
Context {W : Type} (Do : W → string → W * bool).

Lemma post_each_prefix w uuids :
  ∃ skipped,
    uuids = (post_each Do w uuids).1.2 ++ skipped ∧
    ((post_each Do w uuids).2 = false → skipped = []) ∧
    ((post_each Do w uuids).2 = true →
       ∃ done_ uuid w0, (post_each Do w uuids).1.2 = done_ ++ [uuid] ∧
                        (Do w0 uuid).2 = true).
Proof.
  revert w. induction uuids as [|uuid rest IH]; intros w.
  - exists []. by split_and!.
  - cbn [post_each]. destruct (Do w uuid) as [w1 failed] eqn:HDo.
    destruct failed.
    + exists rest. split_and!; [done|done|]. intros _.
      exists [], uuid, w. by rewrite HDo.
    + destruct (IH w1) as (skipped & Heq & Hok & Hfail).
      destruct (post_each Do w1 rest) as [[w2 requested] err].
      cbn [fst snd] in *. exists skipped. split_and!; [by rewrite Heq at 1|done|].
      intros Herr. destruct (Hfail Herr) as (done_ & u & w0 & -> & Hu).
      by exists (uuid :: done_), u, w0.
Qed.

(** X5.  [MarkViewedSegments] asks for nothing while the tracking of skips is
    off; otherwise it reports the ids in order and stops at the first
    request that fails: the ids requested are a prefix of the ids given,
    all of them when no error is returned, and when an error is returned
    the last request is the one that failed and the ids after it are
    never reported. *)
Theorem MarkViewedSegments_reports_prefix
    (SkipCountTracking : bool) (w : W) (uuids : list string) :
  (SkipCountTracking = false →
     MarkViewedSegments Do SkipCountTracking w uuids = (w, [], false)) ∧
  (SkipCountTracking = true →
     ∃ skipped,
       uuids = (MarkViewedSegments Do SkipCountTracking w uuids).1.2 ++ skipped ∧
       ((MarkViewedSegments Do SkipCountTracking w uuids).2 = false →
          skipped = []) ∧
       ((MarkViewedSegments Do SkipCountTracking w uuids).2 = true →
          ∃ done_ uuid w0,
            (MarkViewedSegments Do SkipCountTracking w uuids).1.2
            = done_ ++ [uuid] ∧
            (Do w0 uuid).2 = true)).
Proof.
  unfold MarkViewedSegments. split; intros ->; cbn [negb]; [done|].
  apply post_each_prefix.
Qed.

End reports.

End ApiHelperFacts.

(** ** The listener: what a scheduled skip targets, and the loop *)

Module ListenerMore.
Import Merge MergeFacts Listener ListenerFacts.

Lemma next_segment_sound segments position segment start :
  Forall (λ g, Start g ≤ End_ g) segments →
  next_segment segments position = Some (segment, start) →
  segment ∈ segments ∧ position < End_ segment ∧
  (start = position ∨ start = Start segment ∧ position < start).
Proof.
  induction segments as [|g rest IH]; intros Hshape Hnext; [done|].
  apply Forall_cons in Hshape as [Hg Hshape]. cbn [next_segment] in Hnext.
  destruct (isWithinStartRange position g) eqn:Hwithin; cbn [orb] in Hnext.
  - injection Hnext as <- <-. split; [left|].
    unfold isWithinStartRange in Hwithin.
    apply andb_true_iff in Hwithin as [_ Hlt%Z.ltb_lt]. split; [lia|by left].
  - destruct (isBeyondCurrentPosition position g) eqn:Hbeyond.
    + injection Hnext as <- <-. split; [left|].
      unfold isBeyondCurrentPosition in Hbeyond.
      rewrite Z.gtb_ltb in Hbeyond. apply Z.ltb_lt in Hbeyond.
      split; [lia|right; split; [done|lia]].
    + destruct (IH Hshape Hnext) as (? & ? & ?). split; [by right|done].
Qed.

(** X17.  A skip scheduled on a merged list.  When the segments of the video
    are the merge of well-formed records, a skip that the listener
    schedules targets the end of a merged segment, and that end lies ahead
    of the reported position; the time it sleeps is the expression of the
    source, [(start - position - since) - offset] with the three
    subtractions of [float64], where [start] is the start of that segment,
    which lies ahead of the position, or the position itself when the
    segment is taken as active already; and the ids it reports are those
    of the segment: ids of raw records, at least one. *)
Theorem scheduled_skip_is_ahead (fsub : Z → Z → Z) (d : DeviceListener)
    (GetSegments : string → option (list Segment))
    (raws : list typedSegment) (state : PlaybackState) (since : Z)
    (logged : list event) (c : skip_call) :
  Forall well_formed raws →
  GetSegments (VideoID state) = Some (processSegments fsub raws).1 →
  processPlaybackState fsub d GetSegments state since = (logged, Some c) →
  CurrentTime state < seek_position c ∧
  uuids c ≠ [] ∧
  (∀ u, u ∈ uuids c → u ∈ UUID <$> raws) ∧
  ∃ g start,
    g ∈ (processSegments fsub raws).1 ∧
    seek_position c = End_ g ∧ uuids c = UUIDs g ∧
    timeTo c = fsub (fsub (fsub start (CurrentTime state)) since)
                 (Offset (device d)) ∧
    (start = CurrentTime state ∨
     start = Start g ∧ CurrentTime state < Start g).
Proof.
  intros Hwf HG. unfold processPlaybackState.
  pose proof (processSegments_shape fsub raws Hwf) as Hshape.
  pose proof (processSegments_ids fsub raws) as Hids.
  cbv zeta.
  destruct (negb (VideoID state =? "")%string);
    [rewrite HG|simpl; destruct (State state); by (intros ?; simplify_eq)].
  change (default [] (Some (processSegments fsub raws).1))
    with (processSegments fsub raws).1.
  destruct (State state); try by (intros ?; simplify_eq).
  set (out := (processSegments fsub raws).1) in *.
  destruct (0 <? Z.of_nat (length out)); [|by (intros ?; simplify_eq)].
  unfold timeToSegment.
  destruct (next_segment out (CurrentTime state)) as [[g start]|] eqn:Hnext;
    [|by (intros ?; simplify_eq)].
  intros Heq. simplify_eq. cbn [timeTo seek_position uuids].
  assert (Forall (λ g, Start g ≤ End_ g) out) as Hse.
  { eapply Forall_impl; [exact Hshape|]. by intros ? [? _]. }
  destruct (next_segment_sound _ _ _ _ Hse Hnext) as (Hg & Hend & Hstart).
  rewrite Forall_forall in Hshape. destruct (Hshape g Hg) as [Hgs Hne].
  split_and!; [done|done| |].
  - intros u Hu. rewrite <- Hids. apply list_elem_of_In, in_concat.
    exists (UUIDs g). split; apply list_elem_of_In; [|done].
    by apply list_elem_of_fmap_2.
  - exists g, start. split_and!; [done..|].
    destruct Hstart as [->|[-> ?]]; [by left|by right].
Qed.

Lemma scheduled_skip_is_ahead_witness :
  Forall well_formed spec_example ∧ 1000 < 30000.
Proof.
  split; [exact spec_example_well_formed|].
  exact (proj1 (scheduled_skip_is_ahead Z.sub
           (mkDeviceListener tv false None false)
           (λ _, Some (processSegments Z.sub spec_example).1)
           spec_example (mkPlaybackState "video" 1000 StatePlaying) 0
           [Infof "Playing video %s with %d segments" 2]
           (Skip 24000 30000 ["c"])
           spec_example_well_formed eq_refl eq_refl)).
Defined.

End ListenerMore.

(** ** The loop of the listener on the session *)

Module ListenerLoopFacts.
Import Lounge LoungeSession ListenerLoop LoungeFacts LoungeSessionFacts.

Local Open Scope nat_scope.

Lemma Loop_S cb n w : Loop cb (S n) w = SubscribeMonitored (Loop cb n w) cb.
Proof. done. Qed.

Lemma Loop_session_inv cb n : session_inv (Loop cb n (initial_world NewYtLoungeApi)).
Proof.
  induction n as [|n IH]; [apply session_inv_initial|].
  rewrite Loop_S. by apply session_inv_SubscribeMonitored.
Qed.

Lemma length_le_1_elem {A : Type} (l : list A) (x : A) :
  length l ≤ 1 → x ∈ l → l = [x].
Proof.
  destruct l as [|y [|z l]]; simpl; intros Hlen Hx; [|..|lia].
  - by apply elem_of_nil in Hx.
  - by apply list_elem_of_singleton in Hx as ->.
Qed.

Lemma Loop_state cb k :
  let w := Loop cb (S k) (initial_world NewYtLoungeApi) in
  next_ctx w = 2 * k + 2 ∧
  subscribeTask (api w) = Some (2 * k) ∧
  watchdogTask (api w) = Some (2 * k + 1) ∧
  (∀ c, c ∈ cancelled w ↔ c < 2 * k) ∧
  GoSubscribe (2 * k) ∈ spawned w ∧
  GoWatchdog (2 * k + 1) ∈ spawned w ∧
  length (subscriptions w) = S k.
Proof.
  induction k as [|k IH].
  - cbn. split_and!; [done..| |left|right; left|done].
    intros c. split; [set_solver|lia].
  - cbv zeta in *. rewrite Loop_S.
    set (w := Loop cb (S k) (initial_world NewYtLoungeApi)) in *.
    destruct IH as (Hn & Hst & Hwt & Hc & _ & _ & Hlen).
    destruct (SubscribeMonitored_world w cb) as (Hsp & Hn' & Hst' & Hwt' & Hc').
    rewrite Hn in *.
    replace (2 * S k) with (2 * k + 2) by lia.
    replace (S (2 * k + 2)) with (2 * k + 2 + 1) in * by lia.
    split_and!.
    + rewrite Hn'. lia.
    + done.
    + done.
    + intros c. rewrite Hc', Hc, Hwt, Hst. split.
      * intros [?|[[= <-]|[= <-]]]; lia.
      * intros Hlt. destruct (decide (c < 2 * k)) as [|Hge]; [by left|].
        right. destruct (decide (c = 2 * k)) as [->|Hne]; [by right|].
        left. f_equal. lia.
    + rewrite Hsp. apply elem_of_app. right. left.
    + rewrite Hsp. apply elem_of_app. right. right. left.
    + unfold subscriptions in *. rewrite Hsp, omap_app, length_app, Hlen.
      simpl. lia.
Qed.

(** X16.  Every pass of the loop of the listener subscribes afresh: after
    [k + 1] passes, [k + 1] subscriptions have been started, and the only
    live subscription and the only live watchdog are those of the last
    pass; the ones of the passes before are cancelled, whether or not
    they were still receiving events. *)
Theorem Loop_restarts_subscription (cb : string → list value → outcome unit)
    (k : nat) :
  let w := Loop cb (S k) (initial_world NewYtLoungeApi) in
  length (subscriptions w) = S k ∧
  live_subscriptions w = [2 * k] ∧
  live_watchdogs w = [2 * k + 1].
Proof.
  cbv zeta.
  destruct (Loop_state cb k) as (_ & _ & _ & Hc & Hs & Hw & Hlen).
  destruct (session_inv_one _ (Loop_session_inv cb (S k))) as (Hl1 & Hl2 & _).
  split_and!; [done| |].
  - apply length_le_1_elem; [done|]. apply elem_of_live_subscriptions.
    split; [done|]. rewrite Hc. lia.
  - apply length_le_1_elem; [done|]. apply elem_of_live_watchdogs.
    split; [done|]. rewrite Hc. lia.
Qed.

End ListenerLoopFacts.

(** ** The configuration screen *)

Module SetupFacts.
Import Setup.

Lemma initial_skipCategories (cats : list string) (m0 : gmap string bool) c b :
  foldl (λ (m : gmap string bool) (cat : string), <[cat := true]> m) m0 cats
    !! c = Some b ↔
  (c ∈ cats ∧ b = true) ∨ ((c ∉ cats) ∧ m0 !! c = Some b).
Proof.
  revert m0. induction cats as [|cat cats IH]; intros m0; cbn [foldl].
  - split; [intros ?; right; split; [apply not_elem_of_nil|done]|].
    intros [[H%elem_of_nil _]|[_ ?]]; [destruct H|done].
  - rewrite IH. rewrite not_elem_of_cons, elem_of_cons. split.
    + intros [[? ->]|[Hn Hc]]; [left; by auto|].
      apply lookup_insert_Some in Hc as [[<- <-]|[? ?]]; [left; by auto|].
      right. by auto.
    + intros [[[->|?] ->]|[[? ?] ?]].
      * destruct (decide (cat ∈ cats)); [left; by auto|].
        right. split; [done|]. apply lookup_insert_eq.
      * left. by auto.
      * right. split; [done|]. by rewrite lookup_insert_ne.
Qed.

Lemma saved_categories (l : list (string * bool)) (acc : list string) c :
  c ∈ foldl (λ cats '(cat, selected),
               if (selected : bool) then cats ++ [cat] else cats) acc l ↔
  c ∈ acc ∨ (c, true) ∈ l.
Proof.
  revert acc. induction l as [|[cat sel] l IH]; intros acc; cbn [foldl].
  - split; [by left|]. intros [?|H%elem_of_nil]; [done|destruct H].
  - rewrite IH, elem_of_cons. destruct sel.
    + rewrite elem_of_app, list_elem_of_singleton. split.
      * intros [[?| ->]|?]; auto.
      * intros [?|[[= ->]|?]]; auto.
    + split; [intros [?|?]; auto|]. intros [?|[[=]|?]]; auto.
Qed.

Section screen.
Context (R : MapRange).

Lemma screen_inv_initial cfg0 : screen_inv cfg0 (InitialModel cfg0) cfg0.
Proof. unfold screen_inv. cbn. split_and!; try done; lia. Qed.

Lemma saveConfig_categories cfg0 m cfg c :
  skipCategories m = skipCategories (InitialModel cfg0) →
  c ∈ SkipCategories (saveConfig R m cfg) ↔ c ∈ SkipCategories cfg0.
Proof.
  intros Hm. unfold saveConfig. cbn [SkipCategories].
  rewrite saved_categories, (map_range_perm R), elem_of_map_to_list, Hm.
  cbn [InitialModel skipCategories]. rewrite initial_skipCategories.
  rewrite lookup_empty. split.
  - intros [H%elem_of_nil|[[? _]|[_ ?]]]; [destruct H|done..].
  - intros ?. right. left. done.
Qed.

Lemma Update_screen_inv cfg0 m cfg msg :
  screen_inv cfg0 m cfg →
  ∃ m' cfg' cmd, Update R m cfg msg = Some (m', cfg', cmd) ∧
                 screen_inv cfg0 m' cfg'.
Proof.
  intros (Ht & Hc & Hs & H1 & H2 & H3 & H4 & H5 & H6 & H7 & H8 & H9).
  assert (Z.of_nat (length (tabs m)) = 7) as Hlen by by rewrite Ht.
  destruct msg as [key|W H|]; cbn [Update]; rewrite ?Hlen.
  - repeat case_match; try done; eexists _, _, _; (split; [done|]);
      unfold screen_inv; cbn [set_currentTab currentTab tabs skipCategories
        skipCountTracking muteAds skipAds autoplay saveConfig
        SkipCountTracking MuteAds SkipAds AutoPlay];
      split_and!; try done; try lia;
      try (apply Z.rem_nonneg; lia); try (apply Z.rem_bound_pos; lia);
      intros c; by apply saveConfig_categories.
  - eexists _, _, _. split; [done|]. by unfold screen_inv.
  - eexists _, _, _. split; [done|]. by unfold screen_inv.
Qed.

Lemma run_screen_inv cfg0 msgs m cfg :
  screen_inv cfg0 m cfg →
  ∃ m' cfg', run R m cfg msgs = Some (m', cfg') ∧ screen_inv cfg0 m' cfg'.
Proof.
  revert m cfg. induction msgs as [|msg msgs IH]; intros m cfg Hinv.
  - by exists m, cfg.
  - destruct (Update_screen_inv cfg0 m cfg msg Hinv)
      as (m1 & cfg1 & cmd & HU & Hinv1).
    cbn [run]. rewrite HU. by apply IH.
Qed.

(** X18.  Whatever messages arrive, the screen never panics and the selected
    tab stays one of the tabs; moving right and then left, or left and
    then right, comes back to the same tab. *)
Theorem Update_keeps_tab_in_range (cfg0 : Config) (msgs : list Msg) :
  ∃ m cfg,
    run R (InitialModel cfg0) cfg0 msgs = Some (m, cfg) ∧
    tabs m = tabs (InitialModel cfg0) ∧
    0 ≤ currentTab m < Z.of_nat (length (tabs m)) ∧
    (∃ m1, Update R m cfg (KeyMsg "right") = Some (m1, cfg, None) ∧
       ∃ m2, Update R m1 cfg (KeyMsg "left") = Some (m2, cfg, None) ∧
             currentTab m2 = currentTab m) ∧
    (∃ m1, Update R m cfg (KeyMsg "left") = Some (m1, cfg, None) ∧
       ∃ m2, Update R m1 cfg (KeyMsg "right") = Some (m2, cfg, None) ∧
             currentTab m2 = currentTab m).
Proof.
  destruct (run_screen_inv cfg0 msgs _ _ (screen_inv_initial cfg0))
    as (m & cfg & Hrun & Ht & Hc & _).
  exists m, cfg.
  assert (Z.of_nat (length (tabs m)) = 7) as Hlen by by rewrite Ht.
  split_and!; [done|done|lia|lia| |].
  - cbn. rewrite Hlen. cbn. eexists. split; [reflexivity|].
    cbn. rewrite Hlen. cbn. eexists. split; [reflexivity|]. cbn.
    destruct (decide (currentTab m = 6)) as [->|Hne]; [done|].
    rewrite (Z.rem_small (currentTab m + 1)) by lia.
    replace (currentTab m + 1 - 1 + 7) with (currentTab m + 1 * 7) by lia.
    rewrite Z.rem_add by lia. apply Z.rem_small. lia.
  - cbn. rewrite Hlen. cbn. eexists. split; [reflexivity|].
    cbn. rewrite Hlen. cbn. eexists. split; [reflexivity|]. cbn.
    destruct (decide (currentTab m = 0)) as [->|Hne]; [done|].
    replace (currentTab m - 1 + 7) with (currentTab m - 1 + 1 * 7) by lia.
    rewrite Z.rem_add by lia.
    rewrite (Z.rem_small (currentTab m - 1)) by lia.
    replace (currentTab m - 1 + 1) with (currentTab m) by lia.
    apply Z.rem_small. lia.
Qed.

(** X19.  No message changes a setting: whatever keys are pressed, saving
    included, the four switches of the configuration are what they were
    and the skip categories are the same set; the screen offers no way to
    change them. *)
Theorem setup_keeps_configuration (cfg0 : Config) (msgs : list Msg) :
  ∃ m cfg,
    run R (InitialModel cfg0) cfg0 msgs = Some (m, cfg) ∧
    SkipCountTracking cfg = SkipCountTracking cfg0 ∧
    MuteAds cfg = MuteAds cfg0 ∧ SkipAds cfg = SkipAds cfg0 ∧
    AutoPlay cfg = AutoPlay cfg0 ∧
    (∀ c, c ∈ SkipCategories cfg ↔ c ∈ SkipCategories cfg0).
Proof.
  destruct (run_screen_inv cfg0 msgs _ _ (screen_inv_initial cfg0))
    as (m & cfg & Hrun & _ & _ & _ & _ & _ & _ & _ & H5 & H6 & H7 & H8 & H9).
  by exists m, cfg.
Qed.

End screen.

End SetupFacts.

(** ** The table of skip categories *)

Module TypesFacts.
Import Types.

(** X20.  The table has no two categories with the same id or the same name:
    each category is found again by its id and by its name; a lookup by
    id returns a category of the table with that id; and the ids that
    [GetSkipCategoryIDs] lists are exactly those that resolve. *)
Theorem category_lookups_round_trip :
  (∀ c, c ∈ SkipCategories →
     GetSkipCategoryByID (ID c) = Some c ∧
     GetSkipCategoryByName (Name c) = Some c) ∧
  (∀ id c, GetSkipCategoryByID id = Some c → ID c = id ∧ c ∈ SkipCategories) ∧
  (∀ name c, GetSkipCategoryByName name = Some c →
     Name c = name ∧ c ∈ SkipCategories) ∧
  (∀ id, id ∈ GetSkipCategoryIDs ↔ is_Some (GetSkipCategoryByID id)).
Proof.
  assert (∀ c, c ∈ SkipCategories →
            GetSkipCategoryByID (ID c) = Some c ∧
            GetSkipCategoryByName (Name c) = Some c) as Hround.
  { intros c Hc. unfold SkipCategories in Hc.
    repeat (apply elem_of_cons in Hc as [->|Hc]; [by split|]).
    by apply elem_of_nil in Hc. }
  assert (∀ id c, GetSkipCategoryByID id = Some c →
            ID c = id ∧ c ∈ SkipCategories) as Hid.
  { intros id c [Hin Heq]%find_some. split.
    - by apply String.eqb_eq.
    - by apply list_elem_of_In. }
  split_and!; [done|done| |].
  - intros name c [Hin Heq]%find_some. split.
    + by apply String.eqb_eq.
    + by apply list_elem_of_In.
  - intros id. unfold GetSkipCategoryIDs. rewrite list_elem_of_fmap. split.
    + intros (c & -> & Hc). exists c. by apply Hround.
    + intros [c Hc]. exists c. by destruct (Hid id c Hc).
Qed.

End TypesFacts.

(** ** The device manager *)

Module DeviceRegistryFacts.
Import DeviceRegistry.

Lemma filed_by_id_new h0 : filed_by_id (NewDeviceManager h0).
Proof. intros id p Hp. done. Qed.

Lemma filed_by_id_call dm c dm' :
  do_call dm c = Some dm' → filed_by_id dm → filed_by_id dm'.
Proof.
  intros Hc Hinv. destruct c as [now p|now id connected|id]; cbn in Hc.
  - unfold RegisterDevice in Hc.
    destruct (heap dm !! p) as [d|] eqn:Hp; [|done]. injection Hc as <-.
    intros id q Hq. cbn in *.
    apply lookup_insert_Some in Hq as [[<- <-]|[Hne Hq]].
    + rewrite lookup_insert_eq. by eexists.
    + destruct (Hinv id q Hq) as (d' & Hd' & Hid).
      destruct (decide (q = p)) as [->|Hqp].
      * rewrite lookup_insert_eq. eexists. split; [done|]. cbn. congruence.
      * rewrite lookup_insert_ne by done. by exists d'.
  - injection Hc as <-. unfold UpdateDeviceStatus.
    destruct (devices dm !! id) as [p|] eqn:Hp; [|done].
    intros id' q Hq. cbn [fst heap devices] in *.
    destruct (Hinv id' q Hq) as (d' & Hd' & Hid).
    destruct (decide (q = p)) as [->|Hqp].
    + rewrite lookup_alter_eq, Hd'. cbn. by eexists.
    + rewrite lookup_alter_ne by done. by exists d'.
  - injection Hc as <-. unfold RemoveDevice.
    destruct (devices dm !! id) as [p|] eqn:Hp; [|done].
    intros id' q Hq. cbn [fst heap devices] in *.
    apply lookup_delete_Some in Hq as [_ Hq]. by apply Hinv.
Qed.

Lemma do_calls_filed_by_id cs dm dm' :
  do_calls dm cs = Some dm' → filed_by_id dm → filed_by_id dm'.
Proof.
  revert dm. induction cs as [|c cs IH]; intros dm Hcs Hinv; cbn in Hcs.
  - by injection Hcs as <-.
  - destruct (do_call dm c) as [dm1|] eqn:Hc; [|done].
    eapply IH; [done|]. by eapply filed_by_id_call.
Qed.

Lemma elem_of_ListDevices R dm p :
  p ∈ ListDevices R dm ↔ ∃ id, devices dm !! id = Some p.
Proof.
  unfold ListDevices. rewrite list_elem_of_fmap. split.
  - intros ([id q] & -> & Hin). rewrite (map_range_perm R) in Hin.
    apply elem_of_map_to_list in Hin. by exists id.
  - intros [id Hid]. exists (id, p). split; [done|].
    rewrite (map_range_perm R). by apply elem_of_map_to_list.
Qed.

Lemma elem_of_GetConnectedDevices R dm p :
  p ∈ GetConnectedDevices R dm ↔
  p ∈ ListDevices R dm ∧ is_connected dm p = true.
Proof.
  unfold GetConnectedDevices, ListDevices.
  by rewrite !list_elem_of_In, filter_In.
Qed.

(** X21.  As long as the devices are changed through the manager only, every
    device is filed under its own id, no device is filed twice, a device
    just registered is found under its id and listed as connected, and a
    removed id is found no more. *)
Theorem manager_files_devices_by_id (R : MapRange) (h0 : gmap nat Device)
    (cs : list call) (dm : DeviceManager) :
  do_calls (NewDeviceManager h0) cs = Some dm →
  filed_by_id dm ∧
  (∀ id1 id2 device, devices dm !! id1 = Some device →
     devices dm !! id2 = Some device → id1 = id2) ∧
  (∀ now device dm', RegisterDevice now device dm = Some dm' →
     ∃ d, heap dm !! device = Some d ∧ GetDevice (ID d) dm' = Some device ∧
          device ∈ GetConnectedDevices R dm') ∧
  (∀ id, GetDevice id (RemoveDevice id dm).1 = None ∧
         ((RemoveDevice id dm).2 = true ↔ is_Some (GetDevice id dm))).
Proof.
  intros Hcs.
  assert (filed_by_id dm) as Hinv.
  { eapply do_calls_filed_by_id; [done|apply filed_by_id_new]. }
  split_and!; [done| | |].
  - intros id1 id2 p H1 H2.
    destruct (Hinv id1 p H1) as (d1 & Hd1 & <-).
    destruct (Hinv id2 p H2) as (d2 & Hd2 & <-). congruence.
  - intros now p dm' Hreg. unfold RegisterDevice in Hreg.
    destruct (heap dm !! p) as [d|] eqn:Hp; [|done]. injection Hreg as <-.
    exists d. split; [done|]. unfold GetDevice. cbn.
    split; [apply lookup_insert_eq|].
    apply elem_of_GetConnectedDevices. split.
    + apply elem_of_ListDevices. exists (ID d). cbn. apply lookup_insert_eq.
    + unfold is_connected. cbn. by rewrite lookup_insert_eq.
  - intros id. unfold RemoveDevice, GetDevice.
    destruct (devices dm !! id) as [p|] eqn:Hp; cbn.
    + split; [apply lookup_delete_eq|]. split; [by eexists|done].
    + split; [done|]. split; [done|]. by intros [? ?].
Qed.

Lemma manager_files_devices_by_id_witness :
  ∃ dm,
    do_calls (NewDeviceManager two_devices)
      [CallRegisterDevice 10 1; CallRegisterDevice 20 2;
       CallUpdateDeviceStatus 30 "tv" false] = Some dm ∧
    filed_by_id dm.
Proof.
  eexists. split; [reflexivity|].
  eapply (manager_files_devices_by_id
            (mkMapRange map_to_list (λ m, reflexivity (map_to_list m)))
            two_devices
            [CallRegisterDevice 10 1; CallRegisterDevice 20 2;
             CallUpdateDeviceStatus 30 "tv" false]).
  reflexivity.
Defined.

(** X22.  A status update touches one device only: the device filed under the
    id takes the new status, every device filed under another id is left
    as it was, and the device is listed as connected afterwards exactly
    when the new status says so. *)
Theorem status_update_is_local (R : MapRange) (h0 : gmap nat Device)
    (cs : list call) (dm : DeviceManager)
    (now : Z) (id : string) (connected : bool) (device : nat) :
  do_calls (NewDeviceManager h0) cs = Some dm →
  GetDevice id dm = Some device →
  let dm' := (UpdateDeviceStatus now id connected dm).1 in
  (UpdateDeviceStatus now id connected dm).2 = true ∧
  (∃ d, heap dm' !! device = Some d ∧ ID d = id ∧ IsConnected d = connected) ∧
  (∀ id' device', id' ≠ id → GetDevice id' dm = Some device' →
     GetDevice id' dm' = Some device' ∧
     heap dm' !! device' = heap dm !! device') ∧
  (device ∈ GetConnectedDevices R dm' ↔ connected = true).
Proof.
  intros Hcs Hid. cbv zeta.
  assert (filed_by_id dm) as Hinv.
  { eapply do_calls_filed_by_id; [done|apply filed_by_id_new]. }
  unfold GetDevice in *. unfold UpdateDeviceStatus. rewrite Hid.
  cbn [fst snd heap devices].
  destruct (Hinv id device Hid) as (d & Hd & Hdid).
  split_and!; [done| | |].
  - rewrite lookup_alter_eq, Hd. cbn. by eexists.
  - intros id' p' Hne Hp'. split; [done|].
    apply lookup_alter_ne. intros ->.
    destruct (Hinv id' p' Hp') as (d' & Hd' & Hid'). congruence.
  - rewrite elem_of_GetConnectedDevices. unfold is_connected.
    cbn [heap devices]. rewrite lookup_alter_eq, Hd. cbn. split; [by intros [_ ?]|].
    intros ->. split; [|done]. apply elem_of_ListDevices. by exists id.
Qed.

Lemma status_update_is_local_witness :
  ∃ dm,
    do_calls (NewDeviceManager two_devices)
      [CallRegisterDevice 10 1; CallRegisterDevice 20 2] = Some dm ∧
    GetDevice "tv" dm = Some 1%nat ∧
    (UpdateDeviceStatus 30 "tv" false dm).2 = true.
Proof.
  eexists. split; [reflexivity|]. split; [reflexivity|].
  refine (proj1 (status_update_is_local
            (mkMapRange map_to_list (λ m, reflexivity (map_to_list m)))
            two_devices
            [CallRegisterDevice 10 1; CallRegisterDevice 20 2] _
            30 "tv" false 1%nat eq_refl eq_refl)).
Defined.

End DeviceRegistryFacts.

(** ** [APIHelper.GetSegments] *)

Module APIHelperFacts.
Import Merge MergeFacts APIHelper.

Lemma typed_None r : typed r = None ↔ (length (Segment_ r) < 2)%nat.
Proof.
  unfold typed. destruct (Segment_ r) as [|s0 [|s1 l]]; simpl; split;
    intros; try done; lia.
Qed.

Lemma mapM_typed_None records :
  mapM typed records = None ↔
  ∃ r, r ∈ records ∧ (length (Segment_ r) < 2)%nat.
Proof.
  induction records as [|r records IH]; cbn.
  - split; [done|]. intros (r & Hr & _). by apply elem_of_nil in Hr.
  - destruct (typed r) as [t|] eqn:Ht; cbn.
    + destruct (mapM typed records) as [ts|]; cbn.
      * split; [done|]. intros (r' & [->|Hr']%elem_of_cons & Hlen).
        -- apply typed_None in Hlen. congruence.
        -- assert (Some ts = None) as Hnone by (apply IH; by exists r').
           done.
      * split; [|done]. intros _.
        destruct (proj1 IH eq_refl) as (r' & Hr' & Hlen).
        exists r'. split; [by right|done].
    + split; [|done]. intros _. exists r. split; [left|by apply typed_None].
Qed.

(** X4.  Whatever the server answers, a list of segments that
    [GetSegments] returns is sorted by start, its segments do not overlap
    and lie one second apart or more, as the subtraction of the combine
    loop measures it, and an empty list is always returned as permanent.
    On a helper made by [NewAPIHelper] the channel is never looked up, so
    that no video is ever skipped as whitelisted: the call returns an
    error exactly when the request fails, and it panics exactly when the
    entry of the video has an array of segments in which some record has
    fewer than two numbers. *)
Theorem GetSegments_canonical (fsub : Z → Z → Z)
    (getChannelID : string → option string)
    (fetch : string → option (list item))
    (a : APIHelper) (videoID0 : string) :
  rounded_sub fsub →
  (∀ segments ignoreTTL,
     GetSegments fsub getChannelID fetch a videoID0 = Ok segments ignoreTTL →
     sorted_by_start segments ∧ non_overlapping segments ∧
     gap_at_least_1s fsub segments ∧
     (segments = [] → ignoreTTL = true)) ∧
  (∀ key getChannelID',
     GetSegments fsub getChannelID' fetch (NewAPIHelper key) videoID0
     = GetSegments fsub getChannelID fetch (NewAPIHelper key) videoID0 ∧
     (GetSegments fsub getChannelID fetch (NewAPIHelper key) videoID0 = Err ↔
      fetch videoID0 = None) ∧
     (GetSegments fsub getChannelID fetch (NewAPIHelper key) videoID0 = Panic ↔
      ∃ response entry records r,
        fetch videoID0 = Some response ∧
        find (matches videoID0) response = Some entry ∧
        segments entry = Some records ∧
        r ∈ records ∧ (length (Segment_ r) < 2)%nat)).
Proof.
  intros Hsub.
  assert (∀ data segments ignoreTTL,
            processSegments fsub data = Ok segments ignoreTTL →
            sorted_by_start segments ∧ non_overlapping segments ∧
            gap_at_least_1s fsub segments ∧ (segments = [] → ignoreTTL = true))
    as Hcanon.
  { intros data segments ignoreTTL. unfold processSegments.
    destruct data as [records|].
    - destruct (mapM typed records) as [ts|]; [|done]. intros [= <- <-].
      destruct (separated_canonical fsub Hsub _
                  (processSegments_separated fsub Hsub ts)) as (? & ? & ?).
      split_and!; [done..|]. apply processSegments_nil_permanent.
    - intros [= <- <-].
      split_and!; [| | |done]; intros i; intros; by destruct i. }
  split.
  - intros segments ignoreTTL. unfold GetSegments.
    repeat case_match; try done; try apply Hcanon.
    all: intros [= <- <-].
    all: split_and!; [| | |done]; intros i; intros; by destruct i.
  - intros key getChannelID'. unfold GetSegments.
    cbn [NewAPIHelper APIKey channelWhitelist length Z.of_nat].
    rewrite andb_false_r. split_and!; [done| |].
    + destruct (fetch videoID0) as [response|]; [|done].
      split; [|done].
      destruct (find (matches videoID0) response) as [entry|]; [|done].
      unfold processSegments. by repeat case_match.
    + destruct (fetch videoID0) as [response|] eqn:Hfetch.
      2:{ split; [done|]. by intros (? & ? & ? & ? & ? & _). }
      destruct (find (matches videoID0) response) as [entry|] eqn:Hfind.
      2:{ split; [done|]. intros (? & ? & ? & ? & [= <-] & ? & _). congruence. }
      unfold processSegments. destruct (segments entry) as [records|] eqn:Hrec.
      2:{ split; [done|].
          intros (? & ? & ? & ? & [= <-] & ? & ? & _). congruence. }
      destruct (mapM typed records) as [ts|] eqn:Hts.
      * split; [done|]. intros (? & ? & records' & r & [= <-] & ? & ? & Hr).
        assert (records' = records) as -> by congruence.
        assert (mapM typed records = None) as Hnone
          by (apply mapM_typed_None; by exists r).
        congruence.
      * split; [|done]. intros _.
        apply mapM_typed_None in Hts as (r & Hr).
        by exists response, entry, records, r.
Qed.

Lemma GetSegments_canonical_witness :
  rounded_sub Z.sub ∧
  GetSegments Z.sub (λ _, None) example_server (NewAPIHelper "") "video"
  = Ok (Merge.processSegments Z.sub spec_example).1 false ∧
  gap_at_least_1s Z.sub (Merge.processSegments Z.sub spec_example).1.
Proof.
  assert (GetSegments Z.sub (λ _, None) example_server (NewAPIHelper "") "video"
          = Ok (Merge.processSegments Z.sub spec_example).1 false)
    as Hget by reflexivity.
  split; [exact exact_sub_rounded|]. split; [exact Hget|].
  exact (proj1 (proj2 (proj2
           (proj1 (GetSegments_canonical Z.sub (λ _, None) example_server
                     (NewAPIHelper "") "video" exact_sub_rounded)
              _ _ Hget)))).
Defined.

(** An answer with a record of one number makes the call panic. *)
Example GetSegments_short_record_panics :
  GetSegments Z.sub (λ _, None) short_server (NewAPIHelper "") "video" = Panic.
Proof. reflexivity. Qed.

End APIHelperFacts.

(** ** package cache: the list of recent use and the eviction *)

Module LruCacheFacts.
Import LruCache.

Lemma Remove_elem_of e x l : x ∈ Remove e l → x ∈ l.
Proof.
  induction l as [|y l IH]; simpl; [done|].
  destruct (decide (y = e)); [by right|].
  intros [->|Hx]%elem_of_cons; [left|right; auto].
Qed.

Lemma Remove_not_elem_of e l : e ∉ l → Remove e l = l.
Proof.
  induction l as [|y l IH]; simpl; [done|]. intros Hne.
  apply not_elem_of_cons in Hne as [Hne Hl].
  rewrite decide_False by done. by rewrite IH.
Qed.

Lemma Remove_NoDup e l : NoDup l → NoDup (Remove e l) ∧ e ∉ Remove e l.
Proof.
  induction 1 as [|y l Hy Hl [IH1 IH2]]; simpl; [split; [constructor|by intros ?%elem_of_nil]|].
  destruct (decide (y = e)) as [->|Hne]; [done|]. split.
  - constructor; [|done]. by intros ?%Remove_elem_of.
  - by intros [?|?]%elem_of_cons.
Qed.

Lemma Remove_length e l :
  e ∈ l → S (length (Remove e l)) = length l.
Proof.
  induction l as [|y l IH]; simpl; [by intros ?%elem_of_nil|].
  destruct (decide (y = e)) as [->|Hne]; [done|].
  intros [->|He]%elem_of_cons; [done|]. simpl. by rewrite IH.
Qed.

Lemma Remove_length_le e l : (length (Remove e l) ≤ length l)%nat.
Proof.
  destruct (decide (e ∈ l)) as [He|He].
  - rewrite <- (Remove_length e l He). lia.
  - by rewrite Remove_not_elem_of.
Qed.

Lemma Remove_back pre e : NoDup (pre ++ [e]) → Remove e (pre ++ [e]) = pre.
Proof.
  induction pre as [|y pre IH]; simpl; intros Hnd.
  - by rewrite decide_True.
  - apply NoDup_cons in Hnd as [Hy Hnd].
    rewrite decide_False, IH; [done..|].
    intros ->. apply Hy, elem_of_app. right. left.
Qed.

Lemma MoveToFront_elem_of e x l : x ∈ MoveToFront e l ↔ x ∈ l.
Proof.
  unfold MoveToFront. destruct (decide (e ∈ l)) as [He|He]; [|done]. split.
  - intros [->|Hx]%elem_of_cons; [done|by eapply Remove_elem_of].
  - intros Hx. destruct (decide (x = e)) as [->|Hne]; [left|right].
    clear He. induction l as [|y l IH]; simpl; [done|].
    apply elem_of_cons in Hx as [->|Hx].
    + rewrite decide_False by done. left.
    + destruct (decide (y = e)); [done|]. right. auto.
Qed.

Lemma MoveToFront_NoDup e l : NoDup l → NoDup (MoveToFront e l).
Proof.
  intros Hl. unfold MoveToFront. destruct (decide (e ∈ l)); [|done].
  destruct (Remove_NoDup e l Hl). by constructor.
Qed.

Lemma MoveToFront_length e l : length (MoveToFront e l) = length l.
Proof.
  unfold MoveToFront. destruct (decide (e ∈ l)) as [He|]; [|done].
  simpl. by apply Remove_length.
Qed.

(** *** The invariant *)

Lemma lru_inv_NewCache capacity ttl : lru_inv (NewCache capacity ttl).
Proof.
  split_and!; [constructor|by intros ? ?%elem_of_nil|done|].
  unfold Len. simpl. lia.
Qed.

Lemma lru_inv_Delete c key : lru_inv c → lru_inv (Delete c key).
Proof.
  intros (Hnd & Hl & Hi & Hcap). unfold Delete.
  destruct (items c !! key) as [element|] eqn:Hk; [|done].
  split_and!; cbn [lruList items next capacity].
  - by destruct (Remove_NoDup element _ Hnd).
  - intros e He%Remove_elem_of. auto.
  - intros k e [_ Hke]%lookup_delete_Some. eauto.
  - intros Hpos. specialize (Hcap Hpos). unfold Len in *. cbn [lruList].
    pose proof (Remove_length_le element (lruList c)). lia.
Qed.

Lemma lru_inv_Get c now key : lru_inv c → lru_inv (Get c now key).2.
Proof.
  intros Hinv. unfold Get.
  destruct (items c !! key) as [element|] eqn:Hk; [|done].
  destruct (expired now (Value c element)); cbn [snd];
    [by apply lru_inv_Delete|].
  destruct Hinv as (Hnd & Hl & Hi & Hcap).
  split_and!; cbn [lruList items next capacity].
  - by apply MoveToFront_NoDup.
  - intros e He%MoveToFront_elem_of. auto.
  - done.
  - intros Hpos. specialize (Hcap Hpos). unfold Len in *. cbn [lruList].
    by rewrite MoveToFront_length.
Qed.

Lemma lru_inv_Clear c : lru_inv c → lru_inv (Clear c).
Proof.
  intros (Hnd & Hl & Hi & Hcap).
  split_and!; cbn; [constructor|by intros ? ?%elem_of_nil|done|].
  unfold Len. simpl. lia.
Qed.

Lemma lru_inv_Set c now key v ignoreTTL c' :
  lru_inv c → Set_ c now key v ignoreTTL = Returned c' → lru_inv c'.
Proof.
  intros (Hnd & Hl & Hi & Hcap). unfold Set_.
  destruct (items c !! key) as [element|] eqn:Hk.
  { intros [= <-]. split_and!; cbn [lruList items next capacity].
    - by apply MoveToFront_NoDup.
    - intros e He%MoveToFront_elem_of. auto.
    - done.
    - intros Hpos. specialize (Hcap Hpos). unfold Len in *. cbn [lruList].
      by rewrite MoveToFront_length. }
  cbn [capacity lruList].
  assert (NoDup (next c :: lruList c)) as Hnd'.
  { constructor; [|done]. intros He%Hl. lia. }
  assert (∀ e, e ∈ next c :: lruList c → (e < S (next c))%nat) as Hl'.
  { intros e [->|He%Hl]%elem_of_cons; lia. }
  assert (∀ k e, <[key := next c]> (items c) !! k = Some e → (e < S (next c))%nat)
    as Hi'.
  { intros k e [[_ <-]|[_ Hke%Hi]]%lookup_insert_Some; lia. }
  assert (length (next c :: lruList c) = S (length (lruList c))) as Hlen0 by done.
  revert Hnd' Hl' Hlen0. generalize (next c :: lruList c) as l0.
  intros l0 Hnd' Hl' Hlen0.
  destruct ((0 <? capacity c) && (capacity c <? Z.of_nat (length l0))) eqn:Hfull.
  - unfold evict, Back. cbn [lruList Value items capacity ttl next].
    destruct (last l0) as [back|] eqn:Hback;
      [|apply last_None in Hback; subst l0; discriminate Hlen0].
    destruct (value_ _) as [| | |s| |]; try done. intros [= <-].
    apply andb_true_iff in Hfull as [Hpos%Z.ltb_lt _].
    split_and!; cbn [lruList items next capacity].
    + by destruct (Remove_NoDup back _ Hnd').
    + intros e He%Remove_elem_of. auto.
    + intros k e [_ Hke]%lookup_delete_Some. eauto.
    + intros _. specialize (Hcap Hpos). unfold Len in *. cbn [lruList].
      assert (back ∈ l0) as Hin.
      { apply last_Some in Hback as [l' ->]. apply elem_of_app. right. left. }
      pose proof (Remove_length back _ Hin) as Hlen. lia.
  - intros [= <-]. split_and!; cbn [lruList items next capacity]; [done..|].
    intros Hpos. unfold Len. cbn [lruList].
    apply andb_false_iff in Hfull as [Hf%Z.ltb_ge|Hf%Z.ltb_ge]; [lia|done].
Qed.

Lemma lru_inv_run ops c c' :
  lru_inv c → run c ops = Returned c' → lru_inv c'.
Proof.
  revert c. induction ops as [|o ops IH]; intros c Hinv; simpl.
  { by intros [= <-]. }
  destruct (apply_op c o) as [c1|p] eqn:Hop; [|done].
  apply IH. destruct o as [now key|now key v ignoreTTL|key|]; simpl in Hop.
  - injection Hop as <-. by apply lru_inv_Get.
  - by eapply lru_inv_Set.
  - injection Hop as <-. by apply lru_inv_Delete.
  - injection Hop as <-. by apply lru_inv_Clear.
Qed.

(** X23.  The list of recent use.  Whatever calls a client makes on a new
    cache, if they return, no element is twice in the list, and the list
    is never longer than a positive capacity; a hit of [Get] and a [Set]
    of a stored key move the element of the key to the front of the list
    (if it is of the list) and leave the others in their order, and a
    [Set] of a new key puts a new element at the front. *)
Theorem recent_use_list_discipline (capacity0 ttl0 : Z) (ops : list op) (c : Cache) :
  run (NewCache capacity0 ttl0) ops = Returned c →
  NoDup (lruList c) ∧
  (0 < capacity c → Len c ≤ capacity c) ∧
  (∀ now key element,
     items c !! key = Some element → expired now (Value c element) = false →
     (Get c now key).1 = Some (value_ (Value c element)) ∧
     lruList (Get c now key).2 = MoveToFront element (lruList c)) ∧
  (∀ now key v ignoreTTL element,
     items c !! key = Some element →
     ∃ c', Set_ c now key v ignoreTTL = Returned c' ∧
           lruList c' = MoveToFront element (lruList c) ∧
           value_ (Value c' element) = v) ∧
  (∀ now key v ignoreTTL c',
     items c !! key = None → Set_ c now key v ignoreTTL = Returned c' →
     head (lruList c') = Some (next c)) ∧
  (∀ element, element ∈ lruList c →
     MoveToFront element (lruList c) = element :: Remove element (lruList c)).
Proof.
  intros Hrun.
  pose proof (lru_inv_run ops _ c (lru_inv_NewCache capacity0 ttl0) Hrun)
    as (Hnd & Hl & Hi & Hcap).
  split_and!; [done|done|..].
  - intros now key element Hk Hexp. unfold Get. by rewrite Hk, Hexp.
  - intros now key v ignoreTTL element Hk. unfold Set_. rewrite Hk.
    eexists. split; [done|]. split; [done|]. cbn [Value]. unfold set_Value.
    by rewrite decide_True.
  - intros now key v ignoreTTL c' Hk. unfold Set_. rewrite Hk.
    cbn [capacity lruList].
    destruct (_ && _) eqn:Hfull; [|by intros [= <-]].
    apply andb_true_iff in Hfull as [Hpos%Z.ltb_lt Hlen%Z.ltb_lt].
    unfold evict, Back. cbn [lruList Value items capacity ttl next].
    destruct (last (next c :: lruList c)) as [back|] eqn:Hback;
      [|by intros [= <-]].
    destruct (value_ _) as [| | |s| |]; try done. intros [= <-].
    cbn [lruList Remove]. destruct (decide (next c = back)) as [<-|Hne]; [|done].
    exfalso. destruct (lruList c) as [|x l] eqn:Hlist; [simpl in Hlen; lia|].
    assert (next c ∈ x :: l) as Hin.
    { change (last (next c :: x :: l)) with (last (x :: l)) in Hback.
      apply last_Some in Hback as [l' ->]. apply elem_of_app. right. left. }
    apply Hl in Hin. lia.
  - intros element He. unfold MoveToFront. by rewrite decide_True.
Qed.

Lemma recent_use_list_discipline_witness :
  ∃ c, lru_scenario = Returned c ∧ Len c ≤ 2.
Proof.
  assert (∃ c, lru_scenario = Returned c ∧ capacity c = 2) as (c & Hc & Hcap2).
  { eexists. split; [vm_compute; reflexivity|reflexivity]. }
  exists c. split; [exact Hc|].
  destruct (recent_use_list_discipline 2 0 _ c Hc) as (_ & Hcap & _).
  rewrite Hcap2 in Hcap. apply Hcap. lia.
Defined.

(** *** The eviction *)

(** X24.  The eviction takes the right element out of the list and the
    wrong key out of the map.  When [Set] stores a new key in a cache whose
    list is full, the element at the back of the list, the one used
    least recently, leaves the list; the key deleted from the map is not
    the key of that element but the value stored with it, asserted to be
    a string: when the value is a string, the key of the evicted element
    stays in the map unless it is that string, and a later [Get] of the
    key still returns the value; when the value is not a string, [Set]
    panics. *)
Theorem Set_evicts_back_and_deletes_its_value (c : Cache) (now : Z)
    (key : string) (v : value) (ignoreTTL : bool) (pre : list nat) (back : nat) :
  lru_inv c →
  items c !! key = None →
  lruList c = pre ++ [back] →
  0 < capacity c ≤ Len c →
  match value_ (Value c back) with
  | VStr s =>
      ∃ c', Set_ c now key v ignoreTTL = Returned c' ∧
            lruList c' = next c :: pre ∧
            items c' = delete s (<[key := next c]> (items c)) ∧
            (∀ k now', items c !! k = Some back → k ≠ s →
               expired now' (Value c back) = false →
               items c' !! k = Some back ∧
               Get c' now' k = (Some (VStr s), c'))
  | _ => Set_ c now key v ignoreTTL = Panicked TypeAssertion
  end.
Proof.
  intros (Hnd & Hl & Hi & Hcap) Hkey Hlist [Hpos Hfull]. unfold Set_.
  rewrite Hkey. cbn [capacity lruList]. unfold Len in Hfull.
  assert ((0 <? capacity c) && (capacity c <? Z.of_nat (length (next c :: lruList c)))
          = true) as ->.
  { apply andb_true_iff. split; [by apply Z.ltb_lt|]. apply Z.ltb_lt.
    simpl length. lia. }
  assert (back < next c)%nat as Hback.
  { apply Hl. rewrite Hlist. apply elem_of_app. right. left. }
  unfold evict, Back. cbn [lruList Value items capacity ttl next].
  assert (last (next c :: lruList c) = Some back) as ->.
  { rewrite Hlist. change (next c :: pre ++ [back]) with ((next c :: pre) ++ [back]).
    apply last_snoc. }
  assert (set_Value (next c) (mkCacheEntry v
            (if negb ignoreTTL && (0 <? ttl c) then Some (now + ttl c) else None))
            (Value c) back = Value c back) as HV.
  { unfold set_Value. rewrite decide_False; [done|lia]. }
  rewrite HV.
  destruct (value_ (Value c back)) as [| | |s| |] eqn:Hval; try done.
  assert (Remove back (next c :: lruList c) = next c :: pre) as HR.
  { rewrite Hlist. change (next c :: pre ++ [back]) with ((next c :: pre) ++ [back]).
    apply Remove_back. change ((next c :: pre) ++ [back]) with (next c :: pre ++ [back]).
    rewrite <- Hlist. constructor; [|done]. intros He%Hl. lia. }
  eexists. split; [reflexivity|]. cbn [lruList items]. rewrite HR.
  split; [done|]. split; [done|].
  intros k now' Hk Hne Hexp.
  assert (k ≠ key) as Hnk by congruence.
  assert (delete s (<[key := next c]> (items c)) !! k = Some back) as Hk'.
  { rewrite lookup_delete_ne by done. by rewrite lookup_insert_ne. }
  split; [done|]. unfold Get. cbn [items Value]. rewrite Hk', HV, Hexp, Hval.
  f_equal. f_equal. unfold MoveToFront. cbn [lruList].
  rewrite decide_False; [done|].
  intros [->|Hin]%elem_of_cons; [lia|].
  rewrite Hlist in Hnd. apply NoDup_app in Hnd as (_ & Hnd & _).
  apply (Hnd back Hin). left.
Qed.

Lemma Set_evicts_back_and_deletes_its_value_witness :
  ∃ c c', lru_scenario_before_c = Returned c ∧
          Set_ c 4000 "c" (VStr "vc") true = Returned c' ∧
          lruList c' = [2; 0]%nat ∧
          items c' !! "b" = Some 1%nat.
Proof.
  assert (∃ c, lru_scenario_before_c = Returned c ∧
               lruList c = [0%nat] ++ [1%nat] ∧ items c !! "c" = None ∧
               items c !! "b" = Some 1%nat ∧
               value_ (Value c 1%nat) = VStr "vb" ∧ next c = 2%nat ∧
               capacity c = 2 ∧ expired 5000 (Value c 1%nat) = false)
    as (c & Hc & Hlist & Hkey & Hb & Hval & Hnext & Hcap & Hexp).
  { eexists. split; [vm_compute; reflexivity|]. by vm_compute. }
  pose proof (Set_evicts_back_and_deletes_its_value c 4000 "c" (VStr "vc") true
                [0%nat] 1%nat
                (lru_inv_run _ _ c (lru_inv_NewCache 2 0) Hc) Hkey Hlist) as Hset.
  rewrite Hval, Hnext in Hset.
  destruct Hset as (c' & Hc' & Hl' & _ & Hserved).
  { unfold Len. rewrite Hcap, Hlist. simpl. lia. }
  exists c, c'. split_and!; [exact Hc|exact Hc'|exact Hl'|].
  exact (proj1 (Hserved "b" 5000 Hb ltac:(discriminate) Hexp)).
Defined.

(** In the scenario the element of [b], used least recently, has left the
    list, the map still has its three keys, and [b] is still served. *)
Example lru_scenario_keeps_evicted_key :
  ∃ c, lru_scenario = Returned c ∧
       lruList c = [2; 0]%nat ∧
       items c !! "a" = Some 0%nat ∧ items c !! "b" = Some 1%nat ∧
       items c !! "c" = Some 2%nat ∧
       (Get c 5000 "b").1 = Some (VStr "vb").
Proof. eexists. split; [vm_compute; reflexivity|]. by vm_compute. Qed.

(** With values that are not strings the same calls panic. *)
Example lru_scenario_panics :
  run (NewCache 2 0)
    [OpSet 1000 "a" (VNum 1000) true; OpSet 2000 "b" (VNum 2000) true;
     OpGet 3000 "a"; OpSet 4000 "c" (VNum 3000) true]
  = Panicked TypeAssertion.
Proof. reflexivity. Qed.

End LruCacheFacts.
